(** * The room relay of playwriter (rebrow / personal compute relay)

    A shallow embedding of [src/rebrow/src/relay.ts] (class [RebrowRelay], the
    per-room durable object) together with the timeout default of the local
    client ([src/pcr-local/src/index.ts], [handleBashExecute]).

    The relay is an event-driven object: the platform calls [fetch],
    [webSocketMessage] and [webSocketClose], timers fire, and the tool layer
    calls [readFile], [writeFile] and [executeBash].  Every such entry point
    is embedded as a computation in a small state-and-exception monad over
    the room's fields; what it sends, closes or settles is written to an
    effect log.  An [await] on a back-end reply is represented by the entry
    the code stores in its pending table: the entry records the variables
    that the stored closures capture, and the code after the [await] is a
    function of that entry ([resumeLocal], [resumeMcp]).

    Conventions.
    - JavaScript numbers that the relay handles (ids, timeouts in ms, mtimes)
      are integers in [Z]; the counters are exact below 2^53, the range the
      model covers.  Mtimes are only stored, tested against [undefined] and
      forwarded.
    - Wire messages are typed as in [types.ts]; a message whose shape does not
      match the type its sender is cast to is outside the model.
    - [console.log] output is not modelled.

    The platform.
    - The events of one room are handled one at a time: a handler and the
      promise reactions it queues run to completion before the next event
      (the object is single-threaded and its storage calls do not let other
      events in).
    - [ctx.getWebSockets()] lists the accepted sockets in the order they were
      accepted.  A socket on which the relay has called [close] stays listed
      until its close event is delivered; [send] on it throws, a second
      [close] does nothing.  When a close event is delivered the socket is no
      longer listed.
    - The room lives as long as the object: an eviction of the object, which
      would run the constructor again, is not an event of the model. *)

From Stdlib Require Import Ascii.
From stdpp Require Import gmap strings list fin_maps pretty sorting.

Open Scope Z_scope.

(** ** JavaScript helpers *)

(** Truthiness of an optional string: [undefined], [null] and [""] are falsy. *)
Definition truthy_string (s : option string) : bool :=
  match s with
  | Some s => negb (String.eqb s "")
  | None => false
  end.

(** Truthiness of an optional number: [undefined] and [0] are falsy. *)
Definition truthy_number (n : option Z) : bool :=
  match n with
  | Some n => negb (n =? 0)
  | None => false
  end.

(** [a || d] on an optional string. *)
Definition string_or (a : option string) (d : string) : string :=
  match a with
  | Some s => if String.eqb s "" then d else s
  | None => d
  end.

(** [a || d] on an optional number. *)
Definition number_or (a : option Z) (d : Z) : Z :=
  match a with
  | Some n => if n =? 0 then d else n
  | None => d
  end.

(** [s.split('/')]: the pieces between the slashes, at least one. *)
Fixpoint split_slash_aux (cur : string) (s : string) : list string :=
  match s with
  | EmptyString => [cur]
  | String c s' =>
      if Ascii.eqb c "/"%char
      then cur :: split_slash_aux "" s'
      else split_slash_aux (cur +:+ String c "") s'
  end.

Definition split_slash (s : string) : list string := split_slash_aux "" s.

(** ** Insertion-ordered maps

    A JavaScript [Map] iterates in insertion order; [set] on a present key
    keeps the key's position.  The relay's loops over [values()] depend on
    that order, so the three [Map]s that are iterated are association lists
    with the operations of [Map]. *)

Module JsMap.
Section Ops.
Context {K : Type} `{EqDecision K} {V : Type}.

Definition t : Type := list (K * V).

Definition empty : t := [].

Fixpoint get (k : K) (m : t) : option V :=
  match m with
  | [] => None
  | (k', v) :: m' => if decide (k = k') then Some v else get k m'
  end.

Definition has (k : K) (m : t) : bool :=
  match get k m with Some _ => true | None => false end.

Fixpoint set (k : K) (v : V) (m : t) : t :=
  match m with
  | [] => [(k, v)]
  | (k', v') :: m' =>
      if decide (k = k') then (k', v) :: m' else (k', v') :: set k v m'
  end.

Fixpoint delete (k : K) (m : t) : t :=
  match m with
  | [] => []
  | (k', v') :: m' =>
      if decide (k = k') then delete k m' else (k', v') :: delete k m'
  end.

Definition keys (m : t) : list K := m.*1.

Definition values (m : t) : list V := m.*2.

(** [for (const v of m.values()) if (p v) { v.field = ...; break }]:
    the first value in iteration order that satisfies [p] is rewritten. *)
Fixpoint update_first (p : V → bool) (f : V → V) (m : t) : t :=
  match m with
  | [] => []
  | (k, v) :: m' =>
      if p v then (k, f v) :: m' else (k, v) :: update_first p f m'
  end.

(** The first value in iteration order that satisfies [p]. *)
Fixpoint find_value (p : V → bool) (m : t) : option V :=
  match m with
  | [] => None
  | (_, v) :: m' => if p v then Some v else find_value p m'
  end.
End Ops.
Arguments t : clear implicits.
End JsMap.

(** ** Data model ([types.ts]) *)

(** An uninterpreted JSON value, kept as its text. *)
Definition Json : Type := string.

Record TargetInfo := {
  ti_targetId : string;
  ti_type : string;
  ti_title : string;
  ti_url : string;
  ti_attached : option bool;
  ti_browserContextId : option string;
}.

Record ConnectedTarget := {
  ct_sessionId : string;
  ct_targetId : string;
  ct_targetInfo : TargetInfo;
}.

(** The parameters [routeCdpCommand] reads out of a command's [params]
    object, and the object itself. *)
Record CmdParams := {
  cp_targetId : option string;
  cp_sessionId : option string;
  cp_discover : option bool;
  cp_raw : Json;
}.

Record CDPCommand := {
  cmd_id : Z;
  cmd_method : string;
  cmd_params : option CmdParams;
  cmd_sessionId : option string;
}.

Record Frame := {
  frame_url : string;
  frame_name : option string;
  frame_parentId : option string;
}.

(** The nested protocol event of a [forwardCDPEvent] envelope,
    [{ method, sessionId?, params? }].  The four methods whose [params] the
    relay casts and reads have their own constructor; [OtherEvent] is any
    other method. *)
Inductive CDPEvent :=
| Target_attachedToTarget (sessionId : option string)
    (params : option (string * TargetInfo * bool))
| Target_detachedFromTarget (sessionId : option string)
    (params : option string)
| Target_targetInfoChanged (sessionId : option string)
    (params : option TargetInfo)
| Page_frameNavigated (sessionId : option string) (params : option Frame)
| OtherEvent (method : string) (sessionId : option string)
    (params : option Json).

Definition event_method (ev : CDPEvent) : string :=
  match ev with
  | Target_attachedToTarget _ _ => "Target.attachedToTarget"
  | Target_detachedFromTarget _ _ => "Target.detachedFromTarget"
  | Target_targetInfoChanged _ _ => "Target.targetInfoChanged"
  | Page_frameNavigated _ _ => "Page.frameNavigated"
  | OtherEvent m _ _ => m
  end.

(** What [routeCdpCommand] returns. *)
Inductive CdpResult :=
| R_version (protocolVersion product revision userAgent jsVersion : string)
| R_empty
| R_sessionId (sessionId : string)
| R_targetInfo (targetInfo : option TargetInfo)
| R_targetInfos (targetInfos : list TargetInfo)
| R_remote (result : option Json).

(** [ExtensionMessage]: a response, an event envelope, a log or a pong. *)
Inductive ExtensionMessage :=
| ExtensionResponseMessage (id : Z) (result : option Json)
    (error : option string)
| ExtensionEventMessage (ev : CDPEvent)
| ExtensionLogMessage (level : string) (args : list string)
| ExtensionPongMessage.

Inductive LocalMethod := file_read | file_write | bash_execute.

Definition local_method_name (m : LocalMethod) : string :=
  match m with
  | file_read => "file.read"
  | file_write => "file.write"
  | bash_execute => "bash.execute"
  end.

Inductive LocalParams :=
| LocalReadParams (path : string)
| LocalWriteParams (path content : string) (expectedMtime : option Z)
| LocalBashParams (command : string) (workdir : option string)
    (timeout : option Z).

Inductive LocalResult :=
| LocalReadResult (content : string) (mtime : Z)
| LocalWriteResult (mtime : Z)
| LocalBashResult (stdout stderr : string) (exitCode : Z).

(** [result.mtime]: [undefined] on a result that has no such field. *)
Definition result_mtime (res : LocalResult) : option Z :=
  match res with
  | LocalReadResult _ m => Some m
  | LocalWriteResult m => Some m
  | LocalBashResult _ _ _ => None
  end.

Inductive LocalMessage :=
| LocalResponse (id : Z) (result : option LocalResult) (error : option string)
| LocalPongMessage
| LocalLogMessage (level : string) (args : list string).

Record RoomAuth := {
  passphraseHash : string;
  createdAt : Z;
}.

(** ** Sockets

    Each socket is accepted with exactly one tag.  [peer_open] is false once
    the relay has called [close] on the socket: from then on [send] on it
    throws, whether or not the platform still lists it.  [send] on a socket
    whose other end has gone away returns normally. *)

Definition Socket : Type := nat.

Inductive WebSocketTag :=
| TagExtension
| TagMcp (clientId : string)
| TagLocal (clientId : string).

Record Peer := {
  peer_ws : Socket;
  peer_tag : WebSocketTag;
  peer_open : bool;
}.

(** ** Pending requests

    The stored [resolve]/[reject] closures and the timer callback capture
    the variables below. *)

Record PendingRequest := {
  pr_mcpClientId : string;
  pr_timeout : Z;
  pr_ws : Socket;
  pr_command : CDPCommand;
}.

(** Who awaits a local request. *)
Inductive LocalCaller :=
| K_readFile (path : string)
| K_writeFile (path : string)
| K_executeBash
| K_direct.

Record PendingLocalRequest := {
  pl_timeout : Z;
  pl_method : LocalMethod;
  pl_caller : LocalCaller;
}.

(** ** The room *)

(** [auth] is the record under the key ['auth'] of [ctx.storage]; [peers]
    are the sockets [ctx.getWebSockets()] lists, in the order it lists them
    (the socket accepted last comes first); [departed] are the sockets that
    are no longer listed, as they were when they left.  The other fields are
    the fields of the class. *)
Record Room := {
  auth : option RoomAuth;
  peers : list Peer;
  departed : list Peer;
  connectedTargets : JsMap.t string ConnectedTarget;
  pendingRequests : JsMap.t Z PendingRequest;
  pendingLocalRequests : JsMap.t Z PendingLocalRequest;
  fileReadTimestamps : gmap string (option Z);
  messageId : Z;
  localMessageId : Z;
  pingInterval : bool;
}.

(** The room as the constructor leaves it. *)
Definition new_room : Room := {|
  auth := None;
  peers := [];
  departed := [];
  connectedTargets := JsMap.empty;
  pendingRequests := JsMap.empty;
  pendingLocalRequests := JsMap.empty;
  fileReadTimestamps := ∅;
  messageId := 0;
  localMessageId := 0;
  pingInterval := false;
|}.

Definition set_auth (a : option RoomAuth) (r : Room) : Room :=
  {| auth := a; peers := peers r; departed := departed r;
     connectedTargets := connectedTargets r;
     pendingRequests := pendingRequests r;
     pendingLocalRequests := pendingLocalRequests r;
     fileReadTimestamps := fileReadTimestamps r; messageId := messageId r;
     localMessageId := localMessageId r; pingInterval := pingInterval r |}.

Definition set_peers (p : list Peer) (r : Room) : Room :=
  {| auth := auth r; peers := p; departed := departed r;
     connectedTargets := connectedTargets r;
     pendingRequests := pendingRequests r;
     pendingLocalRequests := pendingLocalRequests r;
     fileReadTimestamps := fileReadTimestamps r; messageId := messageId r;
     localMessageId := localMessageId r; pingInterval := pingInterval r |}.

Definition set_departed (p : list Peer) (r : Room) : Room :=
  {| auth := auth r; peers := peers r; departed := p;
     connectedTargets := connectedTargets r;
     pendingRequests := pendingRequests r;
     pendingLocalRequests := pendingLocalRequests r;
     fileReadTimestamps := fileReadTimestamps r; messageId := messageId r;
     localMessageId := localMessageId r; pingInterval := pingInterval r |}.

Definition set_connectedTargets (t : JsMap.t string ConnectedTarget)
    (r : Room) : Room :=
  {| auth := auth r; peers := peers r; departed := departed r;
     connectedTargets := t;
     pendingRequests := pendingRequests r;
     pendingLocalRequests := pendingLocalRequests r;
     fileReadTimestamps := fileReadTimestamps r; messageId := messageId r;
     localMessageId := localMessageId r; pingInterval := pingInterval r |}.

Definition set_pendingRequests (p : JsMap.t Z PendingRequest)
    (r : Room) : Room :=
  {| auth := auth r; peers := peers r; departed := departed r;
     connectedTargets := connectedTargets r;
     pendingRequests := p;
     pendingLocalRequests := pendingLocalRequests r;
     fileReadTimestamps := fileReadTimestamps r; messageId := messageId r;
     localMessageId := localMessageId r; pingInterval := pingInterval r |}.

Definition set_pendingLocalRequests (p : JsMap.t Z PendingLocalRequest)
    (r : Room) : Room :=
  {| auth := auth r; peers := peers r; departed := departed r;
     connectedTargets := connectedTargets r;
     pendingRequests := pendingRequests r;
     pendingLocalRequests := p;
     fileReadTimestamps := fileReadTimestamps r; messageId := messageId r;
     localMessageId := localMessageId r; pingInterval := pingInterval r |}.

Definition set_fileReadTimestamps (l : gmap string (option Z))
    (r : Room) : Room :=
  {| auth := auth r; peers := peers r; departed := departed r;
     connectedTargets := connectedTargets r;
     pendingRequests := pendingRequests r;
     pendingLocalRequests := pendingLocalRequests r;
     fileReadTimestamps := l; messageId := messageId r;
     localMessageId := localMessageId r; pingInterval := pingInterval r |}.

Definition set_messageId (n : Z) (r : Room) : Room :=
  {| auth := auth r; peers := peers r; departed := departed r;
     connectedTargets := connectedTargets r;
     pendingRequests := pendingRequests r;
     pendingLocalRequests := pendingLocalRequests r;
     fileReadTimestamps := fileReadTimestamps r; messageId := n;
     localMessageId := localMessageId r; pingInterval := pingInterval r |}.

Definition set_localMessageId (n : Z) (r : Room) : Room :=
  {| auth := auth r; peers := peers r; departed := departed r;
     connectedTargets := connectedTargets r;
     pendingRequests := pendingRequests r;
     pendingLocalRequests := pendingLocalRequests r;
     fileReadTimestamps := fileReadTimestamps r; messageId := messageId r;
     localMessageId := n; pingInterval := pingInterval r |}.

Definition set_pingInterval (b : bool) (r : Room) : Room :=
  {| auth := auth r; peers := peers r; departed := departed r;
     connectedTargets := connectedTargets r;
     pendingRequests := pendingRequests r;
     pendingLocalRequests := pendingLocalRequests r;
     fileReadTimestamps := fileReadTimestamps r; messageId := messageId r;
     localMessageId := localMessageId r; pingInterval := b |}.

(** ** What the relay emits *)

(** Messages the relay serializes onto a socket. *)
Inductive Wire :=
| W_localCommand (id : Z) (method : LocalMethod) (params : LocalParams)
| W_ping
| W_forwardCDPCommand (id : Z) (method : string) (params : option CmdParams)
    (sessionId : option string)
| W_response (id : Z) (sessionId : option string) (result : CdpResult)
| W_error (id : Z) (sessionId : option string) (message : string)
| W_event (ev : CDPEvent)
| W_attachedToTarget (sessionId : string) (targetInfo : TargetInfo)
    (waitingForDebugger : bool)
| W_targetCreated (targetInfo : TargetInfo).

(** The request as [fetch] reads it, and its response. *)
Record Request := {
  req_pathname : string;
  req_passphrase : option string;
}.

Inductive Body :=
| B_text (text : string)
| B_connected (connected : bool)
| B_error (error : string) (hint : option string)
| B_webSocket (client : Socket).

Record Response := {
  status : Z;
  body : Body;
}.

(** The outcome of a computation or of a promise: a value or a thrown
    error, kept as its message. *)
Inductive Result (A : Type) :=
| Ok (a : A)
| Throw (message : string).
Arguments Ok {A} a.
Arguments Throw {A} message.

Inductive Effect :=
| Send (ws : Socket) (m : Wire)
    (* [ws.send(JSON.stringify(m))] returned *)
| Close (ws : Socket) (code : Z) (reason : string)
    (* [ws.close(code, reason)] *)
| SettleExt (id : Z) (p : PendingRequest) (o : Result (option Json))
    (* [resolve]/[reject] of the promise made by [sendToExtension] *)
| SettleLocal (id : Z) (p : PendingLocalRequest)
    (o : Result (option LocalResult))
    (* [resolve]/[reject] of the promise made by [sendToLocalClient] *)
| Return (id : Z) (o : Result (option LocalResult))
    (* the promise of [readFile]/[writeFile]/[executeBash] whose request
       was [id] settles *)
| Rejected (message : string)
    (* a call of the tool layer is rejected before a request is sent *)
| Respond (resp : Response).
    (* the response [fetch] returns *)

(** ** The monad of the handlers *)

Definition M (A : Type) : Type := Room → Result A * Room * list Effect.

Definition ret {A} (a : A) : M A := λ r, (Ok a, r, []).

Definition throw {A} (e : string) : M A := λ r, (Throw e, r, []).

Definition bind {A B} (m : M A) (k : A → M B) : M B :=
  λ r, match m r with
       | (Ok a, r1, o1) => let '(b, r2, o2) := k a r1 in (b, r2, o1 ++ o2)
       | (Throw e, r1, o1) => (Throw e, r1, o1)
       end.

Notation "'let*' x ':=' m 'in' k" := (bind m (fun x => k))
  (at level 10, x name, m at level 100, k at level 200).
Notation "m ';;' k" := (bind m (fun _ => k))
  (at level 100, k at level 200, right associativity).

(** [try { m } catch (e) { h e }] *)
Definition try_catch {A} (m : M A) (h : string → M A) : M A :=
  λ r, match m r with
       | (Ok a, r1, o1) => (Ok a, r1, o1)
       | (Throw e, r1, o1) => let '(b, r2, o2) := h e r1 in (b, r2, o1 ++ o2)
       end.

Definition gets {A} (f : Room → A) : M A := λ r, (Ok (f r), r, []).

Definition modify (f : Room → Room) : M unit := λ r, (Ok tt, f r, []).

Definition emit (e : Effect) : M unit := λ r, (Ok tt, r, [e]).

Definition when (b : bool) (m : M unit) : M unit := if b then m else ret tt.

(** [for (const x of l) body x]; a throw leaves the loop. *)
Fixpoint for_each {A} (l : list A) (body : A → M unit) : M unit :=
  match l with
  | [] => ret tt
  | x :: l' => body x ;; for_each l' body
  end.

Definition state_of {A} (x : Result A * Room * list Effect) : Room := x.1.2.
Definition result_of {A} (x : Result A * Room * list Effect) : Result A := x.1.1.
Definition effects_of {A} (x : Result A * Room * list Effect) : list Effect := x.2.

(** ** Sockets of the room ([ctx.getWebSockets], [ctx.getTags]) *)

Definition tag_of (ws : Socket) (r : Room) : option WebSocketTag :=
  peer_tag <$> List.find (λ p, Nat.eqb (peer_ws p) ws) (peers r).

(** The relay has not called [close] on the socket. *)
Definition socket_open (ws : Socket) (r : Room) : bool :=
  match List.find (λ p, Nat.eqb (peer_ws p) ws) (peers r ++ departed r) with
  | Some p => peer_open p
  | None => true
  end.

Definition is_extension (t : WebSocketTag) : bool :=
  match t with TagExtension => true | _ => false end.

Definition is_local (t : WebSocketTag) : bool :=
  match t with TagLocal _ => true | _ => false end.

Definition is_mcp (t : WebSocketTag) : bool :=
  match t with TagMcp _ => true | _ => false end.

Definition is_mcp_client (clientId : string) (t : WebSocketTag) : bool :=
  match t with TagMcp c => String.eqb c clientId | _ => false end.

Definition getExtensionWebSocket (r : Room) : option Socket :=
  head (peer_ws <$> filter (λ p, is_extension (peer_tag p) = true) (peers r)).

Definition getMcpWebSocket (clientId : string) (r : Room) : option Socket :=
  head (peer_ws <$>
          filter (λ p, is_mcp_client clientId (peer_tag p) = true) (peers r)).

Definition getMcpWebSockets (r : Room) : list Socket :=
  peer_ws <$> filter (λ p, is_mcp (peer_tag p) = true) (peers r).

Definition getLocalWebSocket (r : Room) : option Socket :=
  head (peer_ws <$> filter (λ p, is_local (peer_tag p) = true) (peers r)).

(** [ws.send(JSON.stringify(m))]: throws on a socket on which the relay has
    called [close], and returns on every other one. *)
Definition ws_send (ws : Socket) (m : Wire) : M unit :=
  λ r, if socket_open ws r
       then (Ok tt, r, [Send ws m])
       else (Throw "Can't call WebSocket send() after close().", r, []).

Definition mark_closed (ws : Socket) (p : Peer) : Peer :=
  if Nat.eqb (peer_ws p) ws
  then {| peer_ws := peer_ws p; peer_tag := peer_tag p; peer_open := false |}
  else p.

(** [ws.close(code, reason)] *)
Definition ws_close (ws : Socket) (code : Z) (reason : string) : M unit :=
  modify (λ r, set_peers (mark_closed ws <$> peers r) r) ;;
  emit (Close ws code reason).

(** [ctx.acceptWebSocket(server, [tag])]: the platform lists the new socket
    before the ones accepted earlier. *)
Definition acceptWebSocket (ws : Socket) (tag : WebSocketTag) : M unit :=
  modify (λ r, set_peers
                 ({| peer_ws := ws; peer_tag := tag; peer_open := true |} :: peers r) r).

(** ** Local client command interface *)

(** [sendToLocalClient(command, timeout = 30000)]; the value is the request
    id under which the returned promise is pending. *)
Definition sendToLocalClient (method : LocalMethod) (params : LocalParams)
    (timeout : option Z) (caller : LocalCaller) : M Z :=
  let timeout := default 30000 timeout in
  let* localWs := gets getLocalWebSocket in
  match localWs with
  | None => throw "Local client not connected"
  | Some localWs =>
      modify (λ r, set_localMessageId (localMessageId r + 1) r) ;;
      let* id := gets localMessageId in
      ws_send localWs (W_localCommand id method params) ;;
      modify (λ r, set_pendingLocalRequests
                     (JsMap.set id {| pl_timeout := timeout; pl_method := method;
                                      pl_caller := caller |}
                        (pendingLocalRequests r)) r) ;;
      ret id
  end.

Definition readFile (path : string) : M Z :=
  sendToLocalClient file_read (LocalReadParams path) None (K_readFile path).

Definition writeFile (path content : string) : M Z :=
  let* lastReadMtime := gets (λ r, mjoin (fileReadTimestamps r !! path)) in
  match lastReadMtime with
  | None =>
      throw ("Cannot write to " +:+ path +:+
             ": file has not been read yet. Read the file first to ensure you have the latest content.")
  | Some mtime =>
      sendToLocalClient file_write
        (LocalWriteParams path content (Some mtime)) None (K_writeFile path)
  end.

(** [options?.timeout ? options.timeout + 5000 : 30000] *)
Definition executeBash_deadline (timeout : option Z) : Z :=
  match timeout with
  | Some t => if t =? 0 then 30000 else t + 5000
  | None => 30000
  end.

Definition executeBash (command : string) (workdir : option string)
    (timeout : option Z) : M Z :=
  sendToLocalClient bash_execute (LocalBashParams command workdir timeout)
    (Some (executeBash_deadline timeout)) K_executeBash.

(** The local client's command timeout ([handleBashExecute] in
    [pcr-local]): [params.timeout || 30000]. *)
Definition handleBashExecute_timeout (timeout : option Z) : Z :=
  number_or timeout 30000.

(** The code after [await this.sendToLocalClient(...)] in the caller of
    request [id], run when the promise settles. *)
Definition resumeLocal (id : Z) (p : PendingLocalRequest)
    (o : Result (option LocalResult)) : M unit :=
  match o with
  | Throw e => emit (Return id (Throw e))
  | Ok result =>
      match pl_caller p with
      | K_readFile path | K_writeFile path =>
          match result with
          | None =>
              emit (Return id
                      (Throw "Cannot read properties of undefined (reading 'mtime')"))
          | Some res =>
              modify (λ r, set_fileReadTimestamps
                             (<[path := result_mtime res]> (fileReadTimestamps r)) r) ;;
              emit (Return id (Ok result))
          end
      | K_executeBash | K_direct => emit (Return id (Ok result))
      end
  end.

(** [handleLocalMessage] *)
Definition handleLocalMessage (message : LocalMessage) : M unit :=
  match message with
  | LocalResponse id result error =>
      let* pending := gets (λ r, JsMap.get id (pendingLocalRequests r)) in
      match pending with
      | Some pending =>
          modify (λ r, set_pendingLocalRequests
                         (JsMap.delete id (pendingLocalRequests r)) r) ;;
          if truthy_string error
          then emit (SettleLocal id pending (Throw (default "" error)))
          else emit (SettleLocal id pending (Ok result))
      | None => ret tt
      end
  | LocalPongMessage => ret tt
  | LocalLogMessage _ _ => ret tt
  end.

(** The timer set by [sendToLocalClient] for request [id] fires.  The timer
    is cleared when the request settles, so it fires only while the entry is
    in the table. *)
Definition localTimeout (id : Z) : M unit :=
  let* pending := gets (λ r, JsMap.get id (pendingLocalRequests r)) in
  match pending with
  | Some pending =>
      modify (λ r, set_pendingLocalRequests
                     (JsMap.delete id (pendingLocalRequests r)) r) ;;
      emit (SettleLocal id pending
              (Throw ("Local client request timeout after " +:+
                      pretty (pl_timeout pending) +:+ "ms: " +:+
                      local_method_name (pl_method pending))))
  | None => ret tt
  end.

(** [cleanupLocalState] *)
Definition cleanupLocalState : M unit :=
  modify (set_fileReadTimestamps ∅) ;;
  let* pending := gets pendingLocalRequests in
  for_each pending (λ '(id, p),
    emit (SettleLocal id p (Throw "Local client connection closed"))) ;;
  modify (set_pendingLocalRequests JsMap.empty).

(** ** Browser multiplexer, target registry and broadcaster *)

(** [sendToExtension({ method, params, sessionId, clientId, timeout = 30000 })],
    called for the command [command] that arrived on [ws]; the value is the
    request id under which the returned promise is pending. *)
Definition sendToExtension (ws : Socket) (command : CDPCommand)
    (clientId : string) (timeout : option Z) : M Z :=
  let timeout := default 30000 timeout in
  let* extensionWs := gets getExtensionWebSocket in
  match extensionWs with
  | None => throw "Extension not connected"
  | Some extensionWs =>
      modify (λ r, set_messageId (messageId r + 1) r) ;;
      let* id := gets messageId in
      ws_send extensionWs
        (W_forwardCDPCommand id (cmd_method command) (cmd_params command)
           (cmd_sessionId command)) ;;
      modify (λ r, set_pendingRequests
                     (JsMap.set id {| pr_mcpClientId := clientId;
                                      pr_timeout := timeout; pr_ws := ws;
                                      pr_command := command |}
                        (pendingRequests r)) r) ;;
      ret id
  end.

(** [broadcastToMcpClients] *)
Definition broadcastToMcpClients (event : CDPEvent) : M unit :=
  let* sockets := gets getMcpWebSockets in
  for_each sockets (λ ws, ws_send ws (W_event event)).

Definition with_targetInfo (info : TargetInfo) (t : ConnectedTarget)
    : ConnectedTarget :=
  {| ct_sessionId := ct_sessionId t; ct_targetId := ct_targetId t;
     ct_targetInfo := info |}.

(** [{ ...info, url: frame.url, title: frame.name || info.title }] *)
Definition navigated (frame : Frame) (info : TargetInfo) : TargetInfo :=
  {| ti_targetId := ti_targetId info; ti_type := ti_type info;
     ti_title := string_or (frame_name frame) (ti_title info);
     ti_url := frame_url frame;
     ti_attached := ti_attached info;
     ti_browserContextId := ti_browserContextId info |}.

(** [{ ...info, attached: true }] *)
Definition attached_true (info : TargetInfo) : TargetInfo :=
  {| ti_targetId := ti_targetId info; ti_type := ti_type info;
     ti_title := ti_title info; ti_url := ti_url info;
     ti_attached := Some true;
     ti_browserContextId := ti_browserContextId info |}.

(** The target lifecycle branch of [handleExtensionMessage], as a function
    of the registry. *)
Definition trackTargets (ev : CDPEvent)
    (targets : JsMap.t string ConnectedTarget)
    : JsMap.t string ConnectedTarget :=
  match ev with
  | Target_attachedToTarget _ (Some (sessionId, targetInfo, _)) =>
      JsMap.set sessionId
        {| ct_sessionId := sessionId; ct_targetId := ti_targetId targetInfo;
           ct_targetInfo := targetInfo |} targets
  | Target_detachedFromTarget _ (Some sessionId) =>
      JsMap.delete sessionId targets
  | Target_targetInfoChanged _ (Some targetInfo) =>
      JsMap.update_first
        (λ target, String.eqb (ct_targetId target) (ti_targetId targetInfo))
        (with_targetInfo targetInfo) targets
  | Page_frameNavigated (Some sessionId) (Some frame) =>
      if truthy_string (Some sessionId) && negb (truthy_string (frame_parentId frame))
      then match JsMap.get sessionId targets with
           | Some target =>
               JsMap.set sessionId
                 (with_targetInfo (navigated frame (ct_targetInfo target)) target)
                 targets
           | None => targets
           end
      else targets
  | _ => targets
  end.

(** [handleExtensionMessage] *)
Definition handleExtensionMessage (message : ExtensionMessage) : M unit :=
  match message with
  | ExtensionResponseMessage id result error =>
      let* pending := gets (λ r, JsMap.get id (pendingRequests r)) in
      match pending with
      | Some pending =>
          modify (λ r, set_pendingRequests
                         (JsMap.delete id (pendingRequests r)) r) ;;
          if truthy_string error
          then emit (SettleExt id pending (Throw (default "" error)))
          else emit (SettleExt id pending (Ok result))
      | None => ret tt
      end
  | ExtensionPongMessage => ret tt
  | ExtensionLogMessage _ _ => ret tt
  | ExtensionEventMessage ev =>
      modify (λ r, set_connectedTargets (trackTargets ev (connectedTargets r)) r) ;;
      broadcastToMcpClients ev
  end.

(** The timer set by [sendToExtension] for request [id] fires. *)
Definition extensionTimeout (id : Z) : M unit :=
  let* pending := gets (λ r, JsMap.get id (pendingRequests r)) in
  match pending with
  | Some pending =>
      modify (λ r, set_pendingRequests
                     (JsMap.delete id (pendingRequests r)) r) ;;
      emit (SettleExt id pending
              (Throw ("Extension request timeout after " +:+
                      pretty (pr_timeout pending) +:+ "ms: " +:+
                      cmd_method (pr_command pending))))
  | None => ret tt
  end.

(** [cleanupExtensionState] *)
Definition cleanupExtensionState : M unit :=
  modify (set_connectedTargets JsMap.empty) ;;
  let* pending := gets pendingRequests in
  for_each pending (λ '(id, p),
    emit (SettleExt id p (Throw "Extension connection closed"))) ;;
  modify (set_pendingRequests JsMap.empty).

(** ** Command router *)

(** What [await this.routeCdpCommand(...)] continues with: a value the
    router returned itself, or the pending request it forwarded. *)
Inductive Routed :=
| Answered (result : CdpResult)
| Forwarded (id : Z).

Definition find_target (targetId : string)
    (targets : JsMap.t string ConnectedTarget) : option ConnectedTarget :=
  JsMap.find_value (λ t, String.eqb (ct_targetId t) targetId) targets.

(** [routeCdpCommand] *)
Definition routeCdpCommand (ws : Socket) (command : CDPCommand)
    (clientId : string) : M Routed :=
  let method := cmd_method command in
  let params := cmd_params command in
  let sessionId := cmd_sessionId command in
  let forward := let* id := sendToExtension ws command clientId None in
                 ret (Forwarded id) in
  if String.eqb method "Browser.getVersion" then
    ret (Answered (R_version "1.3" "Chrome/Cloudflare-Relay" "1.0.0"
                     "Playwriter-Cloudflare-Relay/1.0.0" "V8"))
  else if String.eqb method "Browser.setDownloadBehavior" then
    ret (Answered R_empty)
  else if String.eqb method "Target.setAutoAttach" then
    if truthy_string sessionId then forward else ret (Answered R_empty)
  else if String.eqb method "Target.setDiscoverTargets" then
    ret (Answered R_empty)
  else if String.eqb method "Target.attachToTarget" then
    let targetId := params ≫= cp_targetId in
    if negb (truthy_string targetId)
    then throw "targetId is required for Target.attachToTarget"
    else
      let* targets := gets connectedTargets in
      match find_target (default "" targetId) targets with
      | Some target => ret (Answered (R_sessionId (ct_sessionId target)))
      | None => throw ("Target " +:+ default "" targetId +:+
                       " not found in connected targets")
      end
  else if String.eqb method "Target.getTargetInfo" then
    let targetId := params ≫= cp_targetId in
    let* targets := gets connectedTargets in
    let by_targetId :=
      if truthy_string targetId
      then find_target (default "" targetId) targets else None in
    match by_targetId with
    | Some target => ret (Answered (R_targetInfo (Some (ct_targetInfo target))))
    | None =>
        let by_sessionId :=
          if truthy_string sessionId
          then JsMap.get (default "" sessionId) targets else None in
        match by_sessionId with
        | Some target =>
            ret (Answered (R_targetInfo (Some (ct_targetInfo target))))
        | None =>
            ret (Answered (R_targetInfo
                             (ct_targetInfo <$> head (JsMap.values targets))))
        end
    end
  else if String.eqb method "Target.getTargets" then
    let* targets := gets connectedTargets in
    ret (Answered (R_targetInfos
                     ((λ t, attached_true (ct_targetInfo t)) <$> JsMap.values targets)))
  else if String.eqb method "Target.detachFromTarget" then
    let detachSessionId := params ≫= cp_sessionId in
    let* targets := gets connectedTargets in
    if truthy_string detachSessionId
       && negb (JsMap.has (default "" detachSessionId) targets)
    then ret (Answered R_empty)
    else forward
  else forward.

(** [result && result.sessionId]; a result that came from the browser peer
    has no part here, since [Target.attachToTarget] is never forwarded. *)
Definition result_sessionId (result : CdpResult) : option string :=
  match result with
  | R_sessionId s => Some s
  | _ => None
  end.

(** The part of [handleMcpMessage] between the [await] and the end of the
    [try] block: the synthesized events, then the reply. *)
Definition replyToMcp (ws : Socket) (command : CDPCommand)
    (result : CdpResult) : M unit :=
  let method := cmd_method command in
  let params := cmd_params command in
  let sessionId := cmd_sessionId command in
  let* targets := gets connectedTargets in
  when (String.eqb method "Target.setAutoAttach" && negb (truthy_string sessionId))
    (for_each (JsMap.values targets) (λ target,
       ws_send ws (W_attachedToTarget (ct_sessionId target)
                     (attached_true (ct_targetInfo target)) false))) ;;
  when (String.eqb method "Target.setDiscoverTargets"
        && bool_decide (params ≫= cp_discover = Some true))
    (for_each (JsMap.values targets) (λ target,
       ws_send ws (W_targetCreated (attached_true (ct_targetInfo target))))) ;;
  when (String.eqb method "Target.attachToTarget"
        && truthy_string (result_sessionId result))
    (match JsMap.find_value
             (λ t, bool_decide (Some (ct_targetId t) = params ≫= cp_targetId))
             targets with
     | Some target =>
         ws_send ws (W_attachedToTarget (default "" (result_sessionId result))
                       (attached_true (ct_targetInfo target)) false)
     | None => ret tt
     end) ;;
  ws_send ws (W_response (cmd_id command) sessionId result).

(** The [catch] block of [handleMcpMessage]. *)
Definition replyErrorToMcp (ws : Socket) (command : CDPCommand)
    (e : string) : M unit :=
  ws_send ws (W_error (cmd_id command) (cmd_sessionId command) e).

(** [handleMcpMessage] up to its [await]; a forwarded command continues in
    [resumeMcp]. *)
Definition handleMcpMessage (ws : Socket) (clientId : string)
    (command : CDPCommand) : M unit :=
  let* extensionWs := gets getExtensionWebSocket in
  match extensionWs with
  | None =>
      ws_send ws (W_error (cmd_id command) (cmd_sessionId command)
                    "Extension not connected")
  | Some _ =>
      try_catch
        (let* routed := routeCdpCommand ws command clientId in
         match routed with
         | Answered result => replyToMcp ws command result
         | Forwarded _ => ret tt
         end)
        (replyErrorToMcp ws command)
  end.

(** The rest of [handleMcpMessage] for the forwarded request [id], run when
    the promise of [sendToExtension] settles. *)
Definition resumeMcp (id : Z) (p : PendingRequest)
    (o : Result (option Json)) : M unit :=
  try_catch
    (match o with
     | Ok result => replyToMcp (pr_ws p) (pr_command p) (R_remote result)
     | Throw e => throw e
     end)
    (replyErrorToMcp (pr_ws p) (pr_command p)).

(** ** Keepalive *)

Definition stopPingInterval : M unit := modify (set_pingInterval false).

Definition startPingInterval : M unit :=
  stopPingInterval ;; modify (set_pingInterval true).

(** The interval callback. *)
Definition pingTick : M unit :=
  let* extensionWs := gets getExtensionWebSocket in
  match extensionWs with
  | Some ws => ws_send ws W_ping
  | None => ret tt
  end ;;
  let* localWs := gets getLocalWebSocket in
  match localWs with
  | Some ws => ws_send ws W_ping
  | None => ret tt
  end.

(** ** Admission *)

Definition respond (st : Z) (b : Body) : M Response :=
  ret {| status := st; body := b |}.

(** [handleExtensionUpgrade]; [server] is the server end of the new
    [WebSocketPair]. *)
Definition handleExtensionUpgrade (server : Socket) : M Response :=
  let* existingWs := gets getExtensionWebSocket in
  match existingWs with
  | Some _ => respond 409 (B_text "Extension already connected")
  | None =>
      acceptWebSocket server TagExtension ;;
      startPingInterval ;;
      respond 101 (B_webSocket server)
  end.

(** [handleMcpUpgrade] *)
Definition handleMcpUpgrade (server : Socket) (clientId : string)
    : M Response :=
  let* existingWs := gets (getMcpWebSocket clientId) in
  match existingWs with
  | Some _ => respond 409 (B_text "Client ID already connected")
  | None =>
      acceptWebSocket server (TagMcp clientId) ;;
      respond 101 (B_webSocket server)
  end.

(** [handleLocalUpgrade] *)
Definition handleLocalUpgrade (server : Socket) (clientId : string)
    : M Response :=
  let* existingWs := gets getLocalWebSocket in
  match existingWs with
  | Some _ => respond 409 (B_text "Local client already connected")
  | None =>
      acceptWebSocket server (TagLocal clientId) ;;
      startPingInterval ;;
      respond 101 (B_webSocket server)
  end.

(** [url.pathname.split('/')[2] || 'default'] *)
Definition path_clientId (pathname : string) : string :=
  string_or (split_slash pathname !! 2%nat) "default".

Section Auth.
(** [hashPassphrase]: the hexadecimal SHA-256 digest computed by the
    platform's [crypto.subtle.digest]. *)
Variable hashPassphrase : string → string.

(** [validatePassphrase]; [now] is [Date.now()]. *)
Definition validatePassphrase (now : Z) (passphrase : string) : M bool :=
  let* stored := gets auth in
  match stored with
  | None =>
      let hash := hashPassphrase passphrase in
      modify (set_auth (Some {| passphraseHash := hash; createdAt := now |})) ;;
      ret true
  | Some stored =>
      let hash := hashPassphrase passphrase in
      ret (String.eqb hash (passphraseHash stored))
  end.

(** [fetch] *)
Definition fetch (now : Z) (server : Socket) (request : Request)
    : M Response :=
  let pathname := req_pathname request in
  let passphrase := req_passphrase request in
  if String.eqb pathname "/" || String.eqb pathname "/health" then
    if truthy_string passphrase then
      let* isValid := validatePassphrase now (default "" passphrase) in
      if negb isValid
      then respond 403 (B_text "Invalid passphrase")
      else respond 200 (B_text "OK")
    else respond 200 (B_text "OK")
  else if String.eqb pathname "/extension/status" then
    let* extensionWs := gets getExtensionWebSocket in
    respond 200 (B_connected (bool_decide (extensionWs ≠ None)))
  else if String.eqb pathname "/local/status" then
    let* localWs := gets getLocalWebSocket in
    respond 200 (B_connected (bool_decide (localWs ≠ None)))
  else if negb (truthy_string passphrase) then
    respond 401 (B_text "Passphrase required")
  else
    let* isValid := validatePassphrase now (default "" passphrase) in
    if negb isValid then respond 403 (B_text "Invalid passphrase")
    else if String.eqb pathname "/extension" then
      handleExtensionUpgrade server
    else if String.eqb pathname "/local" || String.prefix "/local/" pathname then
      handleLocalUpgrade server (path_clientId pathname)
    else if String.eqb pathname "/mcp" || String.prefix "/mcp/" pathname then
      handleMcpUpgrade server (path_clientId pathname)
    else respond 404 (B_text "Not Found").
End Auth.

(** ** Socket events *)

(** A parsed message, as the cast that [webSocketMessage] applies to it on
    a socket of the matching tag types it.  The code picks the handler by
    the tag alone; a message given here with another type than the one of
    its socket's tag has no reading in the handler the code would call, and
    is outside the model: [webSocketMessage] leaves the room alone on it. *)
Inductive Data :=
| FromExtension (message : ExtensionMessage)
| FromLocal (message : LocalMessage)
| FromMcp (command : CDPCommand).

(** [webSocketMessage]; [data] is [None] when [JSON.parse] throws. *)
Definition webSocketMessage (ws : Socket) (data : option Data) : M unit :=
  let* tag := gets (tag_of ws) in
  match data with
  | None => ret tt
  | Some data =>
      match tag, data with
      | Some TagExtension, FromExtension message =>
          handleExtensionMessage message
      | Some (TagLocal _), FromLocal message => handleLocalMessage message
      | Some (TagMcp clientId), FromMcp command =>
          handleMcpMessage ws clientId command
      | _, _ => ret tt
      end
  end.

(** [webSocketClose] for a socket that carried [tag]. *)
Definition webSocketClose (tag : WebSocketTag) : M unit :=
  when (is_extension tag)
    (cleanupExtensionState ;;
     let* sockets := gets getMcpWebSockets in
     for_each sockets (λ mcpWs, ws_close mcpWs 1000 "Extension disconnected")) ;;
  when (is_local tag) cleanupLocalState ;;
  let* extensionWs := gets getExtensionWebSocket in
  let* localWs := gets getLocalWebSocket in
  when (bool_decide (extensionWs = None) && bool_decide (localWs = None))
    stopPingInterval.

(** [webSocketError]: the error is logged. *)
Definition webSocketError : M unit := ret tt.

(** ** Running a handler *)

(** The promise reactions queued by the settlements in [log], run in order
    once the handler has returned.  An error thrown by one reaction is an
    unhandled rejection and does not stop the others. *)
Definition reaction (e : Effect) : M unit :=
  match e with
  | SettleExt id p o => try_catch (resumeMcp id p o) (λ _, ret tt)
  | SettleLocal id p o => try_catch (resumeLocal id p o) (λ _, ret tt)
  | _ => ret tt
  end.

Definition run {A} (h : M A) (r : Room) : Room * list Effect :=
  let '(_, r1, o1) := h r in
  let '(_, r2, o2) := for_each o1 reaction r1 in
  (r2, o1 ++ o2).

(** What happens to a room while its object stays in memory.  [In_error] is
    an error on a socket that the platform drops without a close event. *)
Inductive Input :=
| In_fetch (now : Z) (server : Socket) (request : Request)
| In_message (ws : Socket) (data : option Data)
| In_close (ws : Socket)
| In_error (ws : Socket)
| In_extensionTimeout (id : Z)
| In_localTimeout (id : Z)
| In_pingTick
| In_readFile (path : string)
| In_writeFile (path content : string)
| In_executeBash (command : string) (workdir : option string)
    (timeout : option Z)
| In_sendToLocalClient (method : LocalMethod) (params : LocalParams)
    (timeout : option Z).

(** A call of the tool layer: a synchronous throw rejects its promise. *)
Definition call (m : M Z) : M unit :=
  try_catch (m ;; ret tt) (λ e, emit (Rejected e)).

(** The platform stops listing [ws]. *)
Definition remove_peer (ws : Socket) (r : Room) : Room :=
  set_departed (filter (λ p, peer_ws p = ws) (peers r) ++ departed r)
    (set_peers (filter (λ p, peer_ws p ≠ ws) (peers r)) r).

Section Step.
Variable hashPassphrase : string → string.

(** One event of the room.  The platform still lists a socket while the
    handler of its close event runs, and stops listing it afterwards; the
    interval callback runs only while the interval is set. *)
Definition step (i : Input) (r : Room) : Room * list Effect :=
  match i with
  | In_fetch now server request =>
      run (let* resp := fetch hashPassphrase now server request in
           emit (Respond resp)) r
  | In_message ws data => run (webSocketMessage ws data) r
  | In_close ws =>
      match tag_of ws r with
      | Some tag =>
          let '(r1, log) := run (webSocketClose tag) r in
          (remove_peer ws r1, log)
      | None => (r, [])
      end
  | In_error ws =>
      let '(r1, log) := run webSocketError r in
      (remove_peer ws r1, log)
  | In_extensionTimeout id => run (extensionTimeout id) r
  | In_localTimeout id => run (localTimeout id) r
  | In_pingTick => if pingInterval r then run pingTick r else (r, [])
  | In_readFile path => run (call (readFile path)) r
  | In_writeFile path content => run (call (writeFile path content)) r
  | In_executeBash command workdir timeout =>
      run (call (executeBash command workdir timeout)) r
  | In_sendToLocalClient method params timeout =>
      run (call (sendToLocalClient method params timeout K_direct)) r
  end.

(** The room and the log after a sequence of events. *)
Fixpoint steps (inputs : list Input) (r : Room) : Room * list Effect :=
  match inputs with
  | [] => (r, [])
  | i :: inputs' =>
      let '(r1, o1) := step i r in
      let '(r2, o2) := steps inputs' r1 in
      (r2, o1 ++ o2)
  end.
End Step.

(** The room after the platform has discarded the object (hibernation or
    eviction) and constructed it again: the storage and the accepted
    sockets persist, the fields of the class are initialised anew. *)
Definition wake (r : Room) : Room :=
  set_departed (departed r) (set_peers (peers r) (set_auth (auth r) new_room)).

(** ** Properties of computations *)

(** [m] relates the room it starts in to the room it ends in and to what it
    logs by [R], whether it returns or throws. *)
Definition respects (R : Room → Room → list Effect → Prop) {A} (m : M A)
    : Prop :=
  ∀ r, R r (state_of (m r)) (effects_of (m r)).

(** A relation on steps that is closed under doing nothing and under
    sequencing. *)
Record Compositional (R : Room → Room → list Effect → Prop) : Prop := {
  comp_refl : ∀ r, R r r [];
  comp_trans : ∀ r1 r2 r3 o1 o2,
    R r1 r2 o1 → R r2 r3 o2 → R r1 r3 (o1 ++ o2);
}.

(** ** The local client ([pcr-local], [index.ts])

    The client serves the relay's file commands on the machine it runs on.
    Its file system is a map from resolved paths to files; [now] is the
    time a write stamps on the file.  Of the errors of [fs] only [ENOENT]
    (no file at the path) is modelled, directories are not, and paths are
    taken as [path.resolve] returns them. *)

Record File := {
  file_content : string;
  file_mtimeMs : Z;
}.

Definition enoent (syscall path : string) : string :=
  "ENOENT: no such file or directory, " +:+ syscall +:+ " '" +:+ path +:+ "'".

(** [handleFileRead] *)
Definition handleFileRead (path : string) (disk : gmap string File) : Result LocalResult :=
  match disk !! path with
  | Some f => Ok (LocalReadResult (file_content f) (file_mtimeMs f))
  | None => Throw (enoent "stat" path)
  end.

(** [handleFileWrite]; the result comes with the file system it leaves. *)
Definition handleFileWrite (now : Z) (path content : string)
    (expectedMtime : option Z) (disk : gmap string File) : Result LocalResult * gmap string File :=
  let modified :=
    match expectedMtime with
    | Some expected =>
        match disk !! path with
        | Some f =>
            if Z.abs (file_mtimeMs f - expected) >? 1
            then Some ("File has been modified since last read. Expected mtime " +:+
                       pretty expected +:+ ", got " +:+ pretty (file_mtimeMs f) +:+
                       ". Please read the file again to get the latest content.")
            else None
        | None => None
        end
    | None => None
    end in
  match modified with
  | Some e => (Throw e, disk)
  | None =>
      (Ok (LocalWriteResult now),
       <[path := {| file_content := content; file_mtimeMs := now |}]> disk)
  end.

(** [handleCommand] for the two file methods with the parameters the relay
    sends with them; [None] for [bash.execute], which runs a process. *)
Definition handleCommand (now : Z) (id : Z) (method : LocalMethod)
    (params : LocalParams) (disk : gmap string File) : option (LocalMessage * gmap string File) :=
  let response (o : Result LocalResult) : LocalMessage :=
    match o with
    | Ok result => LocalResponse id (Some result) None
    | Throw e => LocalResponse id None (Some e)
    end in
  match method, params with
  | file_read, LocalReadParams path =>
      Some (response (handleFileRead path disk), disk)
  | file_write, LocalWriteParams path content expectedMtime =>
      let '(o, disk') := handleFileWrite now path content expectedMtime disk in
      Some (response o, disk')
  | _, _ => None
  end.

(** [handleMessage] for what the relay sends to a local client; [open] is
    whether the client's socket is open when it answers ([send] drops the
    message otherwise). *)
Definition handleMessage (now : Z) (open : bool) (message : Wire) (disk : gmap string File)
    : option (option LocalMessage * gmap string File) :=
  let send (m : LocalMessage) := if open then Some m else None in
  match message with
  | W_ping => Some (send LocalPongMessage, disk)
  | W_localCommand id method params =>
      match handleCommand now id method params disk with
      | Some (response, disk') => Some (send response, disk')
      | None => None
      end
  | _ => None
  end.

(** ** The worker in front of the rooms

    The worker's [fetch] (the entry module, [index.ts] of the relay
    package) picks the room from the path and hands the request to that
    room's object with the path rewritten to the sub-path.  It is modelled
    for requests that [proxyToSandbox] does not claim. *)

Record WorkerRequest := {
  wr_pathname : string;
  wr_authorization : option string;
  wr_passphrase : option string;
}.

Fixpoint drop_string (n : nat) (s : string) : string :=
  match n, s with
  | O, _ => s
  | S n', String _ s' => drop_string n' s'
  | S _, EmptyString => EmptyString
  end.

(** [parts.join('/')] *)
Fixpoint join_slash (parts : list string) : string :=
  match parts with
  | [] => ""
  | [x] => x
  | x :: rest => x +:+ "/" +:+ join_slash rest
  end.

(** [getPassphraseFromRequest] *)
Definition getPassphraseFromRequest (request : WorkerRequest) : option string :=
  match wr_authorization request with
  | Some authHeader =>
      if String.prefix "Bearer " authHeader
      then Some (drop_string 7 authHeader)
      else wr_passphrase request
  | None => wr_passphrase request
  end.

Inductive Routing :=
| Routed_response (resp : Response)
    (* the worker answers itself *)
| Routed_mcpServer (roomId : string) (passphrase : string)
    (* the MCP endpoint, once the room accepts [passphrase] *)
| Routed_room (roomId : string) (request : Request).
    (* the request is forwarded to the room's object *)

Definition invalid_path : Response :=
  {| status := 400;
     body := B_error "Invalid path"
       (Some "Use /room/:roomId/extension, /room/:roomId/local, /room/:roomId/mcp/:clientId, or /room/:roomId/mcp-server") |}.

(** The room id and the sub-path the worker reads off a path
    [/room/:roomId/...]:
    [pathParts = pathname.split('/').filter(Boolean)], [roomId = pathParts[1]],
    [subPath = '/' + pathParts.slice(2).join('/')]; [None] where the worker
    answers "Invalid path". *)
Definition room_subpath (pathname : string) : option (string * string) :=
  let pathParts := filter (λ x, x ≠ "") (split_slash pathname) in
  match pathParts with
  | first :: roomId :: rest =>
      if negb (String.eqb first "room") then None
      else Some (roomId, "/" +:+ join_slash rest)
  | _ => None
  end.

Definition worker_fetch (request : WorkerRequest) : Routing :=
  let pathname := wr_pathname request in
  if String.eqb pathname "/" || String.eqb pathname "/health" then
    Routed_response {| status := 200; body := B_text "Rebrow Cloudflare Relay OK" |}
  else
    match room_subpath pathname with
    | None => Routed_response invalid_path
    | Some (roomId, subPath) =>
        if String.eqb subPath "/mcp-server" || String.prefix "/mcp-server/" subPath
        then
          let passphrase := getPassphraseFromRequest request in
          if negb (truthy_string passphrase) then
            Routed_response
              {| status := 401;
                 body := B_error "Passphrase required"
                   (Some "Use Authorization: Bearer <passphrase> header or ?passphrase=xxx query param") |}
          else Routed_mcpServer roomId (default "" passphrase)
        else
          Routed_room roomId
            {| req_pathname := subPath; req_passphrase := wr_passphrase request |}
    end.

(** The status with which a request to the worker is answered when its room
    is [r], where the answer is the worker's or the room's; [None] where the
    MCP handler takes over. *)
Definition endpoint_status (hash : string → string) (now : Z)
    (server : Socket) (request : WorkerRequest) (r : Room) : option Z :=
  match worker_fetch request with
  | Routed_response resp => Some (status resp)
  | Routed_mcpServer _ passphrase =>
      match result_of (fetch hash now server
                         {| req_pathname := "/"; req_passphrase := Some passphrase |} r) with
      | Ok resp => if status resp =? 403 then Some 403 else None
      | Throw _ => None
      end
  | Routed_room _ request' =>
      match result_of (fetch hash now server request' r) with
      | Ok resp => Some (status resp)
      | Throw _ => None
      end
  end.

(** ** The target registry of the specification

    Written after the specification (sections 3, 4.4 and 8), not after the
    code: the registry is a finite map from session ids to targets, and each
    browser event acts on it as the specification says.  Identifiers are
    non-empty strings: an event carries a session id, and a frame has a
    parent, when the field holds a non-empty string.  Where the
    specification says "the target whose targetId matches" it names one
    target with that id; the relation allows any one of them. *)

Definition present (s : option string) : Prop := ∃ x, s = Some x ∧ x ≠ "".

(** The frame's name when non-empty, otherwise the existing title. *)
Definition title_after (frame : Frame) (title : string) : string :=
  match frame_name frame with
  | Some name => if decide (name = "") then title else name
  | None => title
  end.

Definition spec_navigated (frame : Frame) (t : ConnectedTarget) : ConnectedTarget :=
  {| ct_sessionId := ct_sessionId t; ct_targetId := ct_targetId t;
     ct_targetInfo :=
       {| ti_targetId := ti_targetId (ct_targetInfo t);
          ti_type := ti_type (ct_targetInfo t);
          ti_title := title_after frame (ti_title (ct_targetInfo t));
          ti_url := frame_url frame;
          ti_attached := ti_attached (ct_targetInfo t);
          ti_browserContextId := ti_browserContextId (ct_targetInfo t) |} |}.

Inductive registry_step :
    gmap string ConnectedTarget → CDPEvent → gmap string ConnectedTarget → Prop :=
| reg_attached reg envelope sessionId info waiting :
    (* insert {sessionId, targetId, info} under the session id *)
    registry_step reg
      (Target_attachedToTarget envelope (Some (sessionId, info, waiting)))
      (<[sessionId := {| ct_sessionId := sessionId;
                         ct_targetId := ti_targetId info;
                         ct_targetInfo := info |}]> reg)
| reg_detached reg envelope sessionId :
    (* remove by session id *)
    registry_step reg (Target_detachedFromTarget envelope (Some sessionId))
      (delete sessionId reg)
| reg_infoChanged reg envelope info sessionId t :
    (* the target whose targetId matches gets the new info *)
    reg !! sessionId = Some t →
    ct_targetId t = ti_targetId info →
    registry_step reg (Target_targetInfoChanged envelope (Some info))
      (<[sessionId :=
           {| ct_sessionId := ct_sessionId t; ct_targetId := ct_targetId t;
              ct_targetInfo := info |}]> reg)
| reg_infoChanged_unknown reg envelope info :
    (∀ sessionId t, reg !! sessionId = Some t → ct_targetId t ≠ ti_targetId info) →
    registry_step reg (Target_targetInfoChanged envelope (Some info)) reg
| reg_navigated reg sessionId frame t :
    (* a top frame of a known session: new url, title from the name *)
    sessionId ≠ "" →
    ¬ present (frame_parentId frame) →
    reg !! sessionId = Some t →
    registry_step reg (Page_frameNavigated (Some sessionId) (Some frame))
      (<[sessionId := spec_navigated frame t]> reg)
| reg_navigated_ignored reg envelope frame :
    ¬ present envelope ∨ present (frame_parentId frame)
    ∨ (∀ sessionId, envelope = Some sessionId → reg !! sessionId = None) →
    registry_step reg (Page_frameNavigated envelope (Some frame)) reg
| reg_without_params reg ev :
    (* an event without params, or of another method, leaves the registry *)
    match ev with
    | Target_attachedToTarget _ None | Target_detachedFromTarget _ None
    | Target_targetInfoChanged _ None | Page_frameNavigated _ None
    | OtherEvent _ _ _ => True
    | _ => False
    end →
    registry_step reg ev reg.

(** The registry after a sequence of events. *)
Inductive registry_trace :
    gmap string ConnectedTarget → list CDPEvent → gmap string ConnectedTarget → Prop :=
| trace_nil reg : registry_trace reg [] reg
| trace_cons reg1 reg2 reg3 ev evs :
    registry_step reg1 ev reg2 → registry_trace reg2 evs reg3 →
    registry_trace reg1 (ev :: evs) reg3.

(** The event [ev] arrives from the browser peer on socket [ws]. *)
Definition event_from (ws : Socket) (ev : CDPEvent) : Input :=
  In_message ws (Some (FromExtension (ExtensionEventMessage ev))).

(** The registry's keys are distinct, as in a [Map]. *)
Definition keeps_registry_keys (r r' : Room) (_ : list Effect) : Prop :=
  NoDup (JsMap.keys (connectedTargets r)) →
  NoDup (JsMap.keys (connectedTargets r')).

(** ** Reading the log *)

(** The sockets of [l], in order, up to the first one that is not open. *)
Fixpoint open_prefix (r : Room) (l : list Socket) : list Socket :=
  match l with
  | [] => []
  | ws :: l' => if socket_open ws r then ws :: open_prefix r l' else []
  end.

(** The correlation ids of the commands sent to the browser peer, in the
    order of the log. *)
Fixpoint ext_dispatched (log : list Effect) : list Z :=
  match log with
  | [] => []
  | Send _ (W_forwardCDPCommand id _ _ _) :: log' => id :: ext_dispatched log'
  | _ :: log' => ext_dispatched log'
  end.

(** The correlation ids of the commands sent to the local peer. *)
Fixpoint local_dispatched (log : list Effect) : list Z :=
  match log with
  | [] => []
  | Send _ (W_localCommand id _ _) :: log' => id :: local_dispatched log'
  | _ :: log' => local_dispatched log'
  end.

(** Both pending tables hold pairwise distinct ids, none above the counter
    of its multiplexer. *)
Definition pending_wf (r : Room) : Prop :=
  NoDup (JsMap.keys (pendingRequests r))
  ∧ Forall (λ id, id ≤ messageId r) (JsMap.keys (pendingRequests r))
  ∧ NoDup (JsMap.keys (pendingLocalRequests r))
  ∧ Forall (λ id, id ≤ localMessageId r) (JsMap.keys (pendingLocalRequests r)).

(** What a computation may do to the two multiplexers: the counters do not
    go down, the ids it dispatches are increasing and lie above the old and
    up to the new counter, and well-formed pending tables stay so. *)
Definition multiplexer_step (r r' : Room) (log : list Effect) : Prop :=
  messageId r ≤ messageId r'
  ∧ localMessageId r ≤ localMessageId r'
  ∧ StronglySorted Z.lt (ext_dispatched log)
  ∧ Forall (λ id, messageId r < id ≤ messageId r') (ext_dispatched log)
  ∧ StronglySorted Z.lt (local_dispatched log)
  ∧ Forall (λ id, localMessageId r < id ≤ localMessageId r') (local_dispatched log)
  ∧ (pending_wf r → pending_wf r').

(** The stored passphrase record, once set, is kept. *)
Definition keeps_auth (r r' : Room) (_ : list Effect) : Prop :=
  ∀ a, auth r = Some a → auth r' = Some a.

(** The room is left as it was. *)
Definition same_room (r r' : Room) (_ : list Effect) : Prop := r' = r.

(** The peers after [close] has been called on each socket of [l]. *)
Definition close_all (l : list Socket) (ps : list Peer) : list Peer :=
  foldl (λ ps ws, mark_closed ws <$> ps) ps l.

Definition is_local_settlement (e : Effect) : bool :=
  match e with SettleLocal _ _ _ => true | _ => false end.

(** ** Sample data *)

(** A stand-in for the digest, for evaluating the model on examples. *)
Definition toy_hash (s : string) : string := "sha256:" +:+ s.

(** A room in which only a local client is connected (scenario S3). *)
Definition room_with_local : Room :=
  set_peers [{| peer_ws := 1%nat; peer_tag := TagLocal "default"; peer_open := true |}]
    new_room.

(** The room of scenario S4 once [read_file] of [/tmp/x] is in flight. *)
Definition room_reading : Room :=
  (step toy_hash (In_readFile "/tmp/x") room_with_local).1.

(** The room of scenario S4 once the read has returned mtime 100. *)
Definition room_read : Room :=
  (step toy_hash
     (In_message 1%nat
        (Some (FromLocal (LocalResponse 1 (Some (LocalReadResult "old" 100)) None))))
     room_reading).1.

(** A browser peer (socket 1) and two agents [a] (socket 2) and [b]
    (socket 3), all admitted with passphrase ["p"]. *)
Definition room_two_agents : Room :=
  (steps toy_hash
     [In_fetch 0 1%nat {| req_pathname := "/extension"; req_passphrase := Some "p" |};
      In_fetch 1 2%nat {| req_pathname := "/mcp/a"; req_passphrase := Some "p" |};
      In_fetch 2 3%nat {| req_pathname := "/mcp/b"; req_passphrase := Some "p" |}]
     new_room).1.

(** The browser peer of [room_two_agents] went away, which made the relay
    close both agents; before their close events arrive the browser peer is
    back (socket 4) and a new agent [c] (socket 5) has joined. *)
Definition room_after_reconnect : Room :=
  (steps toy_hash
     [In_close 1%nat;
      In_fetch 3 4%nat {| req_pathname := "/extension"; req_passphrase := Some "p" |};
      In_fetch 4 5%nat {| req_pathname := "/mcp/c"; req_passphrase := Some "p" |}]
     room_two_agents).1.


(** The events of scenario S2. *)
Definition page (targetId url : string) : TargetInfo :=
  {| ti_targetId := targetId; ti_type := "page"; ti_title := "untitled";
     ti_url := url; ti_attached := None; ti_browserContextId := None |}.

Definition history_browser_connects : list Input :=
  [In_fetch 0 1%nat {| req_pathname := "/extension"; req_passphrase := Some "p" |}].

Definition events_S2 : list CDPEvent :=
  [Target_attachedToTarget None (Some ("s1", page "t1" "/a", false));
   Target_attachedToTarget None (Some ("s2", page "t2" "/b", false));
   Page_frameNavigated (Some "s1")
     (Some {| frame_url := "/a2"; frame_name := None; frame_parentId := None |})].

(** Scenario S6: in [room_two_agents] the browser peer has attached a page
    and agent [a] awaits the reply to a forwarded command. *)
Definition command_of_a : CDPCommand :=
  {| cmd_id := 10; cmd_method := "Page.enable"; cmd_params := None;
     cmd_sessionId := Some "s1" |}.

Definition room_busy : Room :=
  (steps toy_hash
     [event_from 1%nat
        (Target_attachedToTarget None (Some ("s1", page "t1" "/a", false)));
      In_message 2%nat (Some (FromMcp command_of_a))]
     room_two_agents).1.

(** A run of [room_two_agents] in which the browser peer goes away and
    comes back between forwarded commands. *)
Definition forwarded (id : Z) (method : string) : CDPCommand :=
  {| cmd_id := id; cmd_method := method; cmd_params := None;
     cmd_sessionId := Some "s1" |}.

Definition run_with_reconnect : list Input :=
  [In_message 2%nat (Some (FromMcp (forwarded 10 "Page.enable")));
   In_message 1%nat
     (Some (FromExtension (ExtensionResponseMessage 1 (Some "{}") None)));
   In_message 3%nat (Some (FromMcp (forwarded 11 "Runtime.evaluate")));
   In_close 1%nat;
   In_fetch 3 4%nat {| req_pathname := "/extension"; req_passphrase := Some "p" |};
   In_fetch 4 5%nat {| req_pathname := "/mcp/c"; req_passphrase := Some "p" |};
   In_message 5%nat (Some (FromMcp (forwarded 12 "Page.navigate")));
   In_extensionTimeout 3].

(** ** Further relations on steps *)

(** The methods [routeCdpCommand] always answers itself. *)
Definition answered_locally : list string :=
  ["Browser.getVersion"; "Browser.setDownloadBehavior";
   "Target.setDiscoverTargets"; "Target.attachToTarget";
   "Target.getTargetInfo"; "Target.getTargets"].

(** The methods [routeCdpCommand] has a case for. *)
Definition router_methods : list string :=
  answered_locally ++ ["Target.setAutoAttach"; "Target.detachFromTarget"].

(** Nothing is forwarded to the browser peer and its multiplexer and the
    target registry are left as they were. *)
Definition browser_untouched (r r' : Room) (log : list Effect) : Prop :=
  messageId r' = messageId r
  ∧ pendingRequests r' = pendingRequests r
  ∧ connectedTargets r' = connectedTargets r
  ∧ ext_dispatched log = [].

Definition is_settlement (e : Effect) : bool :=
  match e with SettleExt _ _ _ | SettleLocal _ _ _ => true | _ => false end.

(** The messages that arrive on [ws] and that the handler of its tag
    returns on without acting: text that is not JSON, on any socket; on the
    browser peer's socket and on the local client's a pong, a log line, and
    a response whose id is not pending in the multiplexer of that peer. *)
Inductive consumed_silently (ws : Socket) (r : Room) : option Data → Prop :=
| silent_not_json : consumed_silently ws r None
| silent_extension_pong :
    tag_of ws r = Some TagExtension →
    consumed_silently ws r (Some (FromExtension ExtensionPongMessage))
| silent_extension_log level args :
    tag_of ws r = Some TagExtension →
    consumed_silently ws r (Some (FromExtension (ExtensionLogMessage level args)))
| silent_extension_response id result error :
    tag_of ws r = Some TagExtension →
    JsMap.get id (pendingRequests r) = None →
    consumed_silently ws r
      (Some (FromExtension (ExtensionResponseMessage id result error)))
| silent_local_pong clientId :
    tag_of ws r = Some (TagLocal clientId) →
    consumed_silently ws r (Some (FromLocal LocalPongMessage))
| silent_local_log clientId level args :
    tag_of ws r = Some (TagLocal clientId) →
    consumed_silently ws r (Some (FromLocal (LocalLogMessage level args)))
| silent_local_response clientId id result error :
    tag_of ws r = Some (TagLocal clientId) →
    JsMap.get id (pendingLocalRequests r) = None →
    consumed_silently ws r (Some (FromLocal (LocalResponse id result error))).

(** While [ws] is not open, nothing changes and nothing is logged. *)
Definition silent_while_closed (ws : Socket) (r r' : Room)
    (log : list Effect) : Prop :=
  socket_open ws r = false → r' = r ∧ log = [].

(** A room that agent [a] (socket 2) joined before any browser peer. *)
Definition room_agent_alone : Room :=
  (step toy_hash
     (In_fetch 0 2%nat {| req_pathname := "/mcp/a"; req_passphrase := Some "p" |})
     new_room).1.

(** In [room_after_reconnect] agent [a], whose socket the relay has closed,
    still gets a command through, which is forwarded to the new browser peer
    under id 1. *)
Definition room_closed_agent_waits : Room :=
  (step toy_hash (In_message 2%nat (Some (FromMcp command_of_a)))
     room_after_reconnect).1.

(** Commands of agent [a] that the router answers. *)
Definition discover_command : CDPCommand :=
  {| cmd_id := 7; cmd_method := "Target.setDiscoverTargets";
     cmd_params := Some {| cp_targetId := None; cp_sessionId := None;
                           cp_discover := Some true; cp_raw := "{discover:true}" |};
     cmd_sessionId := None |}.

Definition target_command (id : Z) (method : string) (targetId : option string)
    (sessionId : option string) : CDPCommand :=
  {| cmd_id := id; cmd_method := method;
     cmd_params := Some {| cp_targetId := targetId; cp_sessionId := None;
                           cp_discover := None; cp_raw := "{}" |};
     cmd_sessionId := sessionId |}.

Definition detach_command (id : Z) (detachSessionId : string) : CDPCommand :=
  {| cmd_id := id; cmd_method := "Target.detachFromTarget";
     cmd_params := Some {| cp_targetId := None; cp_sessionId := Some detachSessionId;
                           cp_discover := None; cp_raw := "{}" |};
     cmd_sessionId := None |}.

(** ** Roles of the peers *)

(** The number of listed sockets whose tag satisfies [p]. *)
Definition count_peers (p : WebSocketTag → bool) (r : Room) : nat :=
  length (filter (λ q, p (peer_tag q) = true) (peers r)).

(** At most one browser peer, one local client and one agent per client id
    are listed. *)
Definition roles_unique (r : Room) : Prop :=
  (count_peers is_extension r ≤ 1)%nat
  ∧ (count_peers is_local r ≤ 1)%nat
  ∧ ∀ clientId, (count_peers (is_mcp_client clientId) r ≤ 1)%nat.

Definition keeps_roles_unique (r r' : Room) (log : list Effect) : Prop :=
  roles_unique r → roles_unique r'.

(** ** Keepalive *)

(** The interval is set whenever a browser peer or a local client is
    listed. *)
Definition keepalive_ok (r : Room) : Prop :=
  getExtensionWebSocket r ≠ None ∨ getLocalWebSocket r ≠ None →
  pingInterval r = true.

(** The stop test at the end of [webSocketClose]: no browser peer and no
    local client is listed. *)
Definition no_backend (r : Room) : bool :=
  bool_decide (getExtensionWebSocket r = None)
  && bool_decide (getLocalWebSocket r = None).

(** A local client alone in its room. *)
Definition room_local_alone : Room :=
  (step toy_hash
     (In_fetch 0 1%nat {| req_pathname := "/local/dev"; req_passphrase := Some "p" |})
     new_room).1.

Definition keeps_keepalive (r r' : Room) (log : list Effect) : Prop :=
  keepalive_ok r → keepalive_ok r'.

(** The back-end peers and the interval are what they were. *)
Definition same_backends (r r' : Room) (log : list Effect) : Prop :=
  getExtensionWebSocket r' = getExtensionWebSocket r
  ∧ getLocalWebSocket r' = getLocalWebSocket r
  ∧ pingInterval r' = pingInterval r.

(** A path segment: a string without a slash. *)
Fixpoint slash_free (s : string) : bool :=
  match s with
  | EmptyString => true
  | String c s' => negb (Ascii.eqb c "/"%char) && slash_free s'
  end.

Definition passphrase_required : Response :=
  {| status := 401;
     body := B_error "Passphrase required"
       (Some "Use Authorization: Bearer <passphrase> header or ?passphrase=xxx query param") |}.

(** ** The relay and the local client together

    One event of the room, followed, when the event made the relay send a
    command to the local client, by the client serving the command on its
    disk at time [now] and by the relay handling the client's answer. *)
Definition served (hash : string → string) (now : Z) (i : Input)
    (r : Room) (disk : gmap string File) : Room * gmap string File * list Effect :=
  let '(r1, log1) := step hash i r in
  match log1 with
  | [Send ws message] =>
      match handleMessage now (socket_open ws r1) message disk with
      | Some (Some answer, disk') =>
          let '(r2, log2) :=
            step hash (In_message ws (Some (FromLocal answer))) r1 in
          (r2, disk', log1 ++ log2)
      | Some (None, disk') => (r1, disk', log1)
      | None => (r1, disk, log1)
      end
  | _ => (r1, disk, log1)
  end.

(** What the caller of a tool gets back: the last settlement in the log. *)
Definition returned (log : list Effect) : option (Result (option LocalResult)) :=
  match last log with
  | Some (Return _ o) => Some o
  | Some (Rejected e) => Some (Throw e)
  | _ => None
  end.

(** The disk of the local client of [room_read] after someone else has
    edited [/tmp/x], and a disk on which the file is as it was read. *)
Definition disk_edited : gmap string File :=
  {[ "/tmp/x" := {| file_content := "theirs"; file_mtimeMs := 250 |} ]}.

Definition disk_as_read : gmap string File :=
  {[ "/tmp/x" := {| file_content := "old"; file_mtimeMs := 100 |} ]}.

(** ** Who can change what *)

(** The input is a message from the browser peer or the close event of its
    socket. *)
Definition from_browser (i : Input) (r : Room) : bool :=
  match i with
  | In_message ws (Some (FromExtension _)) | In_close ws =>
      match tag_of ws r with Some TagExtension => true | _ => false end
  | _ => false
  end.

(** The input is a message from the local client or the close event of its
    socket. *)
Definition from_local_client (i : Input) (r : Room) : bool :=
  match i with
  | In_message ws (Some (FromLocal _)) | In_close ws =>
      match tag_of ws r with Some (TagLocal _) => true | _ => false end
  | _ => false
  end.

Definition same_targets (r r' : Room) (log : list Effect) : Prop :=
  connectedTargets r' = connectedTargets r.

(** The ledger is kept and no local request is settled. *)
Definition same_ledger (r r' : Room) (log : list Effect) : Prop :=
  fileReadTimestamps r' = fileReadTimestamps r
  ∧ Forall (λ e, is_local_settlement e = false) log.

(** ** Rooms without a back end *)

(** The listed sockets with their tags. *)
Definition roster (r : Room) : list (Socket * WebSocketTag) :=
  (λ p, (peer_ws p, peer_tag p)) <$> peers r.

Definition same_roster (r r' : Room) (log : list Effect) : Prop :=
  roster r' = roster r.

(** The platform hands every admission a socket that is not listed. *)
Fixpoint fresh_sockets (hash : string → string) (inputs : list Input)
    (r : Room) : Prop :=
  match inputs with
  | [] => True
  | i :: inputs' =>
      match i with
      | In_fetch _ server _ => tag_of server r = None
      | _ => True
      end
      ∧ fresh_sockets hash inputs' (step hash i r).1
  end.

(** The input is [webSocketError] on the socket of the browser peer or of
    the local client. *)
Definition error_on_backend (i : Input) (r : Room) : bool :=
  match i with
  | In_error ws =>
      match tag_of ws r with
      | Some TagExtension | Some (TagLocal _) => true
      | _ => false
      end
  | _ => false
  end.

(** The socket of a browser peer or of a local client leaves the list
    through a close event only. *)
Fixpoint backends_leave_by_close (hash : string → string) (inputs : list Input)
    (r : Room) : Prop :=
  match inputs with
  | [] => True
  | i :: inputs' =>
      error_on_backend i r = false
      ∧ backends_leave_by_close hash inputs' (step hash i r).1
  end.

(** Without a browser peer there are no targets, and without a local
    client no read is on record. *)
Definition torn_down (r : Room) : Prop :=
  (getExtensionWebSocket r = None → connectedTargets r = JsMap.empty)
  ∧ (getLocalWebSocket r = None → fileReadTimestamps r = ∅).

(** A browser peer connects, reports a page and goes away. *)
Definition run_browser_leaves : list Input :=
  [In_fetch 0 1%nat {| req_pathname := "/extension"; req_passphrase := Some "p" |};
   event_from 1%nat
     (Target_attachedToTarget None (Some ("s1", page "t1" "/a", false)));
   In_close 1%nat].

(** ** The order of the agents *)





(** ** A room that outlives its object *)

(** A browser peer (socket 1) and agent [a] (socket 2) connect; a command of
    [a] is forwarded under id 1 and answered; the browser peer goes away and
    the close event of [a], whose socket the relay closed, follows; agent
    [c] (socket 3) joins.  Afterwards [c] is connected, nothing is pending
    and no timer is set, so the platform may discard the object. *)
Definition history_before_sleep : list Input :=
  [In_fetch 0 1%nat {| req_pathname := "/extension"; req_passphrase := Some "p" |};
   In_fetch 1 2%nat {| req_pathname := "/mcp/a"; req_passphrase := Some "p" |};
   In_message 2%nat (Some (FromMcp (forwarded 10 "Page.enable")));
   In_message 1%nat
     (Some (FromExtension (ExtensionResponseMessage 1 (Some "{}") None)));
   In_close 1%nat;
   In_close 2%nat;
   In_fetch 2 3%nat {| req_pathname := "/mcp/c"; req_passphrase := Some "p" |}].

(** The browser peer comes back (socket 4) and [c] sends a command. *)
Definition history_after_wake : list Input :=
  [In_fetch 3 4%nat {| req_pathname := "/extension"; req_passphrase := Some "p" |};
   In_message 3%nat (Some (FromMcp (forwarded 11 "Runtime.evaluate")))].

(** * Proofs *)

(** ** The monad *)

Section RespectsLemmas.
Variable R : Room → Room → list Effect → Prop.
Hypothesis HR : Compositional R.

Lemma respects_ret {A} (a : A) : respects R (ret a).
Proof. intros r. apply (comp_refl R HR). Qed.

Lemma respects_throw {A} (e : string) : respects R (@throw A e).
Proof. intros r. apply (comp_refl R HR). Qed.

Lemma respects_gets {A} (f : Room → A) : respects R (gets f).
Proof. intros r. apply (comp_refl R HR). Qed.

Lemma respects_bind {A B} (m : M A) (k : A → M B) :
  respects R m → (∀ a, respects R (k a)) → respects R (bind m k).
Proof.
  intros Hm Hk r. specialize (Hm r). unfold bind, state_of, effects_of in *.
  destruct (m r) as [[[a|e] r1] o1]; simpl in *; [|done].
  specialize (Hk a r1). unfold state_of, effects_of in Hk.
  destruct (k a r1) as [[b r2] o2]; simpl in *.
  by apply (comp_trans R HR) with r1.
Qed.

Lemma respects_try_catch {A} (m : M A) (h : string → M A) :
  respects R m → (∀ e, respects R (h e)) → respects R (try_catch m h).
Proof.
  intros Hm Hh r. specialize (Hm r).
  unfold try_catch, state_of, effects_of in *.
  destruct (m r) as [[[a|e] r1] o1]; simpl in *; [done|].
  specialize (Hh e r1). unfold state_of, effects_of in Hh.
  destruct (h e r1) as [[b r2] o2]; simpl in *.
  by apply (comp_trans R HR) with r1.
Qed.

Lemma respects_when (b : bool) (m : M unit) :
  respects R m → respects R (when b m).
Proof. destruct b; simpl; [done|]. intros _. apply respects_ret. Qed.

Lemma respects_for_each {A} (l : list A) (body : A → M unit) :
  (∀ x, respects R (body x)) → respects R (for_each l body).
Proof.
  intros Hbody. induction l as [|x l IH]; simpl.
  - apply respects_ret.
  - apply respects_bind; [apply Hbody | intros _; apply IH].
Qed.

Lemma respects_modify (f : Room → Room) :
  (∀ r, R r (f r) []) → respects R (modify f).
Proof. intros Hf r. apply Hf. Qed.

Lemma respects_emit (e : Effect) :
  (∀ r, R r r [e]) → respects R (emit e).
Proof. intros He r. apply He. Qed.

Lemma respects_ws_send (ws : Socket) (m : Wire) :
  (∀ r, R r r [Send ws m]) → respects R (ws_send ws m).
Proof.
  intros Hs r. unfold ws_send, state_of, effects_of.
  destruct (socket_open ws r); simpl; [apply Hs | apply (comp_refl R HR)].
Qed.

Lemma respects_run {A} (m : M A) (r : Room) :
  respects R m → (∀ e, respects R (reaction e)) →
  R r (run m r).1 (run m r).2.
Proof.
  intros Hm Hre. unfold run. specialize (Hm r).
  unfold state_of, effects_of in Hm.
  destruct (m r) as [[a r1] o1]; simpl in *.
  pose proof (respects_for_each o1 reaction Hre r1) as H2.
  unfold state_of, effects_of in H2.
  destruct (for_each o1 reaction r1) as [[b r2] o2]; simpl in *.
  by apply (comp_trans R HR) with r1.
Qed.
End RespectsLemmas.

(** Decomposes a goal [respects R m] along the structure of [m]; [leaf]
    proves what [R] asks of each state update and each logged effect. *)
Ltac respects_step HR leaf :=
  lazymatch goal with
  | |- respects _ (bind _ _) => apply (respects_bind _ HR); [|intros ?]
  | |- respects _ (ret _) => apply (respects_ret _ HR)
  | |- respects _ (throw _) => apply (respects_throw _ HR)
  | |- respects _ (gets _) => apply (respects_gets _ HR)
  | |- respects _ (try_catch _ _) =>
      apply (respects_try_catch _ HR); [|intros ?]
  | |- respects _ (when _ _) => apply (respects_when _ HR)
  | |- respects _ (for_each _ _) => apply (respects_for_each _ HR); intros ?
  | |- respects _ (modify _) => apply (respects_modify _); intros ?; leaf
  | |- respects _ (emit _) => apply (respects_emit _); intros ?; leaf
  | |- respects _ (ws_send _ _) => apply (respects_ws_send _ HR); intros ?; leaf
  | |- respects _ (if ?b then _ else _) => destruct b
  | |- respects _ (match ?x with _ => _ end) => destruct x
  | |- respects _ (let _ := _ in _) => cbv zeta
  end.

Ltac unfold_handlers :=
  unfold readFile, writeFile, executeBash, resumeLocal,
    handleLocalMessage, localTimeout, cleanupLocalState,
    broadcastToMcpClients, handleExtensionMessage, extensionTimeout,
    cleanupExtensionState, routeCdpCommand, replyToMcp, replyErrorToMcp,
    handleMcpMessage, resumeMcp, stopPingInterval, startPingInterval,
    pingTick, respond, handleExtensionUpgrade, handleMcpUpgrade,
    handleLocalUpgrade, webSocketMessage, webSocketClose, reaction, call,
    ws_close, acceptWebSocket.

(** [atomic] is tried first, for computations that have a lemma of their
    own; the two dispatchers are opened last. *)
Ltac respects_with HR leaf atomic :=
  repeat first
    [ atomic
    | respects_step HR leaf
    | progress unfold_handlers
    | progress unfold sendToLocalClient, sendToExtension ].

Ltac respects_auto HR leaf := respects_with HR leaf fail.

(** ** Strings *)

Lemma string_eqb_decide (a b : string) : String.eqb a b = bool_decide (a = b).
Proof.
  destruct (String.eqb_spec a b) as [->|Hne].
  - by rewrite bool_decide_eq_true_2.
  - by rewrite bool_decide_eq_false_2.
Qed.

Lemma truthy_string_Some (s : string) : s ≠ "" → truthy_string (Some s) = true.
Proof.
  intros Hs. simpl. by destruct (String.eqb_spec s "").
Qed.

(** ** Sockets that leave *)

Lemma step_close hash ws r tag :
  tag_of ws r = Some tag →
  step hash (In_close ws) r =
    (remove_peer ws (run (webSocketClose tag) r).1, (run (webSocketClose tag) r).2).
Proof.
  intros Htag. cbn [step]. rewrite Htag.
  by destruct (run (webSocketClose tag) r).
Qed.

Lemma step_error hash ws r :
  step hash (In_error ws) r = (remove_peer ws r, []).
Proof. done. Qed.

(** ** Authenticator *)

Lemma keeps_auth_compositional : Compositional keeps_auth.
Proof.
  split.
  - by intros r a.
  - intros r1 r2 r3 o1 o2 H12 H23 a Ha. by apply H23, H12.
Qed.

Lemma validatePassphrase_first hash now p r :
  auth r = None →
  validatePassphrase hash now p r =
    (Ok true,
     set_auth (Some {| passphraseHash := hash p; createdAt := now |}) r, []).
Proof.
  intros Hr. unfold validatePassphrase, bind, gets, modify, ret.
  by rewrite Hr.
Qed.

Lemma validatePassphrase_later hash now q r a :
  auth r = Some a →
  validatePassphrase hash now q r =
    (Ok (bool_decide (hash q = passphraseHash a)), r, []).
Proof.
  intros Hr. unfold validatePassphrase, bind, gets, modify, ret.
  by rewrite Hr, string_eqb_decide.
Qed.

Lemma validatePassphrase_keeps_auth hash now p :
  respects keeps_auth (validatePassphrase hash now p).
Proof.
  intros r a Ha. by rewrite (validatePassphrase_later _ _ _ _ _ Ha).
Qed.

Ltac keeps_auth_leaf := try (intros ? ?; assumption).

Lemma reaction_keeps_auth e : respects keeps_auth (reaction e).
Proof.
  respects_auto keeps_auth_compositional keeps_auth_leaf.
Qed.

Lemma fetch_keeps_auth hash now server request :
  respects keeps_auth (fetch hash now server request).
Proof.
  unfold fetch.
  respects_auto keeps_auth_compositional keeps_auth_leaf;
    try apply validatePassphrase_keeps_auth;
    respects_auto keeps_auth_compositional keeps_auth_leaf.
Qed.

Lemma step_keeps_auth hash i r :
  keeps_auth r (step hash i r).1 (step hash i r).2.
Proof.
  pose proof keeps_auth_compositional as HR.
  destruct i; cbn [step];
    try (apply (respects_run _ HR); [|apply reaction_keeps_auth]).
  - apply (respects_bind _ HR); [apply fetch_keeps_auth|].
    intros ?. respects_auto HR keeps_auth_leaf.
  - respects_auto HR keeps_auth_leaf.
  - fold (step hash (In_close ws) r).
    destruct (tag_of ws r) as [tag|] eqn:Htag;
      [|by cbn [step]; rewrite Htag; intros a].
    rewrite (step_close hash ws r tag Htag). cbn [fst snd].
    intros a Ha. apply (respects_run _ HR (webSocketClose tag) r);
      [|apply reaction_keeps_auth|done].
    respects_auto HR keeps_auth_leaf.
  - by intros a.
  - respects_auto HR keeps_auth_leaf.
  - respects_auto HR keeps_auth_leaf.
  - destruct (pingInterval r); [|by intros a].
    apply (respects_run _ HR); [|apply reaction_keeps_auth].
    respects_auto HR keeps_auth_leaf.
  - respects_auto HR keeps_auth_leaf.
  - respects_auto HR keeps_auth_leaf.
  - respects_auto HR keeps_auth_leaf.
  - respects_auto HR keeps_auth_leaf.
Qed.

Lemma steps_keeps_auth hash inputs r a :
  auth r = Some a → auth (steps hash inputs r).1 = Some a.
Proof.
  revert r. induction inputs as [|i inputs IH]; intros r Ha; simpl; [done|].
  pose proof (step_keeps_auth hash i r a Ha) as H1.
  destruct (step hash i r) as [r1 o1]; simpl in *.
  specialize (IH r1 H1).
  by destruct (steps hash inputs r1) as [r2 o2].
Qed.

Lemma fetch_mismatch_403 hash now server pathname q r a :
  auth r = Some a → hash q ≠ passphraseHash a → q ≠ "" →
  pathname ≠ "/extension/status" → pathname ≠ "/local/status" →
  fetch hash now server
    {| req_pathname := pathname; req_passphrase := Some q |} r =
    (Ok {| status := 403; body := B_text "Invalid passphrase" |}, r, []).
Proof.
  intros Ha Hne Hq Hp1 Hp2. unfold fetch. cbn [req_pathname req_passphrase].
  rewrite (truthy_string_Some q Hq). cbn [default negb].
  assert (Hv : ∀ k : bool → M Response,
            bind (validatePassphrase hash now q) k r =
            (let '(b, r2, o2) := k false r in (b, r2, [] ++ o2))).
  { intros k. unfold bind.
    rewrite (validatePassphrase_later _ _ _ _ _ Ha).
    by rewrite bool_decide_eq_false_2. }
  destruct (String.eqb pathname "/" || String.eqb pathname "/health").
  { by rewrite Hv. }
  destruct (String.eqb_spec pathname "/extension/status"); [done|].
  destruct (String.eqb_spec pathname "/local/status"); [done|].
  by rewrite Hv.
Qed.

Lemma fetch_match_admitted hash now server pathname q r a :
  auth r = Some a → hash q = passphraseHash a → q ≠ "" →
  ∃ resp r' log,
    fetch hash now server
      {| req_pathname := pathname; req_passphrase := Some q |} r =
      (Ok resp, r', log)
    ∧ status resp ≠ 403 ∧ status resp ≠ 401.
Proof.
  intros Ha Heq Hq. unfold fetch. cbn [req_pathname req_passphrase].
  rewrite (truthy_string_Some q Hq). cbn [default negb].
  assert (Hv : ∀ k : bool → M Response,
            bind (validatePassphrase hash now q) k r =
            (let '(b, r2, o2) := k true r in (b, r2, [] ++ o2))).
  { intros k. unfold bind.
    rewrite (validatePassphrase_later _ _ _ _ _ Ha).
    by rewrite bool_decide_eq_true_2. }
  destruct (String.eqb pathname "/" || String.eqb pathname "/health").
  { rewrite Hv. cbn. by eexists _, _, _. }
  destruct (String.eqb pathname "/extension/status").
  { cbn. by eexists _, _, _. }
  destruct (String.eqb pathname "/local/status").
  { cbn. by eexists _, _, _. }
  rewrite Hv. cbn [negb].
  destruct (String.eqb pathname "/extension").
  { unfold handleExtensionUpgrade, bind, gets.
    destruct (getExtensionWebSocket r); cbn; by eexists _, _, _. }
  destruct (String.eqb pathname "/local" || String.prefix "/local/" pathname).
  { unfold handleLocalUpgrade, bind, gets.
    destruct (getLocalWebSocket r); cbn; by eexists _, _, _. }
  destruct (String.eqb pathname "/mcp" || String.prefix "/mcp/" pathname).
  { unfold handleMcpUpgrade, bind, gets.
    destruct (getMcpWebSocket _ r); cbn; by eexists _, _, _. }
  cbn. by eexists _, _, _.
Qed.

(** C1.  In a fresh room, the first validation with passphrase [p] admits
    and stores the digest of [p]; after any further events of the room the
    stored record is still the same, a validation with [q] admits exactly
    when the digest of [q] equals the stored one, an admission request
    whose passphrase has a different digest is answered 403 and changes
    nothing, and one whose passphrase has the stored digest is answered
    neither 403 nor 401. *)
Theorem passphrase_first_writer_wins (hash : string → string) (now : Z)
    (p : string) (r : Room) :
  auth r = None →
  let r1 := state_of (validatePassphrase hash now p r) in
  result_of (validatePassphrase hash now p r) = Ok true
  ∧ auth r1 = Some {| passphraseHash := hash p; createdAt := now |}
  ∧ ∀ inputs : list Input,
      let r2 := (steps hash inputs r1).1 in
      auth r2 = auth r1
      ∧ ∀ (now' : Z) (q : string),
          validatePassphrase hash now' q r2 =
            (Ok (bool_decide (hash q = hash p)), r2, [])
          ∧ (hash q ≠ hash p → q ≠ "" →
             ∀ (server : Socket) (pathname : string),
               pathname ≠ "/extension/status" → pathname ≠ "/local/status" →
               fetch hash now' server
                 {| req_pathname := pathname; req_passphrase := Some q |} r2 =
                 (Ok {| status := 403; body := B_text "Invalid passphrase" |},
                  r2, []))
          ∧ (hash q = hash p → q ≠ "" →
             ∀ (server : Socket) (pathname : string),
               ∃ resp r3 log,
                 fetch hash now' server
                   {| req_pathname := pathname; req_passphrase := Some q |} r2 =
                   (Ok resp, r3, log)
                 ∧ status resp ≠ 403 ∧ status resp ≠ 401).
Proof.
  intros Hr. rewrite (validatePassphrase_first _ _ _ _ Hr).
  cbn [state_of result_of fst snd]. split; [done|]. split; [done|].
  intros inputs.
  set (a := {| passphraseHash := hash p; createdAt := now |}).
  assert (Ha : auth (steps hash inputs (set_auth (Some a) r)).1 = Some a)
    by (by apply steps_keeps_auth).
  cbn zeta. split; [by rewrite Ha|].
  intros now' q. split_and!.
  - by rewrite (validatePassphrase_later _ _ _ _ _ Ha).
  - intros Hne Hq server pathname Hp1 Hp2.
    by apply (fetch_mismatch_403 _ _ _ _ _ _ a).
  - intros Heq Hq server pathname.
    by apply (fetch_match_admitted _ _ _ _ _ _ a).
Qed.

(** The scenario S1 on the sample digest: ["p"] sets the passphrase of a new
    room. *)
Lemma passphrase_first_writer_wins_witness :
  auth new_room = None
  ∧ result_of (validatePassphrase toy_hash 0 "p" new_room) = Ok true.
Proof.
  split; [reflexivity|].
  apply (passphrase_first_writer_wins toy_hash 0 "p" new_room). reflexivity.
Defined.

(** ** Write before read *)

(** C2.  When the ledger has no entry for [p], [writeFile p c] throws the
    write-before-read error before anything is sent: the room (ledger,
    pending tables, counters) is unchanged and the log is empty; the tool
    layer sees the call rejected with that message. *)
Theorem writeFile_unread_rejected (p c : string) (r : Room) :
  fileReadTimestamps r !! p = None →
  writeFile p c r =
    (Throw ("Cannot write to " +:+ p +:+
            ": file has not been read yet. Read the file first to ensure you have the latest content."),
     r, [])
  ∧ ∀ hash, step hash (In_writeFile p c) r =
      (r, [Rejected ("Cannot write to " +:+ p +:+
            ": file has not been read yet. Read the file first to ensure you have the latest content.")]).
Proof.
  intros Hp.
  assert (Hw : writeFile p c r =
    (Throw ("Cannot write to " +:+ p +:+
            ": file has not been read yet. Read the file first to ensure you have the latest content."),
     r, [])).
  { unfold writeFile, bind, gets. by rewrite Hp. }
  split; [done|]. intros hash.
  cbn [step]. unfold run, call, try_catch, bind at 1. by rewrite Hw.
Qed.

(** Scenario S3: only the local client is connected and nothing was read. *)
Lemma writeFile_unread_rejected_witness :
  fileReadTimestamps room_with_local !! "/tmp/x" = None
  ∧ writeFile "/tmp/x" "hi" room_with_local =
      (Throw "Cannot write to /tmp/x: file has not been read yet. Read the file first to ensure you have the latest content.",
       room_with_local, []).
Proof.
  split; [reflexivity|].
  apply (writeFile_unread_rejected "/tmp/x" "hi" room_with_local). reflexivity.
Defined.

(** ** Insertion-ordered maps *)

Module JsMapFacts.
Section Facts.
Context {K : Type} `{EqDecision K} {V : Type}.
Implicit Types (m : JsMap.t K V) (k : K) (v : V).

Lemma get_set_eq k v m : JsMap.get k (JsMap.set k v m) = Some v.
Proof.
  induction m as [|[k' v'] m IH]; simpl.
  - by rewrite decide_True.
  - destruct (decide (k = k')) as [->|Hne]; simpl.
    + by rewrite decide_True.
    + by rewrite decide_False.
Qed.

Lemma get_set_ne k k' v m :
  k ≠ k' → JsMap.get k (JsMap.set k' v m) = JsMap.get k m.
Proof.
  intros Hne. induction m as [|[k'' v''] m IH]; simpl.
  - by rewrite decide_False.
  - destruct (decide (k' = k'')) as [->|Hne']; simpl.
    + by rewrite !decide_False.
    + destruct (decide (k = k'')); [done|apply IH].
Qed.

Lemma get_delete_eq k m : JsMap.get k (JsMap.delete k m) = None.
Proof.
  induction m as [|[k' v'] m IH]; simpl; [done|].
  destruct (decide (k = k')) as [->|Hne]; simpl; [done|].
  by rewrite decide_False.
Qed.

Lemma get_delete_ne k k' m :
  k ≠ k' → JsMap.get k (JsMap.delete k' m) = JsMap.get k m.
Proof.
  intros Hne. induction m as [|[k'' v''] m IH]; simpl; [done|].
  destruct (decide (k' = k'')) as [->|Hne']; simpl.
  - by rewrite decide_False.
  - destruct (decide (k = k'')); [done|apply IH].
Qed.

Lemma get_None_keys k m : JsMap.get k m = None ↔ k ∉ JsMap.keys m.
Proof.
  unfold JsMap.keys. induction m as [|[k' v'] m IH]; csimpl.
  - split; [intros _; apply not_elem_of_nil | done].
  - rewrite not_elem_of_cons.
    destruct (decide (k = k')) as [->|Hne].
    + split; [done|]. by intros [? _].
    + rewrite IH. split; [done|]. by intros [_ ?].
Qed.

Lemma keys_set_fresh k v m :
  k ∉ JsMap.keys m → JsMap.keys (JsMap.set k v m) = JsMap.keys m ++ [k].
Proof.
  unfold JsMap.keys. induction m as [|[k' v'] m IH]; csimpl; [done|].
  rewrite not_elem_of_cons. intros [Hne Hnin].
  rewrite decide_False by done. csimpl. by rewrite IH.
Qed.

Lemma keys_set_present k v m :
  k ∈ JsMap.keys m → JsMap.keys (JsMap.set k v m) = JsMap.keys m.
Proof.
  unfold JsMap.keys. induction m as [|[k' v'] m IH]; csimpl.
  - by intros ?%elem_of_nil.
  - destruct (decide (k = k')) as [->|Hne]; csimpl; [done|].
    rewrite elem_of_cons. intros [?|Hin]; [done|]. by rewrite IH.
Qed.

Lemma keys_delete k m :
  JsMap.keys (JsMap.delete k m) = filter (λ k', k' ≠ k) (JsMap.keys m).
Proof.
  unfold JsMap.keys. induction m as [|[k' v'] m IH]; csimpl; [done|].
  destruct (decide (k = k')) as [->|Hne].
  - by rewrite filter_cons_False by (by intros ?).
  - rewrite filter_cons_True by done. csimpl. by rewrite IH.
Qed.

Lemma keys_update_first (p : V → bool) (f : V → V) m :
  JsMap.keys (JsMap.update_first p f m) = JsMap.keys m.
Proof.
  unfold JsMap.keys. induction m as [|[k' v'] m IH]; csimpl; [done|].
  destruct (p v'); csimpl; [done|]. by rewrite IH.
Qed.

Lemma NoDup_keys_set k v m :
  NoDup (JsMap.keys m) → NoDup (JsMap.keys (JsMap.set k v m)).
Proof.
  intros Hnd. destruct (decide (k ∈ JsMap.keys m)) as [Hin|Hnin].
  - by rewrite keys_set_present.
  - rewrite keys_set_fresh by done.
    apply NoDup_app. split; [done|]. split; [|apply NoDup_singleton].
    intros x Hx ->%list_elem_of_singleton. done.
Qed.

Lemma NoDup_keys_delete k m :
  NoDup (JsMap.keys m) → NoDup (JsMap.keys (JsMap.delete k m)).
Proof. rewrite keys_delete. apply NoDup_filter. Qed.
End Facts.
End JsMapFacts.

(** ** Local multiplexer and read-time ledger *)

(** What a dispatched local request leaves behind. *)
Lemma sendToLocalClient_dispatch method params timeout caller r ws :
  getLocalWebSocket r = Some ws → socket_open ws r = true →
  let id := localMessageId r + 1 in
  sendToLocalClient method params timeout caller r =
    (Ok id,
     set_pendingLocalRequests
       (JsMap.set id {| pl_timeout := default 30000 timeout;
                        pl_method := method; pl_caller := caller |}
          (pendingLocalRequests r))
       (set_localMessageId id r),
     [Send ws (W_localCommand id method params)]).
Proof.
  intros Hws Hopen. unfold sendToLocalClient, bind, gets, modify, ret, ws_send.
  rewrite Hws. cbn. unfold socket_open in *. cbn. by rewrite Hopen.
Qed.

Lemma sendToLocalClient_not_connected method params timeout caller r :
  getLocalWebSocket r = None →
  sendToLocalClient method params timeout caller r =
    (Throw "Local client not connected", r, []).
Proof.
  intros Hws. unfold sendToLocalClient, bind, gets, throw. by rewrite Hws.
Qed.

Lemma writeFile_dispatch p c r ws m :
  getLocalWebSocket r = Some ws → socket_open ws r = true →
  fileReadTimestamps r !! p = Some (Some m) →
  let id := localMessageId r + 1 in
  writeFile p c r =
    (Ok id,
     set_pendingLocalRequests
       (JsMap.set id {| pl_timeout := 30000; pl_method := file_write;
                        pl_caller := K_writeFile p |}
          (pendingLocalRequests r))
       (set_localMessageId id r),
     [Send ws (W_localCommand id file_write (LocalWriteParams p c (Some m)))]).
Proof.
  intros Hws Hopen Hp. unfold writeFile, bind at 1, gets at 1.
  rewrite Hp. cbn [mjoin option_join].
  rewrite (sendToLocalClient_dispatch _ _ _ _ _ _ Hws Hopen). done.
Qed.

(** A call that dispatched: the step is the dispatch. *)
Lemma run_call_dispatched (m : M Z) r id r' ws w :
  m r = (Ok id, r', [Send ws w]) → run (call m) r = (r', [Send ws w]).
Proof.
  intros Hm. unfold run, call, try_catch, bind. rewrite Hm. done.
Qed.

Lemma step_writeFile_dispatch hash p c r ws m :
  getLocalWebSocket r = Some ws → socket_open ws r = true →
  fileReadTimestamps r !! p = Some (Some m) →
  let id := localMessageId r + 1 in
  step hash (In_writeFile p c) r =
    (set_pendingLocalRequests
       (JsMap.set id {| pl_timeout := 30000; pl_method := file_write;
                        pl_caller := K_writeFile p |}
          (pendingLocalRequests r))
       (set_localMessageId id r),
     [Send ws (W_localCommand id file_write (LocalWriteParams p c (Some m)))]).
Proof.
  intros Hws Hopen Hp id. cbn [step].
  apply (run_call_dispatched _ _ id). by apply writeFile_dispatch.
Qed.

(** A reply without error to a pending read or write of [p]. *)
Lemma local_reply_result hash ws cid id pend p res r :
  tag_of ws r = Some (TagLocal cid) →
  JsMap.get id (pendingLocalRequests r) = Some pend →
  pl_caller pend = K_readFile p ∨ pl_caller pend = K_writeFile p →
  step hash (In_message ws (Some (FromLocal (LocalResponse id (Some res) None)))) r =
    (set_fileReadTimestamps (<[p := result_mtime res]> (fileReadTimestamps r))
       (set_pendingLocalRequests (JsMap.delete id (pendingLocalRequests r)) r),
     [SettleLocal id pend (Ok (Some res)); Return id (Ok (Some res))]).
Proof.
  intros Htag Hget Hcaller. cbn [step].
  unfold run, webSocketMessage, bind at 1, gets at 1. rewrite Htag.
  unfold handleLocalMessage, bind at 1, gets at 1. rewrite Hget.
  cbn. unfold resumeLocal. by destruct Hcaller as [-> | ->].
Qed.

(** A reply with an error, whoever awaits it. *)
Lemma local_reply_error hash ws cid id pend result e r :
  tag_of ws r = Some (TagLocal cid) →
  JsMap.get id (pendingLocalRequests r) = Some pend →
  e ≠ "" →
  step hash (In_message ws (Some (FromLocal (LocalResponse id result (Some e))))) r =
    (set_pendingLocalRequests (JsMap.delete id (pendingLocalRequests r)) r,
     [SettleLocal id pend (Throw e); Return id (Throw e)]).
Proof.
  intros Htag Hget He. cbn [step].
  unfold run, webSocketMessage, bind at 1, gets at 1. rewrite Htag.
  unfold handleLocalMessage, bind at 1, gets at 1. rewrite Hget.
  rewrite (truthy_string_Some e He). done.
Qed.

(** The timer of a pending local request fires. *)
Lemma local_timeout_fires hash id pend r :
  JsMap.get id (pendingLocalRequests r) = Some pend →
  let e := "Local client request timeout after " +:+ pretty (pl_timeout pend)
             +:+ "ms: " +:+ local_method_name (pl_method pend) in
  step hash (In_localTimeout id) r =
    (set_pendingLocalRequests (JsMap.delete id (pendingLocalRequests r)) r,
     [SettleLocal id pend (Throw e); Return id (Throw e)]).
Proof.
  intros Hget. cbn [step].
  unfold run, localTimeout, bind at 1, gets at 1. rewrite Hget. done.
Qed.

(** C3.  With the local client connected: a reply to a pending read of [p]
    that carries mtime [m] sets the ledger entry of [p] to [m]; a write of
    [p] sends [file.write] with [expectedMtime] equal to the ledger entry of
    [p] and awaits the reply; a reply to a pending write of [p] that carries
    mtime [m'] sets the entry to [m'], and the next write of [p] then sends
    [expectedMtime = m']. *)
Theorem ledger_follows_reads_and_writes (hash : string → string) (r : Room)
    (ws : Socket) (cid p : string) :
  tag_of ws r = Some (TagLocal cid) →
  getLocalWebSocket r = Some ws →
  socket_open ws r = true →
  let reply id res :=
    In_message ws (Some (FromLocal (LocalResponse id (Some res) None))) in
  (∀ id pend content m,
     JsMap.get id (pendingLocalRequests r) = Some pend →
     pl_caller pend = K_readFile p →
     fileReadTimestamps (step hash (reply id (LocalReadResult content m)) r).1 !! p
       = Some (Some m))
  ∧ (∀ c m,
       fileReadTimestamps r !! p = Some (Some m) →
       ∃ r', step hash (In_writeFile p c) r =
               (r', [Send ws (W_localCommand (localMessageId r + 1) file_write
                               (LocalWriteParams p c (Some m)))])
             ∧ JsMap.get (localMessageId r + 1) (pendingLocalRequests r') =
                 Some {| pl_timeout := 30000; pl_method := file_write;
                         pl_caller := K_writeFile p |})
  ∧ (∀ id pend m',
       JsMap.get id (pendingLocalRequests r) = Some pend →
       pl_caller pend = K_writeFile p →
       let r' := (step hash (reply id (LocalWriteResult m')) r).1 in
       fileReadTimestamps r' !! p = Some (Some m')
       ∧ ∀ c', (step hash (In_writeFile p c') r').2 =
                 [Send ws (W_localCommand (localMessageId r + 1) file_write
                             (LocalWriteParams p c' (Some m')))]).
Proof.
  intros Htag Hws Hopen reply. repeat split.
  - intros id pend content m Hget Hcaller. unfold reply.
    rewrite (local_reply_result hash ws cid id pend p _ r Htag Hget (or_introl Hcaller)).
    cbn. apply lookup_insert_eq.
  - intros c m Hp. eexists. split.
    + by apply step_writeFile_dispatch.
    + cbn. apply JsMapFacts.get_set_eq.
  - unfold reply.
    rewrite (local_reply_result hash ws cid id pend p _ r Htag H (or_intror H0)).
    cbn. apply lookup_insert_eq.
  - intros c'. unfold reply.
    rewrite (local_reply_result hash ws cid id pend p _ r Htag H (or_intror H0)).
    cbn [fst].
    rewrite (step_writeFile_dispatch hash p c' _ ws m'); [done|done|done|].
    cbn. apply lookup_insert_eq.
Qed.

(** Scenario S4: the read of [/tmp/x] is in flight and returns mtime 100. *)
Lemma ledger_follows_reads_and_writes_witness :
  tag_of 1%nat room_reading = Some (TagLocal "default")
  ∧ getLocalWebSocket room_reading = Some 1%nat
  ∧ socket_open 1%nat room_reading = true
  ∧ fileReadTimestamps room_read !! "/tmp/x" = Some (Some 100).
Proof.
  split; [reflexivity|]. split; [reflexivity|]. split; [reflexivity|].
  unfold room_read.
  refine (proj1 (ledger_follows_reads_and_writes toy_hash room_reading 1%nat
                   "default" "/tmp/x" eq_refl eq_refl eq_refl)
            1 {| pl_timeout := 30000; pl_method := file_read;
                 pl_caller := K_readFile "/tmp/x" |} "old" 100 _ _);
    reflexivity.
Defined.

(** Scenario S4 from end to end on the sample room. *)
Example scenario_S4 :
  (steps toy_hash
     [In_readFile "/tmp/x";
      In_message 1%nat
        (Some (FromLocal (LocalResponse 1 (Some (LocalReadResult "old" 100)) None)));
      In_writeFile "/tmp/x" "new";
      In_message 1%nat
        (Some (FromLocal (LocalResponse 2 (Some (LocalWriteResult 200)) None)));
      In_writeFile "/tmp/x" "newer"]
     room_with_local).2 =
  [Send 1%nat (W_localCommand 1 file_read (LocalReadParams "/tmp/x"));
   SettleLocal 1 {| pl_timeout := 30000; pl_method := file_read;
                    pl_caller := K_readFile "/tmp/x" |}
     (Ok (Some (LocalReadResult "old" 100)));
   Return 1 (Ok (Some (LocalReadResult "old" 100)));
   Send 1%nat (W_localCommand 2 file_write
                 (LocalWriteParams "/tmp/x" "new" (Some 100)));
   SettleLocal 2 {| pl_timeout := 30000; pl_method := file_write;
                    pl_caller := K_writeFile "/tmp/x" |}
     (Ok (Some (LocalWriteResult 200)));
   Return 2 (Ok (Some (LocalWriteResult 200)));
   Send 1%nat (W_localCommand 3 file_write
                 (LocalWriteParams "/tmp/x" "newer" (Some 200)))].
Proof. vm_compute. reflexivity. Qed.

(** C10.  A write of [p] is dispatched with the ledger's mtime [m].  If the
    request then fails, by a reply that carries an error or by its timer,
    while the local client stays connected, the caller's promise is rejected
    with that error, the ledger is what it was before the write, and a
    retried write of [p] sends the same [expectedMtime]. *)
Theorem failed_write_keeps_ledger (hash : string → string) (r : Room)
    (ws : Socket) (cid p c : string) (m : Z) :
  tag_of ws r = Some (TagLocal cid) →
  getLocalWebSocket r = Some ws →
  socket_open ws r = true →
  fileReadTimestamps r !! p = Some (Some m) →
  let id := localMessageId r + 1 in
  let r1 := (step hash (In_writeFile p c) r).1 in
  let failed failure e :=
    (step hash failure r1).2 =
      [SettleLocal id {| pl_timeout := 30000; pl_method := file_write;
                         pl_caller := K_writeFile p |} (Throw e);
       Return id (Throw e)]
    ∧ fileReadTimestamps (step hash failure r1).1 = fileReadTimestamps r
    ∧ ∀ c', (step hash (In_writeFile p c') (step hash failure r1).1).2 =
              [Send ws (W_localCommand (id + 1) file_write
                          (LocalWriteParams p c' (Some m)))] in
  (step hash (In_writeFile p c) r).2 =
    [Send ws (W_localCommand id file_write (LocalWriteParams p c (Some m)))]
  ∧ (∀ e result, e ≠ "" →
       failed (In_message ws (Some (FromLocal (LocalResponse id result (Some e))))) e)
  ∧ failed (In_localTimeout id)
      "Local client request timeout after 30000ms: file.write".
Proof.
  intros Htag Hws Hopen Hp.
  pose proof (step_writeFile_dispatch hash p c r ws m Hws Hopen Hp) as Hw.
  cbn zeta in *. rewrite Hw. cbn [fst snd].
  split; [done|].
  set (id := localMessageId r + 1).
  set (r1 := set_pendingLocalRequests _ _).
  assert (Hget : JsMap.get id (pendingLocalRequests r1) =
                 Some {| pl_timeout := 30000; pl_method := file_write;
                         pl_caller := K_writeFile p |})
    by apply JsMapFacts.get_set_eq.
  split.
  - intros e result He.
    rewrite (local_reply_error hash ws cid id _ result e r1 Htag Hget He).
    cbn [fst snd]. split; [done|]. split; [done|].
    intros c'. by rewrite (step_writeFile_dispatch hash p c' _ ws m).
  - rewrite (local_timeout_fires hash id _ r1 Hget).
    cbn [fst snd]. split; [done|]. split; [done|].
    intros c'. by rewrite (step_writeFile_dispatch hash p c' _ ws m).
Qed.

(** After the read of scenario S4, a write whose reply is an error. *)
Lemma failed_write_keeps_ledger_witness :
  tag_of 1%nat room_read = Some (TagLocal "default")
  ∧ getLocalWebSocket room_read = Some 1%nat
  ∧ socket_open 1%nat room_read = true
  ∧ fileReadTimestamps room_read !! "/tmp/x" = Some (Some 100)
  ∧ (step toy_hash (In_writeFile "/tmp/x" "new") room_read).2 =
      [Send 1%nat (W_localCommand 2 file_write
                     (LocalWriteParams "/tmp/x" "new" (Some 100)))].
Proof.
  split; [reflexivity|]. split; [reflexivity|]. split; [reflexivity|].
  split; [reflexivity|].
  refine (proj1 (failed_write_keeps_ledger toy_hash room_read 1%nat "default"
                   "/tmp/x" "new" 100 eq_refl eq_refl eq_refl eq_refl)).
Defined.

(** ** Admission without a passphrase *)

Lemma fetch_status_endpoints hash now server passphrase r :
  fetch hash now server
    {| req_pathname := "/extension/status"; req_passphrase := passphrase |} r =
    (Ok {| status := 200;
           body := B_connected (bool_decide (getExtensionWebSocket r ≠ None)) |},
     r, [])
  ∧ fetch hash now server
      {| req_pathname := "/local/status"; req_passphrase := passphrase |} r =
      (Ok {| status := 200;
             body := B_connected (bool_decide (getLocalWebSocket r ≠ None)) |},
       r, []).
Proof. done. Qed.

Lemma fetch_no_passphrase_401 hash now server request r :
  truthy_string (req_passphrase request) = false →
  req_pathname request ≠ "/" → req_pathname request ≠ "/health" →
  req_pathname request ≠ "/extension/status" →
  req_pathname request ≠ "/local/status" →
  fetch hash now server request r =
    (Ok {| status := 401; body := B_text "Passphrase required" |}, r, []).
Proof.
  intros Hpass H1 H2 H3 H4. unfold fetch.
  destruct (String.eqb_spec (req_pathname request) "/"); [done|].
  destruct (String.eqb_spec (req_pathname request) "/health"); [done|].
  destruct (String.eqb_spec (req_pathname request) "/extension/status"); [done|].
  destruct (String.eqb_spec (req_pathname request) "/local/status"); [done|].
  cbn [orb]. by rewrite Hpass.
Qed.

(** C7, as the code has it.  A request to a room-scoped path
    [/room/:roomId/...] that carries no (non-empty) passphrase is answered
    401, and a request the worker forwards leaves the room as it is, unless
    its sub-path is the room's health path or one of the two introspection
    paths; the introspection paths answer 200 with the connection flag
    whatever passphrase is or is not supplied. *)
Theorem passphrase_required_except_introspection (hash : string → string)
    (now : Z) (server : Socket) (r : Room) :
  (∀ request roomId subPath,
     room_subpath (wr_pathname request) = Some (roomId, subPath) →
     truthy_string (getPassphraseFromRequest request) = false →
     truthy_string (wr_passphrase request) = false →
     subPath ≠ "/" → subPath ≠ "/health" →
     subPath ≠ "/extension/status" → subPath ≠ "/local/status" →
     endpoint_status hash now server request r = Some 401
     ∧ ∀ request', worker_fetch request = Routed_room roomId request' →
                   state_of (fetch hash now server request' r) = r)
  ∧ (∀ passphrase,
       fetch hash now server
         {| req_pathname := "/extension/status"; req_passphrase := passphrase |} r =
         (Ok {| status := 200;
                body := B_connected (bool_decide (getExtensionWebSocket r ≠ None)) |},
          r, [])
       ∧ fetch hash now server
           {| req_pathname := "/local/status"; req_passphrase := passphrase |} r =
           (Ok {| status := 200;
                  body := B_connected (bool_decide (getLocalWebSocket r ≠ None)) |},
            r, [])).
Proof.
  split.
  - intros request roomId subPath Hsub Hbearer Hpass H1 H2 H3 H4.
    assert (Hroute :
      worker_fetch request =
        if String.eqb subPath "/mcp-server" || String.prefix "/mcp-server/" subPath
        then Routed_response
               {| status := 401;
                  body := B_error "Passphrase required"
                    (Some "Use Authorization: Bearer <passphrase> header or ?passphrase=xxx query param") |}
        else Routed_room roomId
               {| req_pathname := subPath; req_passphrase := wr_passphrase request |}).
    { unfold worker_fetch.
      destruct (String.eqb_spec (wr_pathname request) "/") as [Heq|_].
      { rewrite Heq in Hsub. by vm_compute in Hsub. }
      destruct (String.eqb_spec (wr_pathname request) "/health") as [Heq|_].
      { rewrite Heq in Hsub. by vm_compute in Hsub. }
      cbn [orb]. rewrite Hsub. by rewrite Hbearer. }
    unfold endpoint_status. rewrite Hroute.
    destruct (String.eqb subPath "/mcp-server" || String.prefix "/mcp-server/" subPath).
    { split; [done|]. intros request' Hr. discriminate Hr. }
    rewrite fetch_no_passphrase_401 by done.
    split; [done|]. intros request' Hr. injection Hr as <-.
    by rewrite fetch_no_passphrase_401.
  - intros passphrase. apply fetch_status_endpoints.
Qed.

(** A web-socket upgrade of the browser peer without a passphrase. *)
Lemma passphrase_required_except_introspection_witness :
  room_subpath "/room/r1/extension" = Some ("r1", "/extension")
  ∧ endpoint_status toy_hash 0 7%nat
      {| wr_pathname := "/room/r1/extension"; wr_authorization := None;
         wr_passphrase := None |} new_room = Some 401.
Proof.
  split; [reflexivity|].
  refine (proj1 (proj1 (passphrase_required_except_introspection toy_hash 0 7%nat new_room)
            {| wr_pathname := "/room/r1/extension"; wr_authorization := None;
               wr_passphrase := None |} "r1" "/extension" _ _ _ _ _ _ _));
    first [reflexivity | discriminate].
Defined.

(** C7 as stated fails: the introspection endpoint of a room answers 200 to
    a request that carries no passphrase. *)
Lemma introspection_needs_no_passphrase :
  worker_fetch {| wr_pathname := "/room/r1/extension/status";
                  wr_authorization := None; wr_passphrase := None |} =
    Routed_room "r1" {| req_pathname := "/extension/status"; req_passphrase := None |}
  ∧ fetch toy_hash 0 7%nat
      {| req_pathname := "/extension/status"; req_passphrase := None |} new_room =
      (Ok {| status := 200; body := B_connected false |}, new_room, [])
  ∧ endpoint_status toy_hash 0 7%nat
      {| wr_pathname := "/room/r1/extension/status"; wr_authorization := None;
         wr_passphrase := None |} new_room ≠ Some 401.
Proof. split; [|split]; [reflexivity|reflexivity|discriminate]. Qed.

(** ** The deadline of [bash.execute] *)

Lemma executeBash_deadline_explicit (t : Z) :
  t ≠ 0 →
  executeBash_deadline (Some t) = handleBashExecute_timeout (Some t) + 5000.
Proof.
  intros Ht. unfold executeBash_deadline, handleBashExecute_timeout, number_or.
  by destruct (Z.eqb_spec t 0).
Qed.

(** C9 at the failing input: [bash] without a timeout.  The request carries
    no timeout, so the local client runs the command with its default of
    30000 ms, and the relay's timer for the request is set to 30000 ms as
    well: the deadline is the command timeout, not the command timeout plus
    5000 ms. *)
Lemma executeBash_default_deadline_has_no_slack :
  step toy_hash (In_executeBash "sleep 60" None None) room_with_local =
    (set_pendingLocalRequests
       [(1, {| pl_timeout := 30000; pl_method := bash_execute;
               pl_caller := K_executeBash |})]
       (set_localMessageId 1 room_with_local),
     [Send 1%nat (W_localCommand 1 bash_execute
                    (LocalBashParams "sleep 60" None None))])
  ∧ handleBashExecute_timeout None = 30000
  ∧ executeBash_deadline None ≠ handleBashExecute_timeout None + 5000.
Proof. split; [|split]; [reflexivity|reflexivity|discriminate]. Qed.

(** ** Event broadcaster *)

Lemma for_each_send (l : list Socket) (w : Wire) (r : Room) :
  for_each l (λ ws, ws_send ws w) r =
    (if forallb (λ ws, socket_open ws r) l
     then Ok tt
     else Throw "Can't call WebSocket send() after close().",
     r, (λ ws, Send ws w) <$> open_prefix r l).
Proof.
  induction l as [|ws l IH]; [done|].
  cbn [for_each forallb open_prefix]. unfold bind, ws_send at 1.
  destruct (socket_open ws r); [|done].
  by rewrite IH.
Qed.

(** The broadcaster sends the event to the listed agents, in the order the
    platform lists them, up to the first one on whose socket [send] throws,
    and leaves the room as it is. *)
Lemma broadcast_sends_open_prefix (ev : CDPEvent) (r : Room) :
  state_of (broadcastToMcpClients ev r) = r
  ∧ effects_of (broadcastToMcpClients ev r) =
      (λ ws, Send ws (W_event ev)) <$> open_prefix r (getMcpWebSockets r).
Proof.
  unfold broadcastToMcpClients, bind, gets. by rewrite for_each_send.
Qed.

(** ** Browser disconnect *)

Lemma for_each_reject_ext (l : JsMap.t Z PendingRequest) (msg : string) r :
  for_each l (λ '(id, p), emit (SettleExt id p (Throw msg))) r =
    (Ok tt, r, (λ '(id, p), SettleExt id p (Throw msg)) <$> l).
Proof.
  induction l as [|[id p] l IH]; [done|].
  cbn [for_each]. unfold bind, emit at 1. rewrite IH. done.
Qed.

Lemma for_each_reject_local (l : JsMap.t Z PendingLocalRequest) (msg : string) r :
  for_each l (λ '(id, p), emit (SettleLocal id p (Throw msg))) r =
    (Ok tt, r, (λ '(id, p), SettleLocal id p (Throw msg)) <$> l).
Proof.
  induction l as [|[id p] l IH]; [done|].
  cbn [for_each]. unfold bind, emit at 1. rewrite IH. done.
Qed.

Lemma for_each_ws_close (l : list Socket) (code : Z) (reason : string) r :
  for_each l (λ ws, ws_close ws code reason) r =
    (Ok tt, set_peers (close_all l (peers r)) r,
     (λ ws, Close ws code reason) <$> l).
Proof.
  revert r. induction l as [|ws l IH]; intros r; [by destruct r|].
  cbn [for_each]. unfold bind at 1, ws_close at 1, bind at 1, modify, emit.
  rewrite IH. done.
Qed.

Lemma same_room_compositional : Compositional same_room.
Proof.
  split; [done|]. unfold same_room. intros r1 r2 r3 _ _ -> ->. done.
Qed.

(** The reply to an agent changes nothing in the room. *)
Lemma resumeMcp_same_room id p o : respects same_room (resumeMcp id p o).
Proof.
  respects_auto same_room_compositional ltac:(done).
Qed.

Lemma reaction_returns (e : Effect) (r : Room) :
  result_of (reaction e r) = Ok tt.
Proof.
  destruct e; try done; cbn [reaction]; unfold try_catch, result_of.
  - by destruct (resumeMcp id p o r) as [[[[]|?] ?] ?].
  - by destruct (resumeLocal id p o r) as [[[[]|?] ?] ?].
Qed.

Lemma for_each_reaction_cons (e : Effect) (log : list Effect) (r : Room) :
  for_each (e :: log) reaction r =
    (let '(b, r2, o2) := for_each log reaction (state_of (reaction e r)) in
     (b, r2, effects_of (reaction e r) ++ o2)).
Proof.
  cbn [for_each]. unfold bind.
  pose proof (reaction_returns e r) as Hok. unfold result_of, state_of, effects_of in *.
  destruct (reaction e r) as [[x r1] o1]; cbn in *. by subst x.
Qed.

Lemma reaction_same_room (e : Effect) (r : Room) :
  is_local_settlement e = false → state_of (reaction e r) = r.
Proof.
  intros He. destruct e; try done.
  cbn [reaction]. unfold try_catch, state_of.
  pose proof (resumeMcp_same_room id p o r) as Hr.
  unfold same_room, state_of in Hr.
  destruct (resumeMcp id p o r) as [[[[]|?] r1] o1]; cbn in *; by subst.
Qed.

Lemma reactions_same_room (log : list Effect) (r : Room) :
  Forall (λ e, is_local_settlement e = false) log →
  state_of (for_each log reaction r) = r.
Proof.
  intros Hlog. induction Hlog as [|e log He _ IH]; [done|].
  rewrite for_each_reaction_cons, (reaction_same_room e r He).
  unfold state_of in *. by destruct (for_each log reaction r) as [[? ?] ?].
Qed.

Lemma run_unfold {A} (m : M A) (r : Room) :
  run m r =
    (state_of (for_each (effects_of (m r)) reaction (state_of (m r))),
     effects_of (m r) ++
     effects_of (for_each (effects_of (m r)) reaction (state_of (m r)))).
Proof.
  unfold run, state_of, effects_of.
  destruct (m r) as [[a r1] o1]; cbn.
  by destruct (for_each o1 reaction r1) as [[b r2] o2].
Qed.

(** What [webSocketClose] does for the browser peer's socket. *)
Lemma webSocketClose_extension (r : Room) :
  ∃ r1,
    webSocketClose TagExtension r =
      (Ok tt, r1,
       ((λ '(id, p), SettleExt id p (Throw "Extension connection closed"))
          <$> pendingRequests r) ++
       ((λ ws, Close ws 1000 "Extension disconnected") <$> getMcpWebSockets r))
    ∧ connectedTargets r1 = JsMap.empty
    ∧ pendingRequests r1 = JsMap.empty
    ∧ fileReadTimestamps r1 = fileReadTimestamps r
    ∧ pendingLocalRequests r1 = pendingLocalRequests r
    ∧ messageId r1 = messageId r
    ∧ localMessageId r1 = localMessageId r
    ∧ auth r1 = auth r
    ∧ peers r1 = close_all (getMcpWebSockets r) (peers r)
    ∧ departed r1 = departed r.
Proof.
  unfold webSocketClose, when. cbn [is_extension is_local].
  unfold cleanupExtensionState, stopPingInterval.
  unfold bind, modify, gets, ret.
  rewrite for_each_reject_ext. cbn [app].
  rewrite for_each_ws_close.
  match goal with
  | |- context [if ?b then _ else _] => destruct b
  end; eexists; (split; [cbn; by rewrite ?app_nil_r|]); done.
Qed.

(** C5.  When the close event of the browser peer's socket is delivered,
    the target registry and the browser pending table are emptied, every
    pending browser request is rejected with "Extension connection closed",
    [close(1000, "Extension disconnected")] is called on every agent socket,
    and the ledger, the local pending table and both counters are what they
    were. *)
Theorem browser_close_teardown (hash : string → string) (r : Room) (ws : Socket) :
  tag_of ws r = Some TagExtension →
  let r' := (step hash (In_close ws) r).1 in
  let log := (step hash (In_close ws) r).2 in
  connectedTargets r' = JsMap.empty
  ∧ pendingRequests r' = JsMap.empty
  ∧ (∀ id p, (id, p) ∈ pendingRequests r →
             SettleExt id p (Throw "Extension connection closed") ∈ log)
  ∧ (∀ peer, peer ∈ peers r → is_mcp (peer_tag peer) = true → peer_ws peer ≠ ws →
             Close (peer_ws peer) 1000 "Extension disconnected" ∈ log)
  ∧ fileReadTimestamps r' = fileReadTimestamps r
  ∧ pendingLocalRequests r' = pendingLocalRequests r
  ∧ messageId r' = messageId r
  ∧ localMessageId r' = localMessageId r.
Proof.
  intros Htag. rewrite (step_close hash ws r TagExtension Htag), run_unfold.
  destruct (webSocketClose_extension r)
    as (r1 & Hclose & Ht & Hp & Hl & Hpl & Hm & Hlm & _).
  rewrite Hclose. cbn [state_of effects_of fst snd].
  rewrite reactions_same_room.
  2:{ apply Forall_app. split; apply Forall_fmap, Forall_forall.
      - by intros [id p] _.
      - by intros a _. }
  repeat split; try done.
  - intros id p Hin. apply elem_of_app. left. apply elem_of_app. left.
    by apply (list_elem_of_fmap_2
                (λ '(id, p), SettleExt id p (Throw "Extension connection closed"))
                _ (id, p)).
  - intros peer Hin Hmcp Hne. apply elem_of_app. left. apply elem_of_app. right.
    apply (list_elem_of_fmap_2 (λ a, Close a 1000 "Extension disconnected")).
    unfold getMcpWebSockets. apply list_elem_of_fmap_2.
    by apply list_elem_of_filter.
Qed.

(** Scenario S6: the browser peer of [room_busy] goes away. *)
Lemma browser_close_teardown_witness :
  tag_of 1%nat room_busy = Some TagExtension
  ∧ connectedTargets room_busy =
      [("s1", {| ct_sessionId := "s1"; ct_targetId := "t1";
                 ct_targetInfo := page "t1" "/a" |})]
  ∧ (step toy_hash (In_close 1%nat) room_busy).2 =
      [SettleExt 1 {| pr_mcpClientId := "a"; pr_timeout := 30000;
                      pr_ws := 2%nat; pr_command := command_of_a |}
         (Throw "Extension connection closed");
       Close 3%nat 1000 "Extension disconnected";
       Close 2%nat 1000 "Extension disconnected"]
  ∧ connectedTargets (step toy_hash (In_close 1%nat) room_busy).1 = JsMap.empty.
Proof.
  split; [reflexivity|]. split; [reflexivity|]. split; [reflexivity|].
  refine (proj1 (browser_close_teardown toy_hash room_busy 1%nat eq_refl)).
Defined.

(** ** Target registry *)

Module RegistryFacts.
Section Facts.
Context {V : Type}.
Implicit Types (m : JsMap.t string V) (k : string) (v : V).

(** The finite map a registry denotes. *)
Lemma to_map_get k m :
  (list_to_map m : gmap string V) !! k = JsMap.get k m.
Proof.
  induction m as [|[k' v'] m IH]; [done|].
  cbn [JsMap.get]. rewrite list_to_map_cons.
  destruct (decide (k = k')) as [->|Hne].
  - by rewrite lookup_insert_eq.
  - by rewrite lookup_insert_ne.
Qed.

Lemma to_map_set k v m :
  (list_to_map (JsMap.set k v m) : gmap string V) = <[k := v]> (list_to_map m).
Proof.
  induction m as [|[k' v'] m IH]; [done|].
  cbn [JsMap.set]. destruct (decide (k = k')) as [->|Hne].
  - rewrite !list_to_map_cons. by rewrite insert_insert_eq.
  - rewrite !list_to_map_cons, IH. by apply insert_insert_ne.
Qed.

Lemma to_map_delete k m :
  (list_to_map (JsMap.delete k m) : gmap string V) = delete k (list_to_map m).
Proof.
  induction m as [|[k' v'] m IH]; [symmetry; apply delete_empty|].
  cbn [JsMap.delete]. destruct (decide (k = k')) as [->|Hne].
  - rewrite list_to_map_cons, IH. by rewrite delete_insert_eq.
  - rewrite !list_to_map_cons, IH. by rewrite delete_insert_ne.
Qed.

(** The loop with [break]: either it rewrites one entry, or no entry
    satisfies the test. *)
Lemma to_map_update_first (p : V → bool) (f : V → V) m :
  NoDup (JsMap.keys m) →
  (∃ k v, (list_to_map m : gmap string V) !! k = Some v ∧ p v = true
          ∧ (list_to_map (JsMap.update_first p f m) : gmap string V)
            = <[k := f v]> (list_to_map m))
  ∨ ((∀ k v, (list_to_map m : gmap string V) !! k = Some v → p v = false)
     ∧ JsMap.update_first p f m = m).
Proof.
  unfold JsMap.keys. induction m as [|[k v] m IH]; csimpl; intros Hnd.
  - right. split; [|done]. intros k v. by rewrite lookup_empty.
  - apply NoDup_cons in Hnd as [Hk Hnd].
    destruct (p v) eqn:Hpv.
    + left. exists k, v. rewrite !list_to_map_cons.
      split; [apply lookup_insert_eq|]. split; [done|].
      by rewrite insert_insert_eq.
    + destruct (IH Hnd) as [(k' & v' & Hlook & Hp & Heq)|[Hnone Hsame]].
      * left. exists k', v'.
        assert (k ≠ k').
        { intros ->. apply Hk. apply elem_of_list_to_map_2 in Hlook.
          by apply (list_elem_of_fmap_2 fst _ (k', v')). }
        rewrite !list_to_map_cons, Heq.
        split; [by rewrite lookup_insert_ne|]. split; [done|].
        by apply insert_insert_ne.
      * right. split; [|by rewrite Hsame].
        intros k' v'.
        destruct (decide (k = k')) as [->|Hne].
        -- rewrite lookup_insert_eq. by intros [= <-].
        -- rewrite lookup_insert_ne by done. apply Hnone.
Qed.
End Facts.
End RegistryFacts.

Lemma truthy_string_present (s : option string) :
  truthy_string s = true ↔ present s.
Proof.
  unfold present. destruct s as [x|]; cbn.
  - destruct (String.eqb_spec x "") as [->|Hne]; cbn.
    + split; [done|]. by intros (y & [= <-] & Hy).
    + split; [|done]. intros _. by exists x.
  - split; [done|]. by intros (y & ? & _).
Qed.

Lemma string_or_title_after (frame : Frame) (title : string) :
  string_or (frame_name frame) title = title_after frame title.
Proof.
  unfold string_or, title_after. destruct (frame_name frame) as [name|]; [|done].
  destruct (String.eqb_spec name "") as [->|Hne].
  - by rewrite decide_True.
  - by rewrite decide_False.
Qed.

Lemma trackTargets_keys (ev : CDPEvent) (m : JsMap.t string ConnectedTarget) :
  NoDup (JsMap.keys m) → NoDup (JsMap.keys (trackTargets ev m)).
Proof.
  intros Hnd. destruct ev as [e [[[sid info] w]|] | e [sid|] | e [info|]
                              | [sid|] [frame|] | method e params];
    cbn [trackTargets]; try done.
  - by apply JsMapFacts.NoDup_keys_set.
  - by apply JsMapFacts.NoDup_keys_delete.
  - by rewrite JsMapFacts.keys_update_first.
  - destruct (_ && _); [|done].
    destruct (JsMap.get sid m); [|done]. by apply JsMapFacts.NoDup_keys_set.
Qed.

(** The code's bookkeeping is one of the updates the specification allows. *)
Lemma trackTargets_refines (ev : CDPEvent) (m : JsMap.t string ConnectedTarget) :
  NoDup (JsMap.keys m) →
  registry_step (list_to_map m) ev (list_to_map (trackTargets ev m)).
Proof.
  intros Hnd. destruct ev as [e [[[sid info] w]|] | e [sid|] | e [info|]
                              | e [frame|] | method e params];
    try (by apply reg_without_params).
  - cbn [trackTargets]. rewrite RegistryFacts.to_map_set. apply reg_attached.
  - cbn [trackTargets]. rewrite RegistryFacts.to_map_delete. apply reg_detached.
  - cbn [trackTargets].
    destruct (RegistryFacts.to_map_update_first
                (λ target, String.eqb (ct_targetId target) (ti_targetId info))
                (with_targetInfo info) m Hnd)
      as [(k & t & Hlook & Hp & Heq)|[Hnone Hsame]].
    + rewrite Heq. apply reg_infoChanged; [done|]. by apply String.eqb_eq.
    + rewrite Hsame. apply reg_infoChanged_unknown.
      intros sid t Hlook Heq. apply Hnone in Hlook.
      apply String.eqb_neq in Hlook. done.
  - destruct e as [sid|].
    2:{ apply reg_navigated_ignored. left. by intros (x & ? & _). }
    cbn [trackTargets].
    destruct (truthy_string (Some sid)) eqn:Hsid.
    2:{ apply reg_navigated_ignored. left. intros Hp.
        apply truthy_string_present in Hp. congruence. }
    destruct (truthy_string (frame_parentId frame)) eqn:Hparent.
    { apply reg_navigated_ignored. right. left. by apply truthy_string_present. }
    cbn [andb negb].
    destruct (JsMap.get sid m) as [target|] eqn:Hget.
    2:{ apply reg_navigated_ignored. right. right.
        intros ? [= <-]. by rewrite RegistryFacts.to_map_get. }
    rewrite RegistryFacts.to_map_set.
    replace (with_targetInfo (navigated frame (ct_targetInfo target)) target)
      with (spec_navigated frame target).
    2:{ unfold spec_navigated, with_targetInfo, navigated.
        by rewrite string_or_title_after. }
    apply reg_navigated.
    + apply truthy_string_present in Hsid as (x & [= <-] & Hx). done.
    + intros Hp. apply truthy_string_present in Hp. congruence.
    + by rewrite RegistryFacts.to_map_get.
  - by destruct e; apply reg_without_params.
Qed.

(** An event from the browser peer: the registry is updated by
    [trackTargets], whether or not the broadcast that follows throws, and
    nothing else in the room changes. *)
Lemma step_event hash ws ev r :
  tag_of ws r = Some TagExtension →
  (step hash (event_from ws ev) r).1 =
    set_connectedTargets (trackTargets ev (connectedTargets r)) r.
Proof.
  intros Htag. unfold event_from. cbn [step]. rewrite run_unfold.
  assert (Hh : ∃ res,
    webSocketMessage ws (Some (FromExtension (ExtensionEventMessage ev))) r =
      (res, set_connectedTargets (trackTargets ev (connectedTargets r)) r,
       (λ a, Send a (W_event ev)) <$>
         open_prefix (set_connectedTargets (trackTargets ev (connectedTargets r)) r)
           (getMcpWebSockets r))).
  { unfold webSocketMessage, bind at 1, gets at 1. rewrite Htag.
    cbn [handleExtensionMessage]. unfold bind at 1, modify at 1.
    unfold broadcastToMcpClients, bind at 1, gets at 1.
    rewrite for_each_send. eexists. done. }
  destruct Hh as [res Hh]. rewrite Hh. cbn [state_of effects_of fst snd].
  apply reactions_same_room. apply Forall_fmap, Forall_forall. by intros a _.
Qed.

Lemma keeps_registry_keys_compositional : Compositional keeps_registry_keys.
Proof.
  split.
  - by intros r Hnd.
  - intros r1 r2 r3 o1 o2 H12 H23 Hnd. by apply H23, H12.
Qed.

Ltac keeps_registry_keys_leaf :=
  unfold keeps_registry_keys; cbn;
  first [ by intros ?
        | intros _; apply NoDup_nil_2
        | intros ?; by apply trackTargets_keys ].

Lemma step_keeps_registry_keys hash i r :
  keeps_registry_keys r (step hash i r).1 (step hash i r).2.
Proof.
  pose proof keeps_registry_keys_compositional as HR.
  assert (Hre : ∀ e, respects keeps_registry_keys (reaction e))
    by (intros e; respects_auto HR keeps_registry_keys_leaf).
  destruct i; cbn [step];
    try (apply (respects_run _ HR); [|apply Hre]).
  - unfold fetch, validatePassphrase.
    respects_auto HR keeps_registry_keys_leaf.
  - respects_auto HR keeps_registry_keys_leaf.
  - fold (step hash (In_close ws) r).
    destruct (tag_of ws r) as [tag|] eqn:Htag;
      [|by cbn [step]; rewrite Htag; intros Hnd].
    rewrite (step_close hash ws r tag Htag). cbn [fst snd]. intros Hnd.
    apply (respects_run _ HR (webSocketClose tag) r); [|apply Hre|done].
    respects_auto HR keeps_registry_keys_leaf.
  - by intros Hnd.
  - respects_auto HR keeps_registry_keys_leaf.
  - respects_auto HR keeps_registry_keys_leaf.
  - destruct (pingInterval r); [|by intros Hnd].
    apply (respects_run _ HR); [|apply Hre].
    respects_auto HR keeps_registry_keys_leaf.
  - respects_auto HR keeps_registry_keys_leaf.
  - respects_auto HR keeps_registry_keys_leaf.
  - respects_auto HR keeps_registry_keys_leaf.
  - respects_auto HR keeps_registry_keys_leaf.
Qed.

Lemma steps_keeps_registry_keys hash inputs r :
  NoDup (JsMap.keys (connectedTargets r)) →
  NoDup (JsMap.keys (connectedTargets (steps hash inputs r).1)).
Proof.
  revert r. induction inputs as [|i inputs IH]; intros r Hnd; [done|].
  cbn [steps].
  pose proof (step_keeps_registry_keys hash i r Hnd) as H1.
  destruct (step hash i r) as [r1 o1]; cbn [fst] in H1.
  specialize (IH r1 H1).
  by destruct (steps hash inputs r1) as [r2 o2].
Qed.

Lemma steps_events hash ws evs r :
  tag_of ws r = Some TagExtension →
  NoDup (JsMap.keys (connectedTargets r)) →
  registry_trace (list_to_map (connectedTargets r)) evs
    (list_to_map (connectedTargets (steps hash (event_from ws <$> evs) r).1)).
Proof.
  revert r. induction evs as [|ev evs IH]; intros r Htag Hnd.
  - apply trace_nil.
  - cbn [fmap list_fmap steps].
    pose proof (step_event hash ws ev r Htag) as Hstep.
    destruct (step hash (event_from ws ev) r) as [r1 o1]; cbn [fst] in Hstep.
    subst r1.
    specialize (IH (set_connectedTargets (trackTargets ev (connectedTargets r)) r)
                  Htag (trackTargets_keys ev _ Hnd)).
    destruct (steps hash _ _) as [r2 o2]; cbn [fst] in *.
    eapply trace_cons; [|exact IH]. by apply trackTargets_refines.
Qed.

(** C4.  In any room the relay can be in, once the browser peer is
    connected on [ws], feeding any sequence of its events leaves a registry
    that the specification's description yields from the registry before:
    attached inserts under the session id, detached removes by session id,
    info-changed replaces the info of a target with that target id, a
    top-frame navigation with a session id sets the url and takes the
    frame's name as title when it is non-empty, and nothing else touches
    the registry. *)
Theorem target_registry_mirrors_lifecycle (hash : string → string)
    (history : list Input) (ws : Socket) (evs : list CDPEvent) :
  let r := (steps hash history new_room).1 in
  tag_of ws r = Some TagExtension →
  registry_trace (list_to_map (connectedTargets r)) evs
    (list_to_map (connectedTargets (steps hash (event_from ws <$> evs) r).1)).
Proof.
  intros r Htag. apply steps_events; [done|].
  apply steps_keeps_registry_keys. apply NoDup_nil_2.
Qed.

(** Scenario S2: the registry after the browser peer's three events. *)
Lemma target_registry_mirrors_lifecycle_witness :
  tag_of 1%nat (steps toy_hash history_browser_connects new_room).1 = Some TagExtension
  ∧ registry_trace ∅ events_S2
      (list_to_map
         [("s1", {| ct_sessionId := "s1"; ct_targetId := "t1";
                    ct_targetInfo := page "t1" "/a2" |});
          ("s2", {| ct_sessionId := "s2"; ct_targetId := "t2";
                    ct_targetInfo := page "t2" "/b" |})]).
Proof.
  split; [reflexivity|].
  exact (target_registry_mirrors_lifecycle toy_hash history_browser_connects
           1%nat events_S2 eq_refl).
Defined.

(** ** Correlation ids *)

Lemma ext_dispatched_app (o1 o2 : list Effect) :
  ext_dispatched (o1 ++ o2) = ext_dispatched o1 ++ ext_dispatched o2.
Proof.
  induction o1 as [|e o1 IH]; [done|].
  destruct e as [ws [| | | | | | |]| | | | | |]; cbn; by rewrite ?IH.
Qed.

Lemma local_dispatched_app (o1 o2 : list Effect) :
  local_dispatched (o1 ++ o2) = local_dispatched o1 ++ local_dispatched o2.
Proof.
  induction o1 as [|e o1 IH]; [done|].
  destruct e as [ws [| | | | | | |]| | | | | |]; cbn; by rewrite ?IH.
Qed.

Lemma sorted_ranges_app (lo mid hi : Z) (l1 l2 : list Z) :
  StronglySorted Z.lt l1 → Forall (λ id, lo < id ≤ mid) l1 →
  StronglySorted Z.lt l2 → Forall (λ id, mid < id ≤ hi) l2 →
  lo ≤ mid → mid ≤ hi →
  StronglySorted Z.lt (l1 ++ l2) ∧ Forall (λ id, lo < id ≤ hi) (l1 ++ l2).
Proof.
  intros Hs1 Hf1 Hs2 Hf2 Hlo Hhi. split.
  - apply StronglySorted_app_2; [|done|done].
    intros x1 x2 Hx1 Hx2. rewrite Forall_forall in Hf1, Hf2.
    specialize (Hf1 x1 Hx1). specialize (Hf2 x2 Hx2). lia.
  - apply Forall_app. split.
    + eapply Forall_impl; [exact Hf1|]. intros x ?. cbn in *. lia.
    + eapply Forall_impl; [exact Hf2|]. intros x ?. cbn in *. lia.
Qed.

Lemma multiplexer_step_compositional : Compositional multiplexer_step.
Proof.
  split.
  - intros r. unfold multiplexer_step. cbn.
    split_and!; try done; constructor.
  - intros r1 r2 r3 o1 o2 (Hm1 & Hl1 & Hs1 & Hf1 & Hsl1 & Hfl1 & Hwf1)
                          (Hm2 & Hl2 & Hs2 & Hf2 & Hsl2 & Hfl2 & Hwf2).
    unfold multiplexer_step. rewrite ext_dispatched_app, local_dispatched_app.
    destruct (sorted_ranges_app _ _ _ _ _ Hs1 Hf1 Hs2 Hf2 Hm1 Hm2) as [? ?].
    destruct (sorted_ranges_app _ _ _ _ _ Hsl1 Hfl1 Hsl2 Hfl2 Hl1 Hl2) as [? ?].
    split_and!; try done; try lia. intros Hwf. by apply Hwf2, Hwf1.
Qed.

Lemma keys_delete_bounded {V} (bound id : Z) (m : JsMap.t Z V) :
  Forall (λ k, k ≤ bound) (JsMap.keys m) →
  Forall (λ k, k ≤ bound) (JsMap.keys (JsMap.delete id m)).
Proof.
  rewrite JsMapFacts.keys_delete, !Forall_forall.
  intros H k Hk. apply list_elem_of_filter in Hk as [_ Hk]. by apply H.
Qed.

Lemma keys_set_bounded {V} (bound id : Z) (v : V) (m : JsMap.t Z V) :
  id ≤ bound →
  Forall (λ k, k ≤ bound) (JsMap.keys m) →
  Forall (λ k, k ≤ bound) (JsMap.keys (JsMap.set id v m)).
Proof.
  intros Hid H. destruct (decide (id ∈ JsMap.keys m)) as [Hin|Hnin].
  - by rewrite JsMapFacts.keys_set_present.
  - rewrite JsMapFacts.keys_set_fresh by done.
    apply Forall_app. split; [done|]. by constructor.
Qed.

Lemma sendToExtension_multiplexer ws command clientId timeout :
  respects multiplexer_step (sendToExtension ws command clientId timeout).
Proof.
  intros r. unfold sendToExtension, bind, gets, modify, ret, throw, ws_send.
  destruct (getExtensionWebSocket r) as [ext|];
    [|apply (comp_refl _ multiplexer_step_compositional)].
  cbn. destruct (socket_open ext _);
    cbn; unfold multiplexer_step, pending_wf; cbn.
  - split_and!; try done; try lia; try (by repeat constructor).
    + repeat constructor; lia.
    + intros (Hnd & Hb & Hndl & Hbl). split_and!; try done.
      * by apply JsMapFacts.NoDup_keys_set.
      * apply keys_set_bounded; [lia|].
        eapply Forall_impl; [exact Hb|]. intros k ?. cbn in *. lia.
  - split_and!; try done; try lia; try (by repeat constructor).
    intros (Hnd & Hb & Hndl & Hbl). split_and!; try done.
    eapply Forall_impl; [exact Hb|]. intros k ?. cbn in *. lia.
Qed.

Lemma sendToLocalClient_multiplexer method params timeout caller :
  respects multiplexer_step (sendToLocalClient method params timeout caller).
Proof.
  intros r. unfold sendToLocalClient, bind, gets, modify, ret, throw, ws_send.
  destruct (getLocalWebSocket r) as [loc|];
    [|apply (comp_refl _ multiplexer_step_compositional)].
  cbn. destruct (socket_open loc _);
    cbn; unfold multiplexer_step, pending_wf; cbn.
  - split_and!; try done; try lia; try (by repeat constructor).
    + repeat constructor; lia.
    + intros (Hnd & Hb & Hndl & Hbl). split_and!; try done.
      * by apply JsMapFacts.NoDup_keys_set.
      * apply keys_set_bounded; [lia|].
        eapply Forall_impl; [exact Hbl|]. intros k ?. cbn in *. lia.
  - split_and!; try done; try lia; try (by repeat constructor).
    intros (Hnd & Hb & Hndl & Hbl). split_and!; try done.
    eapply Forall_impl; [exact Hbl|]. intros k ?. cbn in *. lia.
Qed.

Ltac multiplexer_leaf :=
  unfold multiplexer_step, pending_wf; cbn;
  split_and!; try done; try lia; try (by constructor);
  intros (Hnd & Hb & Hndl & Hbl); split_and!; try done;
  first [ by apply JsMapFacts.NoDup_keys_delete
        | by apply keys_delete_bounded
        | by constructor ].

Ltac multiplexer_atomic :=
  first [ apply sendToExtension_multiplexer
        | apply sendToLocalClient_multiplexer ].

Lemma step_multiplexer hash i r :
  multiplexer_step r (step hash i r).1 (step hash i r).2.
Proof.
  pose proof multiplexer_step_compositional as HR.
  assert (Hre : ∀ e, respects multiplexer_step (reaction e))
    by (intros e; respects_with HR multiplexer_leaf multiplexer_atomic).
  destruct i; cbn [step];
    try (apply (respects_run _ HR); [|apply Hre]).
  - unfold fetch, validatePassphrase.
    respects_with HR multiplexer_leaf multiplexer_atomic.
  - respects_with HR multiplexer_leaf multiplexer_atomic.
  - fold (step hash (In_close ws) r).
    destruct (tag_of ws r) as [tag|] eqn:Htag;
      [|cbn [step]; rewrite Htag; apply (comp_refl _ HR)].
    rewrite (step_close hash ws r tag Htag). cbn [fst snd].
    assert (Hrm : ∀ r1, multiplexer_step r1 (remove_peer ws r1) []) by (intros r1; multiplexer_leaf).
    assert (Hcl : respects multiplexer_step (webSocketClose tag))
      by respects_with HR multiplexer_leaf multiplexer_atomic.
    rewrite <- (app_nil_r (run _ r).2).
    apply (comp_trans _ HR _ _ _ _ _
             (respects_run _ HR (webSocketClose tag) r Hcl Hre) (Hrm _)).
  - multiplexer_leaf.
  - respects_with HR multiplexer_leaf multiplexer_atomic.
  - respects_with HR multiplexer_leaf multiplexer_atomic.
  - destruct (pingInterval r); [|apply (comp_refl _ HR)].
    apply (respects_run _ HR); [|apply Hre].
    respects_with HR multiplexer_leaf multiplexer_atomic.
  - respects_with HR multiplexer_leaf multiplexer_atomic.
  - respects_with HR multiplexer_leaf multiplexer_atomic.
  - respects_with HR multiplexer_leaf multiplexer_atomic.
  - respects_with HR multiplexer_leaf multiplexer_atomic.
Qed.

Lemma steps_multiplexer hash inputs r :
  multiplexer_step r (steps hash inputs r).1 (steps hash inputs r).2.
Proof.
  pose proof multiplexer_step_compositional as HR.
  revert r. induction inputs as [|i inputs IH]; intros r; [apply (comp_refl _ HR)|].
  cbn [steps].
  pose proof (step_multiplexer hash i r) as H1.
  destruct (step hash i r) as [r1 o1]; cbn [fst snd] in H1.
  specialize (IH r1).
  destruct (steps hash inputs r1) as [r2 o2]; cbn [fst snd] in *.
  by apply (comp_trans _ HR) with r1.
Qed.

Lemma new_room_pending_wf : pending_wf new_room.
Proof. unfold pending_wf. cbn. split_and!; constructor. Qed.

(** C6.  While the object of a room stays in memory, over any sequence of
    events from its construction on, for the browser and for the local
    multiplexer: the ids of the dispatched commands are strictly increasing
    in dispatch order and each lies above zero and up to the counter; the
    ids in the pending table are pairwise distinct and none is above the
    counter, so the next id is not in the table; and whatever happens next,
    connects and disconnects of any peer included, the counter does not go
    down and later ids lie above it. *)
Theorem correlation_ids_increase (hash : string → string) (inputs : list Input) :
  let r := (steps hash inputs new_room).1 in
  let log := (steps hash inputs new_room).2 in
  (StronglySorted Z.lt (ext_dispatched log)
   ∧ Forall (λ id, 0 < id ≤ messageId r) (ext_dispatched log)
   ∧ NoDup (JsMap.keys (pendingRequests r))
   ∧ Forall (λ id, id ≤ messageId r) (JsMap.keys (pendingRequests r)))
  ∧ (StronglySorted Z.lt (local_dispatched log)
     ∧ Forall (λ id, 0 < id ≤ localMessageId r) (local_dispatched log)
     ∧ NoDup (JsMap.keys (pendingLocalRequests r))
     ∧ Forall (λ id, id ≤ localMessageId r) (JsMap.keys (pendingLocalRequests r)))
  ∧ ∀ later : list Input,
      let r' := (steps hash later r).1 in
      let log' := (steps hash later r).2 in
      messageId r ≤ messageId r'
      ∧ localMessageId r ≤ localMessageId r'
      ∧ Forall (λ id, messageId r < id) (ext_dispatched log')
      ∧ Forall (λ id, localMessageId r < id) (local_dispatched log').
Proof.
  cbn zeta.
  destruct (steps_multiplexer hash inputs new_room)
    as (Hm & Hl & Hs & Hf & Hsl & Hfl & Hwf).
  destruct (Hwf new_room_pending_wf) as (Hnd & Hb & Hndl & Hbl).
  split_and!; try done.
  intros later.
  destruct (steps_multiplexer hash later (steps hash inputs new_room).1)
    as (Hm' & Hl' & _ & Hf' & _ & Hfl' & _).
  split_and!; try done.
  - eapply Forall_impl; [exact Hf'|]. intros id ?. cbn in *. lia.
  - eapply Forall_impl; [exact Hfl'|]. intros id ?. cbn in *. lia.
Qed.

(** C6 as stated fails over the life of a room.  The counters are fields of
    the object.  After [history_before_sleep] agent [c] is connected, the
    passphrase is stored, no request is pending and the interval is not
    set; when the platform constructs the object again for the next event,
    the sockets and the passphrase are what they were and the counter is
    back at zero: the command of [c] is dispatched under id 1, as the
    command of [a] was before. *)
Lemma ids_restart_after_wake :
  let asleep := (steps toy_hash history_before_sleep new_room).1 in
  let first_life := (steps toy_hash history_before_sleep new_room).2 in
  let second_life := (steps toy_hash history_after_wake (wake asleep)).2 in
  (pingInterval asleep = false
   ∧ pendingRequests asleep = JsMap.empty
   ∧ pendingLocalRequests asleep = JsMap.empty)
  ∧ (getMcpWebSockets asleep = [3%nat]
     ∧ peers (wake asleep) = peers asleep
     ∧ auth (wake asleep) = auth asleep
     ∧ auth asleep = Some {| passphraseHash := "sha256:p"; createdAt := 0 |})
  ∧ ext_dispatched first_life = [1]
  ∧ ext_dispatched second_life = [1]
  ∧ ¬ StronglySorted Z.lt (ext_dispatched (first_life ++ second_life)).
Proof.
  cbn zeta. split_and!; try (vm_compute; reflexivity).
  assert (Hids : ext_dispatched
                   ((steps toy_hash history_before_sleep new_room).2 ++
                    (steps toy_hash history_after_wake
                       (wake (steps toy_hash history_before_sleep new_room).1)).2)
                 = [1; 1]) by (vm_compute; reflexivity).
  rewrite Hids. intros Hsorted.
  apply StronglySorted_inv in Hsorted as [_ Hlt].
  apply Forall_inv in Hlt. lia.
Qed.

(** The ids 1, 2, 3 are dispatched across a reconnect of the browser peer;
    the third request times out as in scenario S5. *)
Example ids_across_reconnect :
  ext_dispatched (steps toy_hash run_with_reconnect room_two_agents).2 = [1; 2; 3]
  ∧ messageId (steps toy_hash run_with_reconnect room_two_agents).1 = 3
  ∧ last (steps toy_hash run_with_reconnect room_two_agents).2 =
      Some (Send 5%nat
              (W_error 12 (Some "s1")
                 "Extension request timeout after 30000ms: Page.navigate")).
Proof. split_and!; reflexivity. Qed.

(** * Further properties of the relay *)

(** ** Running handlers that settle nothing *)

Lemma reactions_silent (log : list Effect) (r : Room) :
  Forall (λ e, is_settlement e = false) log →
  for_each log reaction r = (Ok tt, r, []).
Proof.
  induction 1 as [|e log He _ IH]; [done|].
  cbn [for_each]. unfold bind.
  assert (Hre : reaction e r = (Ok tt, r, [])) by (by destruct e).
  by rewrite Hre, IH.
Qed.

Lemma run_silent {A} (m : M A) (r r1 : Room) (res : Result A) (log : list Effect) :
  m r = (res, r1, log) →
  Forall (λ e, is_settlement e = false) log →
  run m r = (r1, log).
Proof.
  intros Hm Hlog. unfold run. rewrite Hm, (reactions_silent log r1 Hlog).
  by rewrite app_nil_r.
Qed.

Lemma for_each_send_same {A} (l : list A) (ws : Socket) (f : A → Wire) (r : Room) :
  socket_open ws r = true →
  for_each l (λ x, ws_send ws (f x)) r = (Ok tt, r, (λ x, Send ws (f x)) <$> l).
Proof.
  intros Hopen. induction l as [|x l IH]; [done|].
  cbn [for_each]. unfold bind, ws_send at 1. rewrite Hopen, IH. done.
Qed.

Lemma ws_send_open (ws : Socket) (w : Wire) (r : Room) :
  socket_open ws r = true → ws_send ws w r = (Ok tt, r, [Send ws w]).
Proof. intros Hopen. unfold ws_send. by rewrite Hopen. Qed.

Lemma sends_settle_nothing {A} (l : list A) (ws : Socket) (f : A → Wire) :
  Forall (λ e, is_settlement e = false) ((λ x, Send ws (f x)) <$> l).
Proof. apply Forall_fmap, Forall_forall. by intros x _. Qed.

(** ** Messages that are consumed *)

Lemma unknown_response_is_dropped (hash : string → string) (ws : Socket)
    (r : Room) (id : Z) (result error : option string) :
  JsMap.get id (pendingRequests r) = None →
  step hash
    (In_message ws (Some (FromExtension (ExtensionResponseMessage id result error))))
    r = (r, []).
Proof.
  intros Hid. cbn [step]. unfold run, webSocketMessage, bind, gets.
  destruct (tag_of ws r) as [[| |]|]; try done.
  cbn [handleExtensionMessage]. unfold bind, gets. by rewrite Hid.
Qed.

(** X1.  Text that is not JSON, on any socket, and on the socket of the
    browser peer or of the local client a pong, a log line, or a response
    whose id is not (or no longer) pending in that peer's multiplexer leave
    the room exactly as it was and make the relay send nothing. *)
Theorem ignored_messages_change_nothing (hash : string → string) (ws : Socket)
    (r : Room) (data : option Data) :
  consumed_silently ws r data →
  step hash (In_message ws data) r = (r, []).
Proof.
  intros Hdata. cbn [step]. unfold run, webSocketMessage, bind, gets.
  destruct Hdata as [|Htag|? ? Htag|? ? ? Htag Hid|? Htag|? ? ? Htag|? ? ? ? Htag Hid];
    [by destruct (tag_of ws r) as [[| |]|]|rewrite Htag..];
    cbn [handleExtensionMessage handleLocalMessage]; unfold bind, gets;
    by rewrite ?Hid.
Qed.

(** A response to request 1 of [room_busy] arrives twice on the browser
    peer's socket: the second time it is no longer pending. *)
Lemma ignored_messages_change_nothing_witness :
  let late :=
    Some (FromExtension (ExtensionResponseMessage 1 (Some "{}") None)) in
  let r := (step toy_hash (In_message 1%nat late) room_busy).1 in
  consumed_silently 1%nat r late
  ∧ step toy_hash (In_message 1%nat late) r = (r, []).
Proof.
  cbn zeta. split.
  - by apply silent_extension_response.
  - apply ignored_messages_change_nothing. by apply silent_extension_response.
Defined.

(** ** Commands of an agent *)

(** X2.  A command from an agent while no browser peer is listed is answered
    to that agent with the error "Extension not connected" under the
    command's own id and session; the room is unchanged, so the agent stays
    connected and nothing is queued. *)
Theorem command_without_browser (hash : string → string) (ws : Socket)
    (clientId : string) (command : CDPCommand) (r : Room) :
  tag_of ws r = Some (TagMcp clientId) →
  socket_open ws r = true →
  getExtensionWebSocket r = None →
  step hash (In_message ws (Some (FromMcp command))) r =
    (r, [Send ws (W_error (cmd_id command) (cmd_sessionId command)
                    "Extension not connected")]).
Proof.
  intros Htag Hopen Hext. cbn [step].
  apply (run_silent _ _ _ (Ok tt)); [|by repeat constructor].
  unfold webSocketMessage, bind at 1, gets at 1. rewrite Htag.
  unfold handleMcpMessage, bind at 1, gets at 1. rewrite Hext.
  by rewrite ws_send_open.
Qed.

Lemma command_without_browser_witness :
  step toy_hash (In_message 2%nat (Some (FromMcp command_of_a))) room_agent_alone =
    (room_agent_alone,
     [Send 2%nat (W_error (cmd_id command_of_a) (cmd_sessionId command_of_a)
                    "Extension not connected")]).
Proof.
  exact (command_without_browser toy_hash 2%nat "a" command_of_a room_agent_alone
           eq_refl eq_refl eq_refl).
Defined.

Lemma browser_untouched_compositional : Compositional browser_untouched.
Proof.
  split.
  - by intros r.
  - intros r1 r2 r3 o1 o2 (Hm1 & Hp1 & Ht1 & Hd1) (Hm2 & Hp2 & Ht2 & Hd2).
    unfold browser_untouched. rewrite ext_dispatched_app, Hd1, Hd2.
    split_and!; [congruence..|done].
Qed.

Ltac browser_untouched_leaf := by (unfold browser_untouched; cbn).

Lemma reaction_browser_untouched (e : Effect) :
  respects browser_untouched (reaction e).
Proof.
  respects_auto browser_untouched_compositional browser_untouched_leaf.
Qed.

Lemma replyToMcp_browser_untouched ws command result :
  respects browser_untouched (replyToMcp ws command result).
Proof.
  respects_auto browser_untouched_compositional browser_untouched_leaf.
Qed.

Lemma routeCdpCommand_local_browser_untouched ws command clientId :
  cmd_method command ∈ answered_locally
  ∨ (cmd_method command = "Target.setAutoAttach"
     ∧ truthy_string (cmd_sessionId command) = false) →
  respects browser_untouched (routeCdpCommand ws command clientId).
Proof.
  pose proof browser_untouched_compositional as HR.
  intros [Hin|[Hm Hs]]; unfold routeCdpCommand.
  - unfold answered_locally in Hin.
    repeat (apply elem_of_cons in Hin as [->|Hin]);
      [..|by apply elem_of_nil in Hin];
      cbn [String.eqb Ascii.eqb Bool.eqb];
      respects_auto HR browser_untouched_leaf.
  - rewrite Hm, Hs. cbn [String.eqb Ascii.eqb Bool.eqb].
    respects_auto HR browser_untouched_leaf.
Qed.

(** X3.  A command whose method the router answers itself
    ([Browser.getVersion], [Browser.setDownloadBehavior],
    [Target.setDiscoverTargets], [Target.attachToTarget],
    [Target.getTargetInfo], [Target.getTargets], and [Target.setAutoAttach]
    without a session) never reaches the browser peer: whatever the room and
    whatever the outcome, no command is forwarded, the browser counter and
    pending table are unchanged, and the target registry is unchanged. *)
Theorem answered_locally_never_forwarded (hash : string → string)
    (ws : Socket) (command : CDPCommand) (r : Room) :
  cmd_method command ∈ answered_locally
  ∨ (cmd_method command = "Target.setAutoAttach"
     ∧ truthy_string (cmd_sessionId command) = false) →
  let out := step hash (In_message ws (Some (FromMcp command))) r in
  ext_dispatched out.2 = []
  ∧ messageId out.1 = messageId r
  ∧ pendingRequests out.1 = pendingRequests r
  ∧ connectedTargets out.1 = connectedTargets r.
Proof.
  intros Hm. cbn zeta.
  pose proof browser_untouched_compositional as HR.
  assert (H : browser_untouched r
                (step hash (In_message ws (Some (FromMcp command))) r).1
                (step hash (In_message ws (Some (FromMcp command))) r).2).
  { cbn [step]. apply (respects_run _ HR); [|apply reaction_browser_untouched].
    unfold webSocketMessage. apply (respects_bind _ HR); [apply (respects_gets _ HR)|].
    intros [[|clientId|]|]; try apply (respects_ret _ HR).
    unfold handleMcpMessage.
    apply (respects_bind _ HR); [apply (respects_gets _ HR)|].
    intros [ext|].
    2:{ respects_auto HR browser_untouched_leaf. }
    apply (respects_try_catch _ HR).
    - apply (respects_bind _ HR);
        [by apply routeCdpCommand_local_browser_untouched|].
      intros [result|id]; [apply replyToMcp_browser_untouched|apply (respects_ret _ HR)].
    - intros e. respects_auto HR browser_untouched_leaf. }
  destruct H as (? & ? & ? & ?). done.
Qed.

Lemma answered_locally_never_forwarded_witness :
  "Target.getTargets" ∈ answered_locally
  ∧ ext_dispatched
      (step toy_hash
         (In_message 2%nat
            (Some (FromMcp {| cmd_id := 7; cmd_method := "Target.getTargets";
                              cmd_params := None; cmd_sessionId := None |})))
         room_busy).2 = [].
Proof.
  assert (Hin : "Target.getTargets" ∈ answered_locally)
    by (refine (bool_decide_unpack _ _); vm_compute; exact I).
  split; [exact Hin|].
  refine (proj1 (answered_locally_never_forwarded toy_hash 2%nat
                   {| cmd_id := 7; cmd_method := "Target.getTargets";
                      cmd_params := None; cmd_sessionId := None |}
                   room_busy (or_introl Hin))).
Defined.

(** ** Forwarded commands *)

Lemma eqb_not_listed (m x : string) (l : list string) :
  m ∉ l → x ∈ l → String.eqb m x = false.
Proof.
  intros Hm Hx. apply String.eqb_neq. intros ->. done.
Qed.

(** Membership in a list of literals, by evaluation. *)
Ltac listed := refine (bool_decide_unpack _ _); vm_compute; exact I.

Ltac method_not_listed H :=
  repeat match goal with
    | |- context [String.eqb (cmd_method ?c) ?x] =>
        rewrite (eqb_not_listed (cmd_method c) x _ H) by listed
    end.

Lemma sendToExtension_dispatch ws command clientId r ext :
  getExtensionWebSocket r = Some ext → socket_open ext r = true →
  let id := messageId r + 1 in
  sendToExtension ws command clientId None r =
    (Ok id,
     set_pendingRequests
       (JsMap.set id {| pr_mcpClientId := clientId; pr_timeout := 30000;
                        pr_ws := ws; pr_command := command |}
          (pendingRequests r))
       (set_messageId id r),
     [Send ext (W_forwardCDPCommand id (cmd_method command) (cmd_params command)
                  (cmd_sessionId command))]).
Proof.
  intros Hext Hopen. unfold sendToExtension, bind, gets, modify, ret, ws_send.
  rewrite Hext. cbn. unfold socket_open in *. cbn. by rewrite Hopen.
Qed.

Lemma routeCdpCommand_other ws command clientId :
  cmd_method command ∉ router_methods →
  routeCdpCommand ws command clientId =
    (let* id := sendToExtension ws command clientId None in ret (Forwarded id)).
Proof.
  intros Hm. unfold routeCdpCommand. by method_not_listed Hm.
Qed.

Lemma replyToMcp_plain ws command result r :
  cmd_method command ∉ router_methods →
  socket_open ws r = true →
  replyToMcp ws command result r =
    (Ok tt, r, [Send ws (W_response (cmd_id command) (cmd_sessionId command) result)]).
Proof.
  intros Hm Hopen. unfold replyToMcp. method_not_listed Hm.
  cbn [andb when]. unfold bind, gets, ret. by rewrite ws_send_open.
Qed.

Lemma step_forward hash ws clientId ext command r :
  tag_of ws r = Some (TagMcp clientId) →
  getExtensionWebSocket r = Some ext →
  socket_open ext r = true →
  cmd_method command ∉ router_methods →
  let id := messageId r + 1 in
  step hash (In_message ws (Some (FromMcp command))) r =
    (set_pendingRequests
       (JsMap.set id {| pr_mcpClientId := clientId; pr_timeout := 30000;
                        pr_ws := ws; pr_command := command |}
          (pendingRequests r))
       (set_messageId id r),
     [Send ext (W_forwardCDPCommand id (cmd_method command) (cmd_params command)
                  (cmd_sessionId command))]).
Proof.
  intros Htag Hext Hopen Hm id. cbn [step].
  apply (run_silent _ _ _ (Ok tt)); [|by repeat constructor].
  unfold webSocketMessage, bind at 1, gets at 1. rewrite Htag.
  unfold handleMcpMessage, bind at 1, gets at 1. rewrite Hext.
  unfold try_catch. rewrite (routeCdpCommand_other _ _ _ Hm).
  unfold bind at 1. unfold bind at 1.
  by rewrite (sendToExtension_dispatch _ _ _ _ _ Hext Hopen).
Qed.

(** X4.  A command whose method the router has no case for is forwarded to
    the browser peer once and verbatim: the envelope carries the command's
    method, params and session id under the next browser correlation id, a
    pending entry with the agent's client id and a 30 s deadline is
    recorded, and nothing is sent to the agent yet. *)
Theorem unrouted_command_is_forwarded_verbatim (hash : string → string)
    (ws : Socket) (clientId : string) (ext : Socket) (command : CDPCommand)
    (r : Room) :
  tag_of ws r = Some (TagMcp clientId) →
  getExtensionWebSocket r = Some ext →
  socket_open ext r = true →
  cmd_method command ∉ router_methods →
  let id := messageId r + 1 in
  let out := step hash (In_message ws (Some (FromMcp command))) r in
  out.2 = [Send ext (W_forwardCDPCommand id (cmd_method command)
                       (cmd_params command) (cmd_sessionId command))]
  ∧ messageId out.1 = id
  ∧ JsMap.get id (pendingRequests out.1) =
      Some {| pr_mcpClientId := clientId; pr_timeout := 30000; pr_ws := ws;
              pr_command := command |}
  ∧ (∀ id', id' ≠ id →
       JsMap.get id' (pendingRequests out.1) = JsMap.get id' (pendingRequests r))
  ∧ connectedTargets out.1 = connectedTargets r
  ∧ peers out.1 = peers r.
Proof.
  intros Htag Hext Hopen Hm. cbn zeta.
  rewrite (step_forward hash ws clientId ext command r Htag Hext Hopen Hm).
  cbn. split_and!; try done.
  - apply JsMapFacts.get_set_eq.
  - intros id' Hne. by apply JsMapFacts.get_set_ne.
Qed.

Lemma unrouted_command_is_forwarded_verbatim_witness :
  (step toy_hash (In_message 2%nat (Some (FromMcp (forwarded 10 "Page.enable"))))
     room_two_agents).2 =
    [Send 1%nat (W_forwardCDPCommand 1 "Page.enable" None (Some "s1"))].
Proof.
  refine (proj1 (unrouted_command_is_forwarded_verbatim toy_hash 2%nat "a" 1%nat
                   (forwarded 10 "Page.enable") room_two_agents
                   eq_refl eq_refl eq_refl _)).
  intros Hin. revert Hin. refine (bool_decide_unpack _ _). vm_compute. exact I.
Defined.

Lemma step_browser_reply hash ext id p result r :
  tag_of ext r = Some TagExtension →
  JsMap.get id (pendingRequests r) = Some p →
  cmd_method (pr_command p) ∉ router_methods →
  socket_open (pr_ws p) r = true →
  step hash (In_message ext
               (Some (FromExtension (ExtensionResponseMessage id result None)))) r =
    (set_pendingRequests (JsMap.delete id (pendingRequests r)) r,
     [SettleExt id p (Ok result);
      Send (pr_ws p)
        (W_response (cmd_id (pr_command p)) (cmd_sessionId (pr_command p))
           (R_remote result))]).
Proof.
  intros Htag Hget Hm Hopen. cbn [step].
  assert (Hh : webSocketMessage ext
                 (Some (FromExtension (ExtensionResponseMessage id result None))) r =
               (Ok tt, set_pendingRequests (JsMap.delete id (pendingRequests r)) r,
                [SettleExt id p (Ok result)])).
  { unfold webSocketMessage, bind at 1, gets at 1. rewrite Htag.
    cbn [handleExtensionMessage]. unfold bind at 1, gets at 1. by rewrite Hget. }
  unfold run. rewrite Hh. cbn [for_each reaction]. unfold bind, resumeMcp, try_catch.
  by rewrite replyToMcp_plain.
Qed.

Lemma step_browser_error hash ext id p result e r :
  tag_of ext r = Some TagExtension →
  JsMap.get id (pendingRequests r) = Some p →
  e ≠ "" →
  socket_open (pr_ws p) r = true →
  step hash (In_message ext
               (Some (FromExtension (ExtensionResponseMessage id result (Some e))))) r =
    (set_pendingRequests (JsMap.delete id (pendingRequests r)) r,
     [SettleExt id p (Throw e);
      Send (pr_ws p)
        (W_error (cmd_id (pr_command p)) (cmd_sessionId (pr_command p)) e)]).
Proof.
  intros Htag Hget He Hopen. cbn [step].
  assert (Hh : webSocketMessage ext
                 (Some (FromExtension (ExtensionResponseMessage id result (Some e)))) r =
               (Ok tt, set_pendingRequests (JsMap.delete id (pendingRequests r)) r,
                [SettleExt id p (Throw e)])).
  { unfold webSocketMessage, bind at 1, gets at 1. rewrite Htag.
    cbn [handleExtensionMessage]. unfold bind at 1, gets at 1. rewrite Hget.
    by rewrite (truthy_string_Some e He). }
  unfold run. rewrite Hh. cbn [for_each reaction].
  unfold bind, resumeMcp, try_catch, throw, replyErrorToMcp.
  by rewrite ws_send_open.
Qed.

Lemma step_browser_timeout hash id p r :
  JsMap.get id (pendingRequests r) = Some p →
  socket_open (pr_ws p) r = true →
  let e := "Extension request timeout after " +:+ pretty (pr_timeout p)
             +:+ "ms: " +:+ cmd_method (pr_command p) in
  step hash (In_extensionTimeout id) r =
    (set_pendingRequests (JsMap.delete id (pendingRequests r)) r,
     [SettleExt id p (Throw e);
      Send (pr_ws p)
        (W_error (cmd_id (pr_command p)) (cmd_sessionId (pr_command p)) e)]).
Proof.
  intros Hget Hopen e. cbn [step].
  assert (Hh : extensionTimeout id r =
               (Ok tt, set_pendingRequests (JsMap.delete id (pendingRequests r)) r,
                [SettleExt id p (Throw e)])).
  { unfold extensionTimeout, bind at 1, gets at 1. by rewrite Hget. }
  unfold run. rewrite Hh. cbn [for_each reaction].
  unfold bind, resumeMcp, try_catch, throw, replyErrorToMcp.
  by rewrite ws_send_open.
Qed.

(** X5.  Round trip of a forwarded command.  When the browser peer answers
    under the correlation id, the agent that sent the command, and no other
    socket, receives the result under the command's own id and session; an
    answer that carries an error reaches it as that error message,
    verbatim.  Either way the pending entry is gone. *)
Theorem forwarded_command_round_trip (hash : string → string) (ws : Socket)
    (clientId : string) (ext : Socket) (command : CDPCommand) (r : Room) :
  tag_of ws r = Some (TagMcp clientId) →
  socket_open ws r = true →
  tag_of ext r = Some TagExtension →
  getExtensionWebSocket r = Some ext →
  socket_open ext r = true →
  cmd_method command ∉ router_methods →
  let id := messageId r + 1 in
  let pending := {| pr_mcpClientId := clientId; pr_timeout := 30000;
                    pr_ws := ws; pr_command := command |} in
  let r1 := (step hash (In_message ws (Some (FromMcp command))) r).1 in
  let answer result error :=
    step hash (In_message ext
                 (Some (FromExtension (ExtensionResponseMessage id result error)))) r1 in
  (∀ result,
     (answer result None).2 =
       [SettleExt id pending (Ok result);
        Send ws (W_response (cmd_id command) (cmd_sessionId command)
                   (R_remote result))]
     ∧ JsMap.get id (pendingRequests (answer result None).1) = None)
  ∧ (∀ result e, e ≠ "" →
       (answer result (Some e)).2 =
         [SettleExt id pending (Throw e);
          Send ws (W_error (cmd_id command) (cmd_sessionId command) e)]
       ∧ JsMap.get id (pendingRequests (answer result (Some e)).1) = None).
Proof.
  intros Htag Hopen Htagx Hext Hopenx Hm. cbn zeta.
  rewrite (step_forward hash ws clientId ext command r Htag Hext Hopenx Hm).
  cbn [fst].
  set (id := messageId r + 1).
  set (pending := {| pr_mcpClientId := clientId; pr_timeout := 30000;
                     pr_ws := ws; pr_command := command |}).
  set (r1 := set_pendingRequests _ _).
  assert (Hget : JsMap.get id (pendingRequests r1) = Some pending)
    by apply JsMapFacts.get_set_eq.
  split.
  - intros result.
    rewrite (step_browser_reply hash ext id pending result r1 Htagx Hget Hm Hopen).
    split; [done|]. cbn. apply JsMapFacts.get_delete_eq.
  - intros result e He.
    rewrite (step_browser_error hash ext id pending result e r1 Htagx Hget He Hopen).
    split; [done|]. cbn. apply JsMapFacts.get_delete_eq.
Qed.

Lemma forwarded_command_round_trip_witness :
  (step toy_hash
     (In_message 1%nat
        (Some (FromExtension (ExtensionResponseMessage 1 (Some "{}") None))))
     (step toy_hash
        (In_message 2%nat (Some (FromMcp (forwarded 10 "Page.enable"))))
        room_two_agents).1).2 =
    [SettleExt 1 {| pr_mcpClientId := "a"; pr_timeout := 30000; pr_ws := 2%nat;
                    pr_command := forwarded 10 "Page.enable" |}
       (Ok (Some "{}"));
     Send 2%nat (W_response 10 (Some "s1") (R_remote (Some "{}")))].
Proof.
  refine (proj1 (proj1 (forwarded_command_round_trip toy_hash 2%nat "a" 1%nat
                          (forwarded 10 "Page.enable") room_two_agents
                          eq_refl eq_refl eq_refl eq_refl eq_refl _) (Some "{}"))).
  intros Hin. revert Hin. refine (bool_decide_unpack _ _). vm_compute. exact I.
Defined.

(** X6.  Timeout of a forwarded command (scenario S5).  When the timer of a
    forwarded command fires, the agent receives the error "Extension request
    timeout after 30000ms: <method>" under the command's id; the entry is
    removed, the sockets are as they were, so the browser peer stays
    connected, and an answer of the browser peer that arrives afterwards is
    dropped. *)
Theorem forwarded_command_times_out (hash : string → string) (ws : Socket)
    (clientId : string) (ext : Socket) (command : CDPCommand) (r : Room) :
  tag_of ws r = Some (TagMcp clientId) →
  socket_open ws r = true →
  getExtensionWebSocket r = Some ext →
  socket_open ext r = true →
  cmd_method command ∉ router_methods →
  let id := messageId r + 1 in
  let r1 := (step hash (In_message ws (Some (FromMcp command))) r).1 in
  let out := step hash (In_extensionTimeout id) r1 in
  Send ws (W_error (cmd_id command) (cmd_sessionId command)
             ("Extension request timeout after 30000ms: " +:+ cmd_method command))
    ∈ out.2
  ∧ ext_dispatched out.2 = []
  ∧ peers out.1 = peers r
  ∧ JsMap.get id (pendingRequests out.1) = None
  ∧ ∀ sender result error,
      step hash (In_message sender
                   (Some (FromExtension (ExtensionResponseMessage id result error))))
        out.1 = (out.1, []).
Proof.
  intros Htag Hopen Hext Hopenx Hm. cbn zeta.
  rewrite (step_forward hash ws clientId ext command r Htag Hext Hopenx Hm).
  cbn [fst].
  set (id := messageId r + 1).
  set (pending := {| pr_mcpClientId := clientId; pr_timeout := 30000;
                     pr_ws := ws; pr_command := command |}).
  set (r1 := set_pendingRequests _ _).
  assert (Hget : JsMap.get id (pendingRequests r1) = Some pending)
    by apply JsMapFacts.get_set_eq.
  rewrite (step_browser_timeout hash id pending r1 Hget Hopen).
  cbn [fst snd]. split_and!.
  - apply list_elem_of_further, list_elem_of_here.
  - done.
  - done.
  - cbn. apply JsMapFacts.get_delete_eq.
  - intros sender result error. apply unknown_response_is_dropped.
    cbn. apply JsMapFacts.get_delete_eq.
Qed.

Lemma forwarded_command_times_out_witness :
  Send 2%nat (W_error 10 (Some "s1")
               "Extension request timeout after 30000ms: Page.enable")
    ∈ (step toy_hash (In_extensionTimeout 1)
         (step toy_hash
            (In_message 2%nat (Some (FromMcp (forwarded 10 "Page.enable"))))
            room_two_agents).1).2.
Proof.
  refine (proj1 (forwarded_command_times_out toy_hash 2%nat "a" 1%nat
                   (forwarded 10 "Page.enable") room_two_agents
                   eq_refl eq_refl eq_refl eq_refl _)).
  intros Hin. revert Hin. refine (bool_decide_unpack _ _). vm_compute. exact I.
Defined.

Lemma silent_while_closed_compositional (ws : Socket) :
  Compositional (silent_while_closed ws).
Proof.
  split.
  - by intros r _.
  - intros r1 r2 r3 o1 o2 H12 H23 Hclosed.
    destruct (H12 Hclosed) as [-> ->]. destruct (H23 Hclosed) as [-> ->]. done.
Qed.

Lemma ws_send_silent_while_closed (ws : Socket) (w : Wire) :
  respects (silent_while_closed ws) (ws_send ws w).
Proof.
  intros r Hclosed. unfold ws_send, state_of, effects_of. by rewrite Hclosed.
Qed.

Lemma resumeMcp_silent_while_closed id p o :
  respects (silent_while_closed (pr_ws p)) (resumeMcp id p o).
Proof.
  respects_with (silent_while_closed_compositional (pr_ws p)) ltac:(done)
    ltac:(apply ws_send_silent_while_closed).
Qed.

(** X7.  An answer, or a timeout, for a command of an agent on whose socket
    the relay has called close is discarded: the request is settled and its
    entry removed, nothing is sent to any socket, and the failed send does
    not disturb the room. *)
Theorem reply_to_closed_agent_is_discarded (hash : string → string)
    (ext : Socket) (id : Z) (p : PendingRequest) (r : Room) :
  tag_of ext r = Some TagExtension →
  JsMap.get id (pendingRequests r) = Some p →
  socket_open (pr_ws p) r = false →
  (∀ result error,
     ∃ outcome,
       step hash (In_message ext
                    (Some (FromExtension (ExtensionResponseMessage id result error)))) r =
         (set_pendingRequests (JsMap.delete id (pendingRequests r)) r,
          [SettleExt id p outcome]))
  ∧ ∃ outcome,
      step hash (In_extensionTimeout id) r =
        (set_pendingRequests (JsMap.delete id (pendingRequests r)) r,
         [SettleExt id p outcome]).
Proof.
  intros Htag Hget Hclosed.
  assert (Hre : ∀ outcome,
    for_each [SettleExt id p outcome] reaction
      (set_pendingRequests (JsMap.delete id (pendingRequests r)) r) =
    (Ok tt, set_pendingRequests (JsMap.delete id (pendingRequests r)) r, [])).
  { intros outcome. cbn [for_each reaction]. unfold bind, try_catch.
    pose proof (resumeMcp_silent_while_closed id p outcome
                  (set_pendingRequests (JsMap.delete id (pendingRequests r)) r)
                  Hclosed) as [Hs Ho].
    unfold state_of, effects_of in Hs, Ho.
    destruct (resumeMcp id p outcome _) as [[[[]|e] r2] o2]; cbn in *; by subst. }
  split.
  - intros result error.
    exists (if truthy_string error then Throw (default "" error) else Ok result).
    cbn [step]. unfold run.
    assert (Hh : webSocketMessage ext
                   (Some (FromExtension (ExtensionResponseMessage id result error))) r =
                 (Ok tt, set_pendingRequests (JsMap.delete id (pendingRequests r)) r,
                  [SettleExt id p (if truthy_string error
                                   then Throw (default "" error) else Ok result)])).
    { unfold webSocketMessage, bind at 1, gets at 1. rewrite Htag.
      cbn [handleExtensionMessage]. unfold bind at 1, gets at 1. rewrite Hget.
      by destruct (truthy_string error). }
    by rewrite Hh, Hre.
  - eexists. cbn [step]. unfold run.
    assert (Hh : extensionTimeout id r =
                 (Ok tt, set_pendingRequests (JsMap.delete id (pendingRequests r)) r,
                  [SettleExt id p
                     (Throw ("Extension request timeout after " +:+
                             pretty (pr_timeout p) +:+ "ms: " +:+
                             cmd_method (pr_command p)))])).
    { unfold extensionTimeout, bind at 1, gets at 1. by rewrite Hget. }
    by rewrite Hh, Hre.
Qed.

(** The command of [room_closed_agent_waits] times out. *)
Lemma reply_to_closed_agent_is_discarded_witness :
  ∃ outcome,
    step toy_hash (In_extensionTimeout 1) room_closed_agent_waits =
      (set_pendingRequests (JsMap.delete 1 (pendingRequests room_closed_agent_waits))
         room_closed_agent_waits,
       [SettleExt 1 {| pr_mcpClientId := "a"; pr_timeout := 30000; pr_ws := 2%nat;
                       pr_command := command_of_a |} outcome]).
Proof.
  exact (proj2 (reply_to_closed_agent_is_discarded toy_hash 4%nat 1
                  {| pr_mcpClientId := "a"; pr_timeout := 30000; pr_ws := 2%nat;
                     pr_command := command_of_a |}
                  room_closed_agent_waits eq_refl eq_refl eq_refl)).
Defined.

(** ** Commands the router answers *)

Lemma step_answered hash ws clientId ext command result r log :
  tag_of ws r = Some (TagMcp clientId) →
  getExtensionWebSocket r = Some ext →
  routeCdpCommand ws command clientId r = (Ok (Answered result), r, []) →
  replyToMcp ws command result r = (Ok tt, r, log) →
  Forall (λ e, is_settlement e = false) log →
  step hash (In_message ws (Some (FromMcp command))) r = (r, log).
Proof.
  intros Htag Hext Hroute Hreply Hlog. cbn [step].
  apply (run_silent _ _ _ (Ok tt)); [|done].
  unfold webSocketMessage, bind at 1, gets at 1. rewrite Htag.
  unfold handleMcpMessage, bind at 1, gets at 1. rewrite Hext.
  unfold try_catch, bind at 1. rewrite Hroute. by rewrite Hreply.
Qed.

Lemma step_refused hash ws clientId ext command e r :
  tag_of ws r = Some (TagMcp clientId) →
  socket_open ws r = true →
  getExtensionWebSocket r = Some ext →
  routeCdpCommand ws command clientId r = (Throw e, r, []) →
  step hash (In_message ws (Some (FromMcp command))) r =
    (r, [Send ws (W_error (cmd_id command) (cmd_sessionId command) e)]).
Proof.
  intros Htag Hopen Hext Hroute. cbn [step].
  apply (run_silent _ _ _ (Ok tt)); [|by repeat constructor].
  unfold webSocketMessage, bind at 1, gets at 1. rewrite Htag.
  unfold handleMcpMessage, bind at 1, gets at 1. rewrite Hext.
  unfold try_catch, bind at 1. rewrite Hroute.
  unfold replyErrorToMcp. by rewrite ws_send_open.
Qed.

Lemma sends_then_reply_settle_nothing {A} (l : list A) (ws : Socket)
    (f : A → Wire) (w : Wire) :
  Forall (λ e, is_settlement e = false) (((λ x, Send ws (f x)) <$> l) ++ [Send ws w]).
Proof.
  apply Forall_app. split; [apply sends_settle_nothing|by repeat constructor].
Qed.

(** X8.  An agent that joins late learns every target the relay knows, in
    the order the targets were registered, before its command is answered:
    [Target.setAutoAttach] without a session is answered by one
    [Target.attachedToTarget] event per target, and
    [Target.setDiscoverTargets] with [discover] set by one
    [Target.targetCreated] event per target (scenario S2); each carries
    [attached: true], the empty result follows, and the room is unchanged. *)
Theorem registry_replayed_to_agent (hash : string → string) (ws ext : Socket)
    (clientId : string) (command : CDPCommand) (r : Room) :
  tag_of ws r = Some (TagMcp clientId) →
  socket_open ws r = true →
  getExtensionWebSocket r = Some ext →
  let reply := Send ws (W_response (cmd_id command) (cmd_sessionId command) R_empty) in
  let targets := JsMap.values (connectedTargets r) in
  (cmd_method command = "Target.setAutoAttach" →
   truthy_string (cmd_sessionId command) = false →
   step hash (In_message ws (Some (FromMcp command))) r =
     (r, ((λ t, Send ws (W_attachedToTarget (ct_sessionId t)
                           (attached_true (ct_targetInfo t)) false)) <$> targets)
         ++ [reply]))
  ∧ (cmd_method command = "Target.setDiscoverTargets" →
     step hash (In_message ws (Some (FromMcp command))) r =
       (r, (if bool_decide (cmd_params command ≫= cp_discover = Some true)
            then (λ t, Send ws (W_targetCreated (attached_true (ct_targetInfo t))))
                   <$> targets
            else [])
           ++ [reply])).
Proof.
  intros Htag Hopen Hext reply targets. split.
  - intros Hm Hs.
    apply (step_answered hash ws clientId ext command R_empty); try done.
    + unfold routeCdpCommand. rewrite Hm, Hs. done.
    + unfold replyToMcp. rewrite Hm, Hs. cbn [String.eqb Ascii.eqb Bool.eqb andb negb when].
      unfold bind at 1, gets at 1. unfold bind at 1.
      rewrite (for_each_send_same _ ws
                 (λ t, W_attachedToTarget (ct_sessionId t)
                         (attached_true (ct_targetInfo t)) false) r Hopen).
      unfold bind, ret. by rewrite ws_send_open.
    + apply (sends_then_reply_settle_nothing targets ws
               (λ t, W_attachedToTarget (ct_sessionId t)
                       (attached_true (ct_targetInfo t)) false)).
  - intros Hm.
    apply (step_answered hash ws clientId ext command R_empty); try done.
    + unfold routeCdpCommand. rewrite Hm. done.
    + unfold replyToMcp. rewrite Hm. cbn [String.eqb Ascii.eqb Bool.eqb andb negb when].
      unfold bind at 1, gets at 1. unfold bind at 1, ret at 1. unfold bind at 1.
      destruct (bool_decide _).
      * cbn [when].
        rewrite (for_each_send_same _ ws
                   (λ t, W_targetCreated (attached_true (ct_targetInfo t))) r Hopen).
        unfold bind, ret. by rewrite ws_send_open.
      * cbn [when]. unfold bind, ret. by rewrite ws_send_open.
    + destruct (bool_decide _).
      * apply (sends_then_reply_settle_nothing targets ws
                 (λ t, W_targetCreated (attached_true (ct_targetInfo t)))).
      * by repeat constructor.
Qed.

Lemma registry_replayed_to_agent_witness :
  step toy_hash (In_message 2%nat (Some (FromMcp discover_command))) room_busy =
    (room_busy,
     [Send 2%nat (W_targetCreated (attached_true (page "t1" "/a")));
      Send 2%nat (W_response 7 None R_empty)]).
Proof.
  exact (proj2 (registry_replayed_to_agent toy_hash 2%nat 1%nat "a" discover_command
                  room_busy eq_refl eq_refl eq_refl) eq_refl).
Defined.

Lemma find_value_ext {K V} (p q : V → bool) (m : JsMap.t K V) :
  (∀ v, p v = q v) → JsMap.find_value p m = JsMap.find_value q m.
Proof.
  intros Hpq. induction m as [|[k v] m IH]; [done|].
  cbn [JsMap.find_value]. by rewrite Hpq, IH.
Qed.

Lemma find_value_Some {K V} (p : V → bool) (m : JsMap.t K V) (v : V) :
  JsMap.find_value p m = Some v → p v = true ∧ v ∈ JsMap.values m.
Proof.
  induction m as [|[k v'] m IH]; [done|]. cbn [JsMap.find_value].
  destruct (p v') eqn:Hp.
  - intros [= ->]. split; [done|]. unfold JsMap.values. csimpl. left.
  - intros Hfind. destruct (IH Hfind) as [? ?]. split; [done|].
    unfold JsMap.values. csimpl. by right.
Qed.

(** X9.  [Target.attachToTarget] is answered from the registry alone.  For a
    registered target the agent first receives [Target.attachedToTarget]
    with the target's own session id and [attached: true], then the reply
    [{sessionId}]; a target id that is not registered, or no target id at
    all, yields a protocol error under the command's id.  In every case the
    room is unchanged. *)
Theorem attach_to_target_answered_from_registry (hash : string → string)
    (ws ext : Socket) (clientId : string) (command : CDPCommand) (r : Room) :
  tag_of ws r = Some (TagMcp clientId) →
  socket_open ws r = true →
  getExtensionWebSocket r = Some ext →
  cmd_method command = "Target.attachToTarget" →
  let targetId := cmd_params command ≫= cp_targetId in
  let error e := Send ws (W_error (cmd_id command) (cmd_sessionId command) e) in
  (truthy_string targetId = false →
   step hash (In_message ws (Some (FromMcp command))) r =
     (r, [error "targetId is required for Target.attachToTarget"]))
  ∧ (∀ tid, targetId = Some tid → tid ≠ "" →
       find_target tid (connectedTargets r) = None →
       step hash (In_message ws (Some (FromMcp command))) r =
         (r, [error ("Target " +:+ tid +:+ " not found in connected targets")]))
  ∧ (∀ tid target, targetId = Some tid → tid ≠ "" →
       find_target tid (connectedTargets r) = Some target →
       ct_sessionId target ≠ "" →
       ct_targetId target = tid
       ∧ step hash (In_message ws (Some (FromMcp command))) r =
           (r, [Send ws (W_attachedToTarget (ct_sessionId target)
                           (attached_true (ct_targetInfo target)) false);
                Send ws (W_response (cmd_id command) (cmd_sessionId command)
                           (R_sessionId (ct_sessionId target)))])).
Proof.
  intros Htag Hopen Hext Hm targetId error. split_and!.
  - intros Hfalsy. apply (step_refused hash ws clientId ext); try done.
    unfold routeCdpCommand. rewrite Hm. cbn [String.eqb Ascii.eqb Bool.eqb].
    fold targetId. by rewrite Hfalsy.
  - intros tid Htid Hne Hfind. apply (step_refused hash ws clientId ext); try done.
    unfold routeCdpCommand. rewrite Hm. cbn [String.eqb Ascii.eqb Bool.eqb].
    fold targetId. rewrite Htid, (truthy_string_Some tid Hne). cbn [negb default from_option id].
    unfold bind, gets. by rewrite Hfind.
  - intros tid target Htid Hne Hfind Hsid.
    split.
    { apply find_value_Some in Hfind as [Heq _]. by apply String.eqb_eq in Heq. }
    apply (step_answered hash ws clientId ext command
             (R_sessionId (ct_sessionId target))); try done.
    + unfold routeCdpCommand. rewrite Hm. cbn [String.eqb Ascii.eqb Bool.eqb].
      fold targetId. rewrite Htid, (truthy_string_Some tid Hne). cbn [negb default from_option id].
      unfold bind, gets. by rewrite Hfind.
    + unfold replyToMcp. rewrite Hm.
      cbn [String.eqb Ascii.eqb Bool.eqb andb negb when result_sessionId].
      rewrite (truthy_string_Some _ Hsid). fold targetId. rewrite Htid.
      unfold bind at 1, gets at 1. cbn [when].
      rewrite (find_value_ext _ (λ t, String.eqb (ct_targetId t) tid)).
      2:{ intros t. destruct (String.eqb_spec (ct_targetId t) tid) as [->|Hn].
          - by rewrite bool_decide_eq_true_2.
          - rewrite bool_decide_eq_false_2; [done|]. by intros [= ?]. }
      unfold find_target in Hfind. rewrite Hfind.
      unfold bind, ret. cbn [default from_option id]. by rewrite !ws_send_open.
    + by repeat constructor.
Qed.

Lemma attach_to_target_answered_from_registry_witness :
  step toy_hash
    (In_message 2%nat
       (Some (FromMcp (target_command 8 "Target.attachToTarget" (Some "t9") None))))
    room_busy =
    (room_busy,
     [Send 2%nat (W_error 8 None "Target t9 not found in connected targets")]).
Proof.
  refine (proj1 (proj2 (attach_to_target_answered_from_registry toy_hash 2%nat 1%nat
                          "a" (target_command 8 "Target.attachToTarget" (Some "t9") None)
                          room_busy eq_refl eq_refl eq_refl eq_refl))
            "t9" eq_refl _ eq_refl).
  done.
Defined.

Lemma replyToMcp_no_events ws command result r :
  cmd_method command ∉
    ["Target.setAutoAttach"; "Target.setDiscoverTargets"; "Target.attachToTarget"] →
  socket_open ws r = true →
  replyToMcp ws command result r =
    (Ok tt, r, [Send ws (W_response (cmd_id command) (cmd_sessionId command) result)]).
Proof.
  intros Hm Hopen. unfold replyToMcp. method_not_listed Hm.
  cbn [andb when]. unfold bind, gets, ret. by rewrite ws_send_open.
Qed.

Lemma step_routed_forward hash ws clientId ext command r :
  tag_of ws r = Some (TagMcp clientId) →
  getExtensionWebSocket r = Some ext →
  socket_open ext r = true →
  routeCdpCommand ws command clientId r =
    (let* id := sendToExtension ws command clientId None in ret (Forwarded id)) r →
  let id := messageId r + 1 in
  step hash (In_message ws (Some (FromMcp command))) r =
    (set_pendingRequests
       (JsMap.set id {| pr_mcpClientId := clientId; pr_timeout := 30000;
                        pr_ws := ws; pr_command := command |}
          (pendingRequests r))
       (set_messageId id r),
     [Send ext (W_forwardCDPCommand id (cmd_method command) (cmd_params command)
                  (cmd_sessionId command))]).
Proof.
  intros Htag Hext Hopen Hroute id. cbn [step].
  apply (run_silent _ _ _ (Ok tt)); [|by repeat constructor].
  unfold webSocketMessage, bind at 1, gets at 1. rewrite Htag.
  unfold handleMcpMessage, bind at 1, gets at 1. rewrite Hext.
  unfold try_catch. unfold bind at 1. rewrite Hroute. unfold bind at 1.
  by rewrite (sendToExtension_dispatch _ _ _ _ _ Hext Hopen).
Qed.

(** X10.  [Target.getTargetInfo] never fails.  It answers with the info of
    the target whose id the command names; when no registered target has
    that id it falls back to the target registered under the command's
    session id, and when that finds nothing either, to the target that was
    registered first (or to no info when the registry is empty). *)
Theorem get_target_info_falls_back (hash : string → string) (ws ext : Socket)
    (clientId : string) (command : CDPCommand) (r : Room) :
  tag_of ws r = Some (TagMcp clientId) →
  socket_open ws r = true →
  getExtensionWebSocket r = Some ext →
  cmd_method command = "Target.getTargetInfo" →
  let targets := connectedTargets r in
  let targetId := cmd_params command ≫= cp_targetId in
  let reply info :=
    Send ws (W_response (cmd_id command) (cmd_sessionId command) (R_targetInfo info)) in
  let unknown_id :=
    ∀ tid, targetId = Some tid → tid ≠ "" → find_target tid targets = None in
  (∀ tid target, targetId = Some tid → tid ≠ "" →
     find_target tid targets = Some target →
     step hash (In_message ws (Some (FromMcp command))) r =
       (r, [reply (Some (ct_targetInfo target))]))
  ∧ (unknown_id →
     ∀ sid target, cmd_sessionId command = Some sid → sid ≠ "" →
       JsMap.get sid targets = Some target →
       step hash (In_message ws (Some (FromMcp command))) r =
         (r, [reply (Some (ct_targetInfo target))]))
  ∧ (unknown_id →
     (∀ sid, cmd_sessionId command = Some sid → sid ≠ "" →
        JsMap.get sid targets = None) →
     step hash (In_message ws (Some (FromMcp command))) r =
       (r, [reply (ct_targetInfo <$> head (JsMap.values targets))])).
Proof.
  intros Htag Hopen Hext Hm targets targetId reply unknown_id.
  assert (Hreply : ∀ info,
    replyToMcp ws command (R_targetInfo info) r = (Ok tt, r, [reply info])).
  { intros info. apply replyToMcp_no_events; [|done].
    rewrite Hm. intros Hin. revert Hin.
    refine (bool_decide_unpack _ _). vm_compute. exact I. }
  assert (Hby_id : unknown_id →
    (if truthy_string targetId
     then find_target (default "" targetId) targets else None) = None).
  { intros Hun. destruct targetId as [tid|] eqn:Htid; [|done].
    destruct (decide (tid = "")) as [->|Hne]; [done|].
    rewrite (truthy_string_Some tid Hne). by apply Hun. }
  split_and!.
  - intros tid target Htid Hne Hfind.
    apply (step_answered hash ws clientId ext command
             (R_targetInfo (Some (ct_targetInfo target)))); try done;
      [|by repeat constructor].
    unfold routeCdpCommand. rewrite Hm. cbn [String.eqb Ascii.eqb Bool.eqb].
    fold targetId. rewrite Htid, (truthy_string_Some tid Hne).
    cbn [default from_option id]. unfold bind, gets.
    fold targets. by rewrite Hfind.
  - intros Hun sid target Hsid Hne Hget.
    apply (step_answered hash ws clientId ext command
             (R_targetInfo (Some (ct_targetInfo target)))); try done;
      [|by repeat constructor].
    unfold routeCdpCommand. rewrite Hm. cbn [String.eqb Ascii.eqb Bool.eqb].
    fold targetId. unfold bind, gets. fold targets. rewrite (Hby_id Hun).
    rewrite Hsid, (truthy_string_Some sid Hne). cbn [default from_option id].
    by rewrite Hget.
  - intros Hun Hsession.
    apply (step_answered hash ws clientId ext command
             (R_targetInfo (ct_targetInfo <$> head (JsMap.values targets))));
      try done; [|by repeat constructor].
    unfold routeCdpCommand. rewrite Hm. cbn [String.eqb Ascii.eqb Bool.eqb].
    fold targetId. unfold bind, gets. fold targets. rewrite (Hby_id Hun).
    destruct (cmd_sessionId command) as [sid|] eqn:Hsid; [|done].
    destruct (decide (sid = "")) as [->|Hne]; [done|].
    rewrite (truthy_string_Some sid Hne). cbn [default from_option id].
    by rewrite (Hsession sid eq_refl Hne).
Qed.

Lemma get_target_info_falls_back_witness :
  step toy_hash
    (In_message 2%nat
       (Some (FromMcp (target_command 9 "Target.getTargetInfo" (Some "t9") None))))
    room_busy =
    (room_busy,
     [Send 2%nat (W_response 9 None (R_targetInfo (Some (page "t1" "/a"))))]).
Proof.
  refine (proj2 (proj2 (get_target_info_falls_back toy_hash 2%nat 1%nat "a"
                          (target_command 9 "Target.getTargetInfo" (Some "t9") None)
                          room_busy eq_refl eq_refl eq_refl eq_refl)) _ _).
  - intros tid [= <-] _. reflexivity.
  - intros sid Hsid. discriminate Hsid.
Defined.

(** X11.  [Target.detachFromTarget] is routed by the session it names.  A
    session that is not a key of the registry (a child session of a page) is
    acknowledged by the relay with the empty result and never reaches the
    browser peer; a session of the registry is forwarded to the browser
    peer under the next id, and the target stays registered until the
    browser reports the detach. *)
Theorem detach_routed_by_session (hash : string → string) (ws ext : Socket)
    (clientId : string) (command : CDPCommand) (detachSessionId : string)
    (r : Room) :
  tag_of ws r = Some (TagMcp clientId) →
  socket_open ws r = true →
  getExtensionWebSocket r = Some ext →
  socket_open ext r = true →
  cmd_method command = "Target.detachFromTarget" →
  cmd_params command ≫= cp_sessionId = Some detachSessionId →
  detachSessionId ≠ "" →
  (JsMap.has detachSessionId (connectedTargets r) = false →
   step hash (In_message ws (Some (FromMcp command))) r =
     (r, [Send ws (W_response (cmd_id command) (cmd_sessionId command) R_empty)]))
  ∧ (JsMap.has detachSessionId (connectedTargets r) = true →
     let id := messageId r + 1 in
     let '(r', log) := step hash (In_message ws (Some (FromMcp command))) r in
     log = [Send ext (W_forwardCDPCommand id (cmd_method command)
                        (cmd_params command) (cmd_sessionId command))]
     ∧ JsMap.get id (pendingRequests r') =
         Some {| pr_mcpClientId := clientId; pr_timeout := 30000;
                 pr_ws := ws; pr_command := command |}
     ∧ connectedTargets r' = connectedTargets r).
Proof.
  intros Htag Hopen Hext Hopen_ext Hm Hp Hne. split.
  - intros Hchild.
    apply (step_answered hash ws clientId ext command R_empty); try done;
      [| |by repeat constructor].
    + unfold routeCdpCommand. rewrite Hm. cbn [String.eqb Ascii.eqb Bool.eqb].
      rewrite Hp, (truthy_string_Some _ Hne). cbn [default from_option Datatypes.id].
      unfold bind, gets. by rewrite Hchild.
    + apply replyToMcp_no_events; [|done].
      rewrite Hm. intros Hin. revert Hin.
      refine (bool_decide_unpack _ _). vm_compute. exact I.
  - intros Hmain id.
    rewrite (step_routed_forward hash ws clientId ext command r Htag Hext Hopen_ext).
    + split_and!; [done| |done]. cbn. apply JsMapFacts.get_set_eq.
    + unfold routeCdpCommand. rewrite Hm. cbn [String.eqb Ascii.eqb Bool.eqb].
      rewrite Hp, (truthy_string_Some _ Hne). cbn [default from_option Datatypes.id].
      unfold bind at 1, gets at 1. rewrite Hmain. cbn [andb negb].
      by destruct ((let* id0 := sendToExtension ws command clientId None in
                    ret (Forwarded id0)) r) as [[? ?] ?].
Qed.

Lemma detach_routed_by_session_witness :
  step toy_hash (In_message 2%nat (Some (FromMcp (detach_command 12 "frame-7"))))
    room_busy =
    (room_busy, [Send 2%nat (W_response 12 None R_empty)]).
Proof.
  refine (proj1 (detach_routed_by_session toy_hash 2%nat 1%nat "a"
                   (detach_command 12 "frame-7") "frame-7" room_busy
                   eq_refl eq_refl eq_refl eq_refl eq_refl eq_refl _) eq_refl).
  done.
Defined.

(** ** One peer per role *)

Lemma count_peers_accept p ws tag r :
  count_peers p
    (set_peers ({| peer_ws := ws; peer_tag := tag; peer_open := true |} :: peers r) r) =
    (count_peers p r + (if p tag then 1 else 0))%nat.
Proof.
  unfold count_peers. cbn [peers set_peers]. rewrite filter_cons. cbn [peer_tag].
  destruct (p tag); [rewrite decide_True by done|rewrite decide_False by done];
    cbn [length]; lia.
Qed.

Lemma count_peers_mark_closed p ws r :
  count_peers p (set_peers (mark_closed ws <$> peers r) r) = count_peers p r.
Proof.
  unfold count_peers. cbn [peers set_peers].
  induction (peers r) as [|q l IH]; [done|].
  csimpl. rewrite !filter_cons.
  assert (Htag : peer_tag (mark_closed ws q) = peer_tag q).
  { unfold mark_closed. by destruct (Nat.eqb _ _). }
  rewrite Htag. destruct (decide (p (peer_tag q) = true)); cbn [length]; by rewrite IH.
Qed.

Lemma count_peers_remove p ws r :
  (count_peers p (remove_peer ws r) ≤ count_peers p r)%nat.
Proof.
  unfold count_peers, remove_peer. cbn [peers set_peers set_departed].
  induction (peers r) as [|q l IH]; [done|].
  rewrite (filter_cons (λ q, peer_ws q ≠ ws)).
  destruct (decide (peer_ws q ≠ ws)); rewrite !filter_cons;
    destruct (decide (p (peer_tag q) = true)); cbn [length]; lia.
Qed.

Lemma count_peers_none p r :
  head (peer_ws <$> filter (λ q, p (peer_tag q) = true) (peers r)) = None →
  count_peers p r = 0%nat.
Proof.
  unfold count_peers. by destruct (filter _ (peers r)).
Qed.

Lemma keeps_roles_unique_compositional : Compositional keeps_roles_unique.
Proof.
  split.
  - by intros r Hu.
  - intros r1 r2 r3 o1 o2 H12 H23 Hu. by apply H23, H12.
Qed.

Ltac keeps_roles_unique_leaf :=
  unfold keeps_roles_unique; cbn; by intros ?.

Lemma ws_close_keeps_roles_unique ws code reason :
  respects keeps_roles_unique (ws_close ws code reason).
Proof.
  intros r (He & Hl & Hm). unfold ws_close, bind, modify, emit, state_of. cbn.
  unfold roles_unique. setoid_rewrite count_peers_mark_closed. done.
Qed.

Lemma handleExtensionUpgrade_keeps_roles_unique server :
  respects keeps_roles_unique (handleExtensionUpgrade server).
Proof.
  intros r (He & Hl & Hm).
  unfold handleExtensionUpgrade, bind, gets, state_of.
  destruct (getExtensionWebSocket r) eqn:Hext; [done|].
  cbn -[filter list_filter]. unfold roles_unique, count_peers in *. cbn [peers set_peers set_pingInterval] in *.
  pose proof (count_peers_none is_extension r Hext) as H0.
  pose proof (count_peers_accept is_extension server TagExtension r) as Ha.
  pose proof (count_peers_accept is_local server TagExtension r) as Hb.
  unfold count_peers in *. cbn [peers set_peers] in *.
  rewrite Ha, Hb, H0. cbn -[filter list_filter]. split_and!; [lia|lia|].
  intros c. pose proof (count_peers_accept (is_mcp_client c) server TagExtension r) as Hc.
  unfold count_peers in Hc. cbn [peers set_peers] in Hc. rewrite Hc.
  specialize (Hm c). cbn. lia.
Qed.

Lemma handleLocalUpgrade_keeps_roles_unique server clientId :
  respects keeps_roles_unique (handleLocalUpgrade server clientId).
Proof.
  intros r (He & Hl & Hm).
  unfold handleLocalUpgrade, bind, gets, state_of.
  destruct (getLocalWebSocket r) eqn:Hloc; [done|].
  cbn -[filter list_filter]. unfold roles_unique, count_peers in *. cbn [peers set_peers set_pingInterval] in *.
  pose proof (count_peers_none is_local r Hloc) as H0.
  pose proof (count_peers_accept is_extension server (TagLocal clientId) r) as Ha.
  pose proof (count_peers_accept is_local server (TagLocal clientId) r) as Hb.
  unfold count_peers in *. cbn [peers set_peers] in *.
  rewrite Ha, Hb, H0. cbn -[filter list_filter]. split_and!; [lia|lia|].
  intros c.
  pose proof (count_peers_accept (is_mcp_client c) server (TagLocal clientId) r) as Hc.
  unfold count_peers in Hc. cbn [peers set_peers] in Hc. rewrite Hc.
  specialize (Hm c). cbn. lia.
Qed.

Lemma handleMcpUpgrade_keeps_roles_unique server clientId :
  respects keeps_roles_unique (handleMcpUpgrade server clientId).
Proof.
  intros r (He & Hl & Hm).
  unfold handleMcpUpgrade, bind, gets, state_of.
  destruct (getMcpWebSocket clientId r) eqn:Hmcp; [done|].
  cbn -[filter list_filter]. unfold roles_unique, count_peers in *. cbn [peers set_peers] in *.
  pose proof (count_peers_none (is_mcp_client clientId) r Hmcp) as H0.
  pose proof (count_peers_accept is_extension server (TagMcp clientId) r) as Ha.
  pose proof (count_peers_accept is_local server (TagMcp clientId) r) as Hb.
  unfold count_peers in *. cbn [peers set_peers] in *.
  rewrite Ha, Hb. cbn -[filter list_filter]. split_and!; [lia|lia|].
  intros c.
  pose proof (count_peers_accept (is_mcp_client c) server (TagMcp clientId) r) as Hc.
  unfold count_peers in Hc. cbn [peers set_peers] in Hc. rewrite Hc.
  specialize (Hm c). cbn [is_mcp_client].
  destruct (String.eqb_spec clientId c) as [->|Hne]; [rewrite H0|]; lia.
Qed.

Ltac roles_atomic :=
  first [ apply ws_close_keeps_roles_unique
        | apply handleExtensionUpgrade_keeps_roles_unique
        | apply handleLocalUpgrade_keeps_roles_unique
        | apply handleMcpUpgrade_keeps_roles_unique ].

Lemma step_keeps_roles_unique hash i r :
  keeps_roles_unique r (step hash i r).1 (step hash i r).2.
Proof.
  pose proof keeps_roles_unique_compositional as HR.
  assert (Hre : ∀ e, respects keeps_roles_unique (reaction e))
    by (intros e; respects_with HR keeps_roles_unique_leaf roles_atomic).
  destruct i; cbn [step];
    try (apply (respects_run _ HR); [|apply Hre]).
  - unfold fetch, validatePassphrase.
    respects_with HR keeps_roles_unique_leaf roles_atomic.
  - respects_with HR keeps_roles_unique_leaf roles_atomic.
  - fold (step hash (In_close ws) r).
    destruct (tag_of ws r) as [tag|] eqn:Htag;
      [|by cbn [step]; rewrite Htag; intros Hu].
    rewrite (step_close hash ws r tag Htag). cbn [fst snd]. intros Hu.
    assert (H1 : roles_unique (run (webSocketClose tag) r).1).
    { apply (respects_run _ HR (webSocketClose tag) r); [|apply Hre|done].
      respects_with HR keeps_roles_unique_leaf roles_atomic. }
    destruct H1 as (He & Hl & Hm). split_and!; [| |intros c; specialize (Hm c)];
      (etransitivity; [apply count_peers_remove|done]).
  - fold (step hash (In_error ws) r). rewrite step_error. cbn [fst snd].
    intros (He & Hl & Hm). split_and!; [| |intros c; specialize (Hm c)];
      (etransitivity; [apply count_peers_remove|done]).
  - respects_with HR keeps_roles_unique_leaf roles_atomic.
  - respects_with HR keeps_roles_unique_leaf roles_atomic.
  - destruct (pingInterval r); [|by intros Hu].
    apply (respects_run _ HR); [|apply Hre].
    respects_with HR keeps_roles_unique_leaf roles_atomic.
  - respects_with HR keeps_roles_unique_leaf roles_atomic.
  - respects_with HR keeps_roles_unique_leaf roles_atomic.
  - respects_with HR keeps_roles_unique_leaf roles_atomic.
  - respects_with HR keeps_roles_unique_leaf roles_atomic.
Qed.

(** X12.  Whatever happens to a room, it lists at most one browser peer, at
    most one local client, and at most one agent under each client id. *)
Theorem one_peer_per_role (hash : string → string) (inputs : list Input) :
  roles_unique (steps hash inputs new_room).1.
Proof.
  assert (Hsteps : ∀ inputs r, roles_unique r → roles_unique (steps hash inputs r).1).
  { clear inputs. intros inputs. induction inputs as [|i inputs IH]; intros r Hu; [done|].
    cbn [steps].
    pose proof (step_keeps_roles_unique hash i r Hu) as H1.
    destruct (step hash i r) as [r1 o1]; cbn [fst] in H1.
    specialize (IH r1 H1).
    by destruct (steps hash inputs r1) as [r2 o2]. }
  apply Hsteps. unfold roles_unique, count_peers. cbn. split_and!; lia.
Qed.

(** ** Admission *)

Lemma fetch_valid hash now server pathname q r a :
  auth r = Some a → hash q = passphraseHash a → q ≠ "" →
  pathname ∉ ["/"; "/health"; "/extension/status"; "/local/status"] →
  fetch hash now server {| req_pathname := pathname; req_passphrase := Some q |} r =
    (if String.eqb pathname "/extension" then handleExtensionUpgrade server
     else if String.eqb pathname "/local" || String.prefix "/local/" pathname
     then handleLocalUpgrade server (path_clientId pathname)
     else if String.eqb pathname "/mcp" || String.prefix "/mcp/" pathname
     then handleMcpUpgrade server (path_clientId pathname)
     else respond 404 (B_text "Not Found")) r.
Proof.
  intros Ha Heq Hq Hp. unfold fetch. cbn [req_pathname req_passphrase].
  rewrite !(eqb_not_listed pathname _ _ Hp) by listed. cbn [orb].
  rewrite (truthy_string_Some q Hq). cbn [default from_option id negb].
  unfold bind. rewrite (validatePassphrase_later _ _ _ _ _ Ha).
  rewrite bool_decide_eq_true_2 by done. cbn [negb].
  match goal with
  | |- _ = ?m => by destruct m as [[? ?] ?]
  end.
Qed.

Lemma prefix_local_mcp (pathname : string) :
  String.prefix "/local/" pathname = true → String.prefix "/mcp/" pathname = false.
Proof.
  destruct pathname as [|c0 s]; [done|]. cbn [String.prefix].
  destruct (Ascii.ascii_dec "/" c0); [|done].
  destruct s as [|c1 s]; [done|]. cbn [String.prefix].
  destruct (Ascii.ascii_dec "l" c1) as [<-|]; [|done]. intros _.
  by destruct (Ascii.ascii_dec "m" "l").
Qed.

Lemma step_fetch hash now server request resp r r' :
  fetch hash now server request r = (Ok resp, r', []) →
  step hash (In_fetch now server request) r = (r', [Respond resp]).
Proof.
  intros Hf. cbn [step]. apply (run_silent _ _ _ (Ok tt)); [|by repeat constructor].
  unfold bind, emit. by rewrite Hf.
Qed.

(** X13.  A role that is taken stays taken.  A request with the room's
    passphrase for the browser role, the local role, or an agent's client id
    is answered 409 while a socket of that role (or client id) is still
    listed, even one that is already closed, and the room is unchanged. *)
Theorem duplicate_peer_refused (hash : string → string) (now : Z) (server : Socket)
    (pathname q : string) (r : Room) (a : RoomAuth) :
  auth r = Some a → hash q = passphraseHash a → q ≠ "" →
  let request := {| req_pathname := pathname; req_passphrase := Some q |} in
  let refused text :=
    (r, [Respond {| status := 409; body := B_text text |}]) in
  (pathname = "/extension" → getExtensionWebSocket r ≠ None →
   step hash (In_fetch now server request) r = refused "Extension already connected")
  ∧ (String.eqb pathname "/local" || String.prefix "/local/" pathname = true →
     pathname ≠ "/local/status" → getLocalWebSocket r ≠ None →
     step hash (In_fetch now server request) r =
       refused "Local client already connected")
  ∧ (String.eqb pathname "/mcp" || String.prefix "/mcp/" pathname = true →
     getMcpWebSocket (path_clientId pathname) r ≠ None →
     step hash (In_fetch now server request) r =
       refused "Client ID already connected").
Proof.
  intros Ha Heq Hq request refused. split_and!.
  - intros -> Hext. apply step_fetch. unfold request.
    rewrite (fetch_valid hash now server _ q r a Ha Heq Hq).
    2:{ intros Hin. revert Hin. refine (bool_decide_unpack _ _). vm_compute. exact I. }
    cbn [String.eqb Ascii.eqb Bool.eqb]. unfold handleExtensionUpgrade, bind, gets.
    by destruct (getExtensionWebSocket r).
  - intros Hpath Hns Hloc. apply step_fetch. unfold request.
    assert (Hp : pathname ∉ ["/"; "/health"; "/extension/status"; "/local/status"]).
    { intros Hin. rewrite !elem_of_cons, elem_of_nil in Hin.
      destruct Hin as [->|[->|[->|[->|[]]]]]; done. }
    rewrite (fetch_valid hash now server _ q r a Ha Heq Hq Hp).
    destruct (String.eqb_spec pathname "/extension") as [->|_]; [done|].
    rewrite Hpath. unfold handleLocalUpgrade, bind, gets.
    by destruct (getLocalWebSocket r).
  - intros Hpath Hmcp. apply step_fetch. unfold request.
    assert (Hp : pathname ∉ ["/"; "/health"; "/extension/status"; "/local/status"]).
    { intros Hin. rewrite !elem_of_cons, elem_of_nil in Hin.
      destruct Hin as [->|[->|[->|[->|[]]]]]; done. }
    rewrite (fetch_valid hash now server _ q r a Ha Heq Hq Hp).
    destruct (String.eqb_spec pathname "/extension") as [->|_]; [done|].
    destruct (String.eqb pathname "/local" || String.prefix "/local/" pathname)
      eqn:Hlocal.
    { exfalso. apply orb_true_iff in Hlocal as [Hl|Hl], Hpath as [Hm|Hm].
      - apply String.eqb_eq in Hl, Hm. congruence.
      - apply String.eqb_eq in Hl. by subst.
      - apply String.eqb_eq in Hm. by subst.
      - by rewrite (prefix_local_mcp pathname Hl) in Hm. }
    rewrite Hpath. unfold handleMcpUpgrade, bind, gets.
    by destruct (getMcpWebSocket _ r).
Qed.

Lemma duplicate_peer_refused_witness :
  socket_open 2%nat room_after_reconnect = false
  ∧ step toy_hash
      (In_fetch 9 6%nat {| req_pathname := "/mcp/a"; req_passphrase := Some "p" |})
      room_after_reconnect =
      (room_after_reconnect,
       [Respond {| status := 409; body := B_text "Client ID already connected" |}]).
Proof.
  split; [reflexivity|].
  refine (proj2 (proj2 (duplicate_peer_refused toy_hash 9 6%nat "/mcp/a" "p"
                          room_after_reconnect
                          {| passphraseHash := "sha256:p"; createdAt := 0 |}
                          eq_refl eq_refl _)) eq_refl _); done.
Defined.

Lemma head_filter_accept (p : WebSocketTag → bool) ws tag (l : list Peer) :
  head (peer_ws <$> filter (λ q, p (peer_tag q) = true) l) = None →
  head (peer_ws <$>
          filter (λ q, p (peer_tag q) = true)
            ({| peer_ws := ws; peer_tag := tag; peer_open := true |} :: l)) =
    if p tag then Some ws else None.
Proof.
  intros Hnone. rewrite filter_cons. cbn [peer_tag].
  destruct (p tag); [by rewrite decide_True|by rewrite decide_False].
Qed.

Lemma head_filter_accept_other (p : WebSocketTag → bool) ws tag (l : list Peer) :
  p tag = false →
  head (peer_ws <$>
          filter (λ q, p (peer_tag q) = true)
            ({| peer_ws := ws; peer_tag := tag; peer_open := true |} :: l)) =
    head (peer_ws <$> filter (λ q, p (peer_tag q) = true) l).
Proof.
  intros Hp. rewrite filter_cons. cbn [peer_tag].
  by rewrite decide_False by (by rewrite Hp).
Qed.

Lemma find_accept_fresh ws tag (l : list Peer) :
  List.find (λ p, Nat.eqb (peer_ws p) ws)
    ({| peer_ws := ws; peer_tag := tag; peer_open := true |} :: l) =
    Some {| peer_ws := ws; peer_tag := tag; peer_open := true |}.
Proof. cbn [List.find peer_ws]. by rewrite Nat.eqb_refl. Qed.

(** X14.  An admitted peer is found under its role.  When the role (or the
    client id) is free, a request with the room's passphrase is answered 101
    with the new socket; afterwards the room resolves the role to that
    socket, which is open.  Admitting a browser peer or a local client
    starts the keepalive interval; admitting an agent leaves it as it was
    and does not change which socket any other client id resolves to. *)
Theorem admitted_peer_is_listed (hash : string → string) (now : Z) (server : Socket)
    (pathname q : string) (r : Room) (a : RoomAuth) :
  auth r = Some a → hash q = passphraseHash a → q ≠ "" →
  tag_of server r = None →
  let request := {| req_pathname := pathname; req_passphrase := Some q |} in
  let '(r', log) := step hash (In_fetch now server request) r in
  let admitted :=
    log = [Respond {| status := 101; body := B_webSocket server |}]
    ∧ socket_open server r' = true in
  (pathname = "/extension" → getExtensionWebSocket r = None →
   admitted ∧ getExtensionWebSocket r' = Some server
   ∧ tag_of server r' = Some TagExtension ∧ pingInterval r' = true)
  ∧ (String.eqb pathname "/local" || String.prefix "/local/" pathname = true →
     pathname ≠ "/local/status" → getLocalWebSocket r = None →
     admitted ∧ getLocalWebSocket r' = Some server
     ∧ tag_of server r' = Some (TagLocal (path_clientId pathname))
     ∧ pingInterval r' = true)
  ∧ (String.eqb pathname "/mcp" || String.prefix "/mcp/" pathname = true →
     getMcpWebSocket (path_clientId pathname) r = None →
     admitted ∧ getMcpWebSocket (path_clientId pathname) r' = Some server
     ∧ tag_of server r' = Some (TagMcp (path_clientId pathname))
     ∧ pingInterval r' = pingInterval r
     ∧ ∀ other, other ≠ path_clientId pathname →
         getMcpWebSocket other r' = getMcpWebSocket other r).
Proof.
  intros Ha Heq Hq _ request.
  destruct (step hash (In_fetch now server request) r) as [r' log] eqn:Hstep.
  cbn zeta. split_and!.
  - intros -> Hext.
    rewrite (step_fetch hash now server request
               {| status := 101; body := B_webSocket server |} r
               (set_pingInterval true (set_pingInterval false
                  (set_peers ({| peer_ws := server; peer_tag := TagExtension;
                                             peer_open := true |} :: peers r) r)))) in Hstep.
    + injection Hstep as <- <-.
      unfold socket_open, tag_of, getExtensionWebSocket.
      cbn [peers set_peers set_pingInterval departed app].
      rewrite !find_accept_fresh.
      rewrite (head_filter_accept is_extension server TagExtension _ Hext). done.
    + unfold request.
      rewrite (fetch_valid hash now server _ q r a Ha Heq Hq).
      2:{ intros Hin. revert Hin. refine (bool_decide_unpack _ _). vm_compute. exact I. }
      cbn [String.eqb Ascii.eqb Bool.eqb]. unfold handleExtensionUpgrade, bind, gets.
      by rewrite Hext.
  - intros Hpath Hns Hloc.
    assert (Hp : pathname ∉ ["/"; "/health"; "/extension/status"; "/local/status"]).
    { intros Hin. rewrite !elem_of_cons, elem_of_nil in Hin.
      destruct Hin as [->|[->|[->|[->|[]]]]]; done. }
    rewrite (step_fetch hash now server request
               {| status := 101; body := B_webSocket server |} r
               (set_pingInterval true (set_pingInterval false
                  (set_peers ({| peer_ws := server;
                                             peer_tag := TagLocal (path_clientId pathname);
                                             peer_open := true |} :: peers r) r)))) in Hstep.
    + injection Hstep as <- <-.
      unfold socket_open, tag_of, getLocalWebSocket.
      cbn [peers set_peers set_pingInterval departed app].
      rewrite !find_accept_fresh.
      rewrite (head_filter_accept is_local server _ _ Hloc). done.
    + unfold request. rewrite (fetch_valid hash now server _ q r a Ha Heq Hq Hp).
      destruct (String.eqb_spec pathname "/extension") as [->|_]; [done|].
      rewrite Hpath. unfold handleLocalUpgrade, bind, gets. by rewrite Hloc.
  - intros Hpath Hmcp.
    assert (Hp : pathname ∉ ["/"; "/health"; "/extension/status"; "/local/status"]).
    { intros Hin. rewrite !elem_of_cons, elem_of_nil in Hin.
      destruct Hin as [->|[->|[->|[->|[]]]]]; done. }
    rewrite (step_fetch hash now server request
               {| status := 101; body := B_webSocket server |} r
               (set_peers ({| peer_ws := server;
                                          peer_tag := TagMcp (path_clientId pathname);
                                          peer_open := true |} :: peers r) r)) in Hstep.
    + injection Hstep as <- <-.
      unfold socket_open, tag_of, getMcpWebSocket.
      cbn [peers set_peers pingInterval departed app].
      rewrite !find_accept_fresh.
      rewrite (head_filter_accept (is_mcp_client (path_clientId pathname)) server _ _ Hmcp).
      cbn [is_mcp_client]. rewrite String.eqb_refl. split_and!; try done.
      intros other Hother.
      apply (head_filter_accept_other (is_mcp_client other)).
      cbn [is_mcp_client]. apply String.eqb_neq. congruence.
    + unfold request. rewrite (fetch_valid hash now server _ q r a Ha Heq Hq Hp).
      destruct (String.eqb_spec pathname "/extension") as [->|_]; [done|].
      destruct (String.eqb pathname "/local" || String.prefix "/local/" pathname)
        eqn:Hlocal.
      { exfalso. apply orb_true_iff in Hlocal as [Hl|Hl], Hpath as [Hm|Hm].
        - apply String.eqb_eq in Hl, Hm. congruence.
        - apply String.eqb_eq in Hl. by subst.
        - apply String.eqb_eq in Hm. by subst.
        - by rewrite (prefix_local_mcp pathname Hl) in Hm. }
      rewrite Hpath. unfold handleMcpUpgrade, bind, gets. by rewrite Hmcp.
Qed.

Lemma admitted_peer_is_listed_witness :
  getMcpWebSocket "c"
    (step toy_hash
       (In_fetch 4 5%nat {| req_pathname := "/mcp/c"; req_passphrase := Some "p" |})
       room_two_agents).1 = Some 5%nat.
Proof.
  assert (Hq : "p" ≠ "") by done.
  exact (proj1 (proj2 (proj2 (proj2 (admitted_peer_is_listed toy_hash 4 5%nat "/mcp/c" "p"
                                       room_two_agents
                                       {| passphraseHash := "sha256:p"; createdAt := 0 |}
                                       eq_refl eq_refl Hq eq_refl))
                         eq_refl eq_refl))).
Defined.

(** ** The local client goes away *)

Lemma for_each_rejected_local (l : JsMap.t Z PendingLocalRequest) (msg : string) r :
  for_each ((λ '(id, p), SettleLocal id p (Throw msg)) <$> l) reaction r =
    (Ok tt, r, (λ '(id, p), Return id (Throw msg)) <$> l).
Proof.
  induction l as [|[id p] l IH]; [done|].
  csimpl. cbn [for_each reaction resumeLocal]. unfold bind, try_catch, emit at 1.
  rewrite IH. done.
Qed.

(** What [webSocketClose] does for the local client's socket. *)
Lemma webSocketClose_local (clientId : string) (r : Room) :
  ∃ r1,
    webSocketClose (TagLocal clientId) r =
      (Ok tt, r1,
       (λ '(id, p), SettleLocal id p (Throw "Local client connection closed"))
         <$> pendingLocalRequests r)
    ∧ fileReadTimestamps r1 = ∅
    ∧ pendingLocalRequests r1 = JsMap.empty
    ∧ peers r1 = peers r
    ∧ connectedTargets r1 = connectedTargets r
    ∧ pendingRequests r1 = pendingRequests r
    ∧ messageId r1 = messageId r
    ∧ localMessageId r1 = localMessageId r
    ∧ auth r1 = auth r.
Proof.
  unfold webSocketClose, when. cbn [is_extension is_local].
  unfold cleanupLocalState, stopPingInterval.
  unfold bind, modify, gets, ret. cbn [pendingLocalRequests set_fileReadTimestamps].
  rewrite for_each_reject_local. cbn [app].
  match goal with
  | |- context [if ?b then _ else _] => destruct b
  end; eexists; (split; [cbn; by rewrite ?app_nil_r|]); done.
Qed.

(** X15.  When the close event of the local client's socket is delivered,
    the read ledger and the local pending table are emptied and every
    pending local request is rejected with "Local client connection closed",
    in the order the requests were made.  No socket is closed, and the
    target registry, the browser's pending table, both counters and the
    passphrase record are what they were.  Afterwards every write is refused
    until the file is read again. *)
Theorem local_close_teardown (hash : string → string) (r : Room) (ws : Socket)
    (clientId : string) :
  tag_of ws r = Some (TagLocal clientId) →
  let '(r', log) := step hash (In_close ws) r in
  let gone := "Local client connection closed" in
  fileReadTimestamps r' = ∅
  ∧ pendingLocalRequests r' = JsMap.empty
  ∧ log = ((λ '(id, p), SettleLocal id p (Throw gone)) <$> pendingLocalRequests r)
          ++ ((λ '(id, p), Return id (Throw gone)) <$> pendingLocalRequests r)
  ∧ peers r' = filter (λ p, peer_ws p ≠ ws) (peers r)
  ∧ connectedTargets r' = connectedTargets r
  ∧ pendingRequests r' = pendingRequests r
  ∧ messageId r' = messageId r
  ∧ localMessageId r' = localMessageId r
  ∧ auth r' = auth r
  ∧ ∀ path content,
      step hash (In_writeFile path content) r' =
        (r', [Rejected ("Cannot write to " +:+ path +:+
                        ": file has not been read yet. Read the file first to ensure you have the latest content.")]).
Proof.
  intros Htag. rewrite (step_close hash ws r _ Htag).
  destruct (webSocketClose_local clientId r)
    as (r1 & Hclose & Hl & Hpl & Hpeers & Ht & Hp & Hm & Hlm & Ha).
  assert (Hrun : run (webSocketClose (TagLocal clientId)) r =
                 (r1, ((λ '(id, p), SettleLocal id p (Throw "Local client connection closed"))
                         <$> pendingLocalRequests r)
                      ++ ((λ '(id, p), Return id (Throw "Local client connection closed"))
                            <$> pendingLocalRequests r))).
  { unfold run. by rewrite Hclose, for_each_rejected_local. }
  rewrite Hrun. cbn [fst snd]. unfold remove_peer.
  cbn [fileReadTimestamps pendingLocalRequests peers connectedTargets pendingRequests
       messageId localMessageId auth set_peers set_departed].
  rewrite Hpeers.
  split_and!; try done.
  intros path content. cbn [step].
  apply (run_silent _ _ _ (Ok tt)); [|by repeat constructor].
  unfold call, try_catch, writeFile, bind, gets.
  cbn [fileReadTimestamps set_peers set_departed]. rewrite Hl, lookup_empty. done.
Qed.

Lemma local_close_teardown_witness :
  fileReadTimestamps room_read !! "/tmp/x" = Some (Some 100)
  ∧ fileReadTimestamps (step toy_hash (In_close 1%nat) room_read).1 = ∅.
Proof.
  split; [reflexivity|].
  exact (proj1 (local_close_teardown toy_hash room_read 1%nat "default" eq_refl)).
Defined.

(** ** Keepalive interval *)

Lemma keeps_keepalive_compositional : Compositional keeps_keepalive.
Proof.
  split.
  - by intros r Hk.
  - intros r1 r2 r3 o1 o2 H12 H23 Hk. by apply H23, H12.
Qed.

Lemma same_backends_compositional : Compositional same_backends.
Proof.
  split.
  - by intros r.
  - intros r1 r2 r3 o1 o2 (He1 & Hl1 & Hp1) (He2 & Hl2 & Hp2).
    unfold same_backends. by rewrite He2, Hl2, Hp2.
Qed.

Lemma head_filter_mark_closed (p : WebSocketTag → bool) ws (l : list Peer) :
  head (peer_ws <$> filter (λ q, p (peer_tag q) = true) (mark_closed ws <$> l)) =
  head (peer_ws <$> filter (λ q, p (peer_tag q) = true) l).
Proof.
  f_equal. induction l as [|q l IH]; [done|].
  csimpl. rewrite !filter_cons.
  assert (Htag : peer_tag (mark_closed ws q) = peer_tag q).
  { unfold mark_closed. by destruct (Nat.eqb _ _). }
  assert (Hws : peer_ws (mark_closed ws q) = peer_ws q).
  { unfold mark_closed. by destruct (Nat.eqb _ _). }
  rewrite Htag. destruct (decide (p (peer_tag q) = true)); csimpl; by rewrite ?Hws, IH.
Qed.

Lemma ws_close_same_backends ws code reason :
  respects same_backends (ws_close ws code reason).
Proof.
  intros r. unfold ws_close, bind, modify, emit, state_of, same_backends. cbn.
  unfold getExtensionWebSocket, getLocalWebSocket. cbn [peers set_peers].
  by rewrite !head_filter_mark_closed.
Qed.

Ltac same_backends_leaf := unfold same_backends; cbn; done.

Lemma reaction_same_backends e : respects same_backends (reaction e).
Proof.
  respects_with same_backends_compositional same_backends_leaf fail.
Qed.

Lemma tag_of_listed ws r tag :
  tag_of ws r = Some tag →
  ∀ p : WebSocketTag → bool, p tag = true →
    head (peer_ws <$> filter (λ q, p (peer_tag q) = true) (peers r)) ≠ None.
Proof.
  unfold tag_of. intros Htag p Hp.
  destruct (List.find _ (peers r)) as [q|] eqn:Hfind; [|done].
  injection Htag as <-. apply find_some in Hfind as [Hin _].
  apply (list_elem_of_In _ _) in Hin.
  assert (Hq : q ∈ filter (λ q, p (peer_tag q) = true) (peers r))
    by (by apply list_elem_of_filter).
  by destruct (filter _ (peers r)); [apply elem_of_nil in Hq|].
Qed.

Lemma handleExtensionUpgrade_keeps_keepalive server :
  respects keeps_keepalive (handleExtensionUpgrade server).
Proof.
  intros r Hk. unfold handleExtensionUpgrade, bind, gets, state_of.
  destruct (getExtensionWebSocket r); [done|]. by intros _.
Qed.

Lemma handleLocalUpgrade_keeps_keepalive server clientId :
  respects keeps_keepalive (handleLocalUpgrade server clientId).
Proof.
  intros r Hk. unfold handleLocalUpgrade, bind, gets, state_of.
  destruct (getLocalWebSocket r); [done|]. by intros _.
Qed.

Lemma handleMcpUpgrade_keeps_keepalive server clientId :
  respects keeps_keepalive (handleMcpUpgrade server clientId).
Proof.
  intros r Hk. unfold handleMcpUpgrade, bind, gets, state_of.
  destruct (getMcpWebSocket clientId r); [done|]. cbn -[filter list_filter].
  unfold keepalive_ok, getExtensionWebSocket, getLocalWebSocket in *.
  cbn [peers set_peers pingInterval].
  by rewrite !(head_filter_accept_other _ server (TagMcp clientId)).
Qed.

Ltac keepalive_atomic :=
  first [ apply handleExtensionUpgrade_keeps_keepalive
        | apply handleLocalUpgrade_keeps_keepalive
        | apply handleMcpUpgrade_keeps_keepalive ].

Ltac keeps_keepalive_leaf := unfold keeps_keepalive, keepalive_ok; cbn; by intros ?.

Lemma head_filter_close_all (p : WebSocketTag → bool) (l : list Socket)
    (ps : list Peer) :
  head (peer_ws <$> filter (λ q, p (peer_tag q) = true) (close_all l ps)) =
  head (peer_ws <$> filter (λ q, p (peer_tag q) = true) ps).
Proof.
  revert ps. induction l as [|ws l IH]; intros ps; [done|].
  unfold close_all. cbn [foldl]. fold (close_all l (mark_closed ws <$> ps)).
  by rewrite IH, head_filter_mark_closed.
Qed.

Lemma head_filter_remove (p : WebSocketTag → bool) ws (l : list Peer) :
  head (peer_ws <$> filter (λ q, p (peer_tag q) = true)
                      (filter (λ q, peer_ws q ≠ ws) l)) ≠ None →
  head (peer_ws <$> filter (λ q, p (peer_tag q) = true) l) ≠ None.
Proof.
  induction l as [|q l IH]; [done|].
  rewrite (filter_cons (λ q, peer_ws q ≠ ws)), (filter_cons _ q l).
  destruct (decide (peer_ws q ≠ ws)).
  - rewrite filter_cons. destruct (decide (p (peer_tag q) = true)); [done|apply IH].
  - destruct (decide (p (peer_tag q) = true)); [done|apply IH].
Qed.

Lemma remove_peer_keepalive ws r : keepalive_ok r → keepalive_ok (remove_peer ws r).
Proof.
  intros Hk Hback. apply Hk.
  unfold getExtensionWebSocket, getLocalWebSocket, remove_peer in *.
  cbn [peers set_peers set_departed] in Hback.
  destruct Hback as [H|H]; [left|right]; by apply head_filter_remove in H.
Qed.

(** [webSocketClose] leaves the back-end peers listed and stops the interval
    when none is; otherwise the interval is what it was. *)
Lemma webSocketClose_interval (tag : WebSocketTag) (r0 : Room) :
  let r1 := state_of (webSocketClose tag r0) in
  getExtensionWebSocket r1 = getExtensionWebSocket r0
  ∧ getLocalWebSocket r1 = getLocalWebSocket r0
  ∧ pingInterval r1 = if no_backend r0 then false else pingInterval r0.
Proof.
  cbn zeta.
  assert (Hend : ∀ r2,
    getExtensionWebSocket r2 = getExtensionWebSocket r0 →
    getLocalWebSocket r2 = getLocalWebSocket r0 →
    pingInterval r2 = pingInterval r0 →
    let r1 := if bool_decide (getExtensionWebSocket r2 = None)
                 && bool_decide (getLocalWebSocket r2 = None)
              then set_pingInterval false r2 else r2 in
    getExtensionWebSocket r1 = getExtensionWebSocket r0
    ∧ getLocalWebSocket r1 = getLocalWebSocket r0
    ∧ pingInterval r1 = if no_backend r0 then false else pingInterval r0).
  { intros r2 He Hl Hp. cbn zeta. unfold no_backend. rewrite He, Hl.
    by destruct (bool_decide _ && bool_decide _). }
  assert (Hclosed : ∀ l r2,
    getExtensionWebSocket (set_peers (close_all l (peers r2)) r2) =
      getExtensionWebSocket r2
    ∧ getLocalWebSocket (set_peers (close_all l (peers r2)) r2) =
        getLocalWebSocket r2).
  { intros l r2. unfold getExtensionWebSocket, getLocalWebSocket.
    cbn [peers set_peers]. by rewrite !head_filter_close_all. }
  destruct tag as [|c|c]; unfold webSocketClose, when, state_of;
    cbn [is_extension is_local].
  - unfold cleanupExtensionState, stopPingInterval.
    unfold bind, modify, gets, ret.
    rewrite for_each_reject_ext. rewrite for_each_ws_close.
    match goal with
    | |- context [(if ?b then _ else _) ?r2] =>
        pose proof (Hend r2) as Hend2; revert Hend2; destruct b
    end; intros Hend2; apply Hend2;
      first [done|by rewrite (proj1 (Hclosed _ _))|by rewrite (proj2 (Hclosed _ _))].
  - unfold bind, gets, ret, stopPingInterval, modify.
    match goal with
    | |- context [(if ?b then _ else _) ?r2] =>
        pose proof (Hend r2) as Hend2; revert Hend2; destruct b
    end; intros Hend2; by apply Hend2.
  - unfold cleanupLocalState, stopPingInterval.
    unfold bind, modify, gets, ret. cbn [pendingLocalRequests set_fileReadTimestamps].
    rewrite for_each_reject_local.
    match goal with
    | |- context [(if ?b then _ else _) ?r2] =>
        pose proof (Hend r2) as Hend2; revert Hend2; destruct b
    end; intros Hend2; by apply Hend2.
Qed.

Lemma reactions_same_backends (log : list Effect) (r : Room) :
  same_backends r (state_of (for_each log reaction r))
    (effects_of (for_each log reaction r)).
Proof.
  apply (respects_for_each _ same_backends_compositional).
  apply reaction_same_backends.
Qed.

Lemma run_webSocketClose_interval (tag : WebSocketTag) (r : Room) :
  let r1 := (run (webSocketClose tag) r).1 in
  getExtensionWebSocket r1 = getExtensionWebSocket r
  ∧ getLocalWebSocket r1 = getLocalWebSocket r
  ∧ pingInterval r1 = if no_backend r then false else pingInterval r.
Proof.
  cbn zeta. rewrite run_unfold. cbn [fst].
  destruct (webSocketClose_interval tag r) as (He & Hl & Hp).
  destruct (reactions_same_backends (effects_of (webSocketClose tag r))
              (state_of (webSocketClose tag r))) as (He' & Hl' & Hp').
  by rewrite He', Hl', Hp'.
Qed.

Lemma step_keeps_keepalive hash i r :
  keepalive_ok r → keepalive_ok (step hash i r).1.
Proof.
  pose proof keeps_keepalive_compositional as HR.
  assert (Hre : ∀ e, respects keeps_keepalive (reaction e))
    by (intros e; respects_with HR keeps_keepalive_leaf keepalive_atomic).
  assert (Hrun : ∀ (m : M unit) r, respects keeps_keepalive m →
            keepalive_ok r → keepalive_ok (run m r).1).
  { intros m r0 Hm. apply (respects_run _ HR m r0 Hm Hre). }
  destruct i; cbn [step]; try (apply Hrun).
  - unfold fetch, validatePassphrase.
    respects_with HR keeps_keepalive_leaf keepalive_atomic.
  - respects_with HR keeps_keepalive_leaf keepalive_atomic.
  - fold (step hash (In_close ws) r).
    destruct (tag_of ws r) as [tag|] eqn:Htag; [|by cbn [step]; rewrite Htag].
    rewrite (step_close hash ws r tag Htag). cbn [fst]. intros Hk.
    apply remove_peer_keepalive.
    destruct (run_webSocketClose_interval tag r) as (He & Hl & Hp).
    unfold keepalive_ok, no_backend in *. rewrite He, Hl, Hp. intros Hback.
    destruct Hback as [Hback|Hback].
    + rewrite (bool_decide_eq_false_2 _ Hback). cbn [andb]. apply Hk. by left.
    + rewrite (bool_decide_eq_false_2 _ Hback), andb_false_r. apply Hk. by right.
  - fold (step hash (In_error ws) r). rewrite step_error. cbn [fst].
    apply remove_peer_keepalive.
  - respects_with HR keeps_keepalive_leaf keepalive_atomic.
  - respects_with HR keeps_keepalive_leaf keepalive_atomic.
  - intros Hk. destruct (pingInterval r); [|done].
    revert Hk. apply Hrun.
    respects_with HR keeps_keepalive_leaf keepalive_atomic.
  - respects_with HR keeps_keepalive_leaf keepalive_atomic.
  - respects_with HR keeps_keepalive_leaf keepalive_atomic.
  - respects_with HR keeps_keepalive_leaf keepalive_atomic.
  - respects_with HR keeps_keepalive_leaf keepalive_atomic.
Qed.

Lemma steps_keep_keepalive hash inputs r :
  keepalive_ok r → keepalive_ok (steps hash inputs r).1.
Proof.
  revert r. induction inputs as [|i inputs IH]; intros r Hk; [done|].
  cbn [steps].
  pose proof (step_keeps_keepalive hash i r Hk) as H1.
  destruct (step hash i r) as [r1 o1]; cbn [fst] in H1.
  specialize (IH r1 H1).
  by destruct (steps hash inputs r1) as [r2 o2].
Qed.

(** X16.  While the object of a room stays in memory from its construction
    on, the keepalive interval is set whenever a browser peer or a local
    client is listed.  The close event of a listed socket stops the interval
    only when no browser peer and no local client is listed while the
    handler runs, the closing socket included: the close of a browser peer
    or of a local client therefore leaves the interval set, even when no
    back end is listed afterwards, and the close of an agent stops it when
    no back end is listed. *)
Theorem keepalive_outlives_last_backend (hash : string → string)
    (inputs : list Input) (ws : Socket) (tag : WebSocketTag) :
  let r := (steps hash inputs new_room).1 in
  let r' := (step hash (In_close ws) r).1 in
  tag_of ws r = Some tag →
  (getExtensionWebSocket r ≠ None ∨ getLocalWebSocket r ≠ None →
   pingInterval r = true)
  ∧ pingInterval r' = (if no_backend r then false else pingInterval r)
  ∧ (is_mcp tag = false → no_backend r = false ∧ pingInterval r' = true)
  ∧ (is_mcp tag = true → no_backend r = true → pingInterval r' = false).
Proof.
  intros r r' Htag.
  assert (Hk : keepalive_ok r).
  { apply steps_keep_keepalive. unfold keepalive_ok. cbn. by intros [?|?]. }
  assert (Hp : pingInterval r' = (if no_backend r then false else pingInterval r)).
  { unfold r'. rewrite (step_close hash ws r tag Htag). cbn [fst].
    unfold remove_peer. cbn [pingInterval set_peers set_departed].
    by destruct (run_webSocketClose_interval tag r) as (_ & _ & ->). }
  split_and!; [exact Hk|exact Hp| |].
  - intros Hmcp.
    assert (Hback : getExtensionWebSocket r ≠ None ∨ getLocalWebSocket r ≠ None).
    { destruct tag as [|c|c]; [left|done|right].
      - by apply (tag_of_listed ws r TagExtension Htag is_extension).
      - by apply (tag_of_listed ws r (TagLocal c) Htag is_local). }
    assert (Hno : no_backend r = false).
    { unfold no_backend. destruct Hback as [Hback|Hback];
        rewrite (bool_decide_eq_false_2 _ Hback); [done|apply andb_false_r]. }
    split; [done|]. rewrite Hp, Hno. by apply Hk.
  - intros _ Hno. by rewrite Hp, Hno.
Qed.

(** The local client of [room_local_alone] goes away: the interval stays
    set with no back end listed. *)
Lemma keepalive_outlives_last_backend_witness :
  let r' := (step toy_hash (In_close 1%nat) room_local_alone).1 in
  pingInterval r' = true
  ∧ getExtensionWebSocket r' = None ∧ getLocalWebSocket r' = None.
Proof.
  cbn zeta. split; [|by split].
  exact (proj2 (proj1 (proj2 (proj2
           (keepalive_outlives_last_backend toy_hash
              [In_fetch 0 1%nat {| req_pathname := "/local/dev";
                                   req_passphrase := Some "p" |}]
              1%nat (TagLocal "dev") eq_refl))) eq_refl)).
Defined.

(** ** The health check *)

(** X17.  A health check ([/] or [/health]) validates a passphrase it
    carries, with the side effect of a validation: on a room that has no
    passphrase yet it stores the digest of the one it carries, so that the
    room is claimed by a probe; on a claimed room it answers 200 or 403 as
    the digest matches or not.  Without a passphrase it answers 200 and
    stores nothing. *)
Theorem health_check_validates (hash : string → string) (now : Z) (server : Socket)
    (pathname : string) (r : Room) :
  pathname = "/" ∨ pathname = "/health" →
  let probe passphrase :=
    step hash (In_fetch now server
                 {| req_pathname := pathname; req_passphrase := passphrase |}) r in
  let ok := Respond {| status := 200; body := B_text "OK" |} in
  (∀ passphrase, truthy_string passphrase = false → probe passphrase = (r, [ok]))
  ∧ (∀ q, q ≠ "" → auth r = None →
       probe (Some q) =
         (set_auth (Some {| passphraseHash := hash q; createdAt := now |}) r, [ok]))
  ∧ (∀ q a, q ≠ "" → auth r = Some a →
       probe (Some q) =
         (r, [if bool_decide (hash q = passphraseHash a) then ok
              else Respond {| status := 403; body := B_text "Invalid passphrase" |}])).
Proof.
  intros Hpath probe ok.
  assert (Hp : String.eqb pathname "/" || String.eqb pathname "/health" = true)
    by (by destruct Hpath as [-> | ->]).
  split_and!.
  - intros passphrase Hfalsy. apply step_fetch.
    unfold fetch. cbn [req_pathname req_passphrase]. by rewrite Hp, Hfalsy.
  - intros q Hq Hnone. apply step_fetch.
    unfold fetch. cbn [req_pathname req_passphrase].
    rewrite Hp, (truthy_string_Some q Hq). cbn [default from_option id].
    unfold bind. by rewrite (validatePassphrase_first _ _ _ _ Hnone).
  - intros q a Hq Ha.
    destruct (bool_decide (hash q = passphraseHash a)) eqn:Hmatch;
      apply step_fetch; unfold fetch; cbn [req_pathname req_passphrase];
      rewrite Hp, (truthy_string_Some q Hq); cbn [default from_option id];
      unfold bind; by rewrite (validatePassphrase_later _ _ _ _ _ Ha), Hmatch.
Qed.

Lemma health_check_validates_witness :
  auth (step toy_hash
          (In_fetch 5 1%nat {| req_pathname := "/health"; req_passphrase := Some "p" |})
          new_room).1 =
    Some {| passphraseHash := "sha256:p"; createdAt := 5 |}.
Proof.
  assert (Hq : "p" ≠ "") by done.
  exact (f_equal (λ x, auth x.1)
           (proj1 (proj2 (health_check_validates toy_hash 5 1%nat "/health" new_room
                            (or_intror eq_refl)))
              "p" Hq eq_refl)).
Defined.

(** ** The worker's routing *)

Lemma append_assoc_char (cur : string) (c : Ascii.ascii) (s : string) :
  (cur +:+ String c "") +:+ s = cur +:+ String c s.
Proof.
  induction cur as [|a cur IH]; [done|].
  change (String a ((cur +:+ String c "") +:+ s) = String a (cur +:+ String c s)).
  by rewrite IH.
Qed.

Lemma append_empty_r (s : string) : s +:+ "" = s.
Proof.
  induction s as [|a s IH]; [done|].
  change (String a (s +:+ "") = String a s). by rewrite IH.
Qed.

Lemma split_slash_aux_segment (cur seg rest : string) :
  slash_free seg = true →
  split_slash_aux cur (seg +:+ rest) = split_slash_aux (cur +:+ seg) rest.
Proof.
  revert cur. induction seg as [|c seg IH]; intros cur Hfree.
  - by rewrite append_empty_r.
  - cbn in Hfree. apply andb_true_iff in Hfree as [Hc Hfree].
    apply negb_true_iff in Hc. cbn [String.append split_slash_aux].
    change (String c seg +:+ rest) with (String c (seg +:+ rest)).
    cbn [split_slash_aux]. rewrite Hc, (IH _ Hfree). by rewrite append_assoc_char.
Qed.

(** [split('/')] undoes [join('/')] on segments. *)
Lemma split_slash_aux_join (cur p : string) (ps : list string) :
  Forall (λ x, slash_free x = true) (p :: ps) →
  split_slash_aux cur (join_slash (p :: ps)) = (cur +:+ p) :: ps.
Proof.
  revert cur p. induction ps as [|q ps IH]; intros cur p Hfree.
  - cbn [join_slash]. rewrite <- (append_empty_r p) at 1.
    rewrite split_slash_aux_segment by (by inversion Hfree). done.
  - inversion Hfree as [|? ? Hp Hrest]; subst.
    change (join_slash (p :: q :: ps)) with (p +:+ "/" +:+ join_slash (q :: ps)).
    rewrite (split_slash_aux_segment _ _ _ Hp).
    change ("/" +:+ join_slash (q :: ps)) with (String "/" (join_slash (q :: ps))).
    cbn [split_slash_aux Ascii.eqb Bool.eqb]. by rewrite (IH "" q Hrest).
Qed.

Lemma room_subpath_join (roomId : string) (parts : list string) :
  roomId ≠ "" → slash_free roomId = true →
  Forall (λ p, p ≠ "" ∧ slash_free p = true) parts →
  room_subpath ("/room/" +:+ roomId +:+ "/" +:+ join_slash parts) =
    Some (roomId, "/" +:+ join_slash parts).
Proof.
  intros Hne Hfree Hparts. unfold room_subpath, split_slash.
  change ("/room/" +:+ roomId +:+ "/" +:+ join_slash parts)
    with (String "/" ("room" +:+ String "/" (roomId +:+ String "/" (join_slash parts)))).
  cbn [split_slash_aux Ascii.eqb Bool.eqb].
  rewrite (split_slash_aux_segment "" "room") by done.
  cbn [split_slash_aux Ascii.eqb Bool.eqb String.append].
  rewrite (split_slash_aux_segment "" roomId) by done.
  cbn [split_slash_aux Ascii.eqb Bool.eqb String.append].
  rewrite !filter_cons. rewrite decide_False by (by intros H; apply H).
  rewrite decide_True by done. rewrite decide_True by done.
  assert (Hrest : filter (λ x, x ≠ "") (split_slash_aux "" (join_slash parts)) = parts).
  { destruct parts as [|p ps]; [done|].
    rewrite split_slash_aux_join.
    - change ("" +:+ p) with p.
      induction Hparts as [|x l [Hx _] _ IH]; [done|].
      rewrite filter_cons, decide_True by done. by rewrite IH.
    - eapply Forall_impl; [exact Hparts|]. by intros x [_ ?]. }
  rewrite Hrest. done.
Qed.

Lemma worker_fetch_room request roomId subPath :
  room_subpath (wr_pathname request) = Some (roomId, subPath) →
  worker_fetch request =
    if String.eqb subPath "/mcp-server" || String.prefix "/mcp-server/" subPath
    then
      let passphrase := getPassphraseFromRequest request in
      if negb (truthy_string passphrase) then Routed_response passphrase_required
      else Routed_mcpServer roomId (default "" passphrase)
    else Routed_room roomId
           {| req_pathname := subPath; req_passphrase := wr_passphrase request |}.
Proof.
  intros Hsub. unfold worker_fetch.
  destruct (String.eqb_spec (wr_pathname request) "/") as [Heq|_].
  { rewrite Heq in Hsub. by vm_compute in Hsub. }
  destruct (String.eqb_spec (wr_pathname request) "/health") as [Heq|_].
  { rewrite Heq in Hsub. by vm_compute in Hsub. }
  cbn [orb]. by rewrite Hsub.
Qed.

(** X18.  On the MCP endpoint a bearer token takes precedence over the
    query parameter: with [Authorization: Bearer <token>] the passphrase is
    the token, whatever the query says, so an empty token is answered 401
    even when the query carries a passphrase; with no such header the
    passphrase is the query parameter. *)
Theorem bearer_token_shadows_query (request : WorkerRequest) (roomId : string) :
  room_subpath (wr_pathname request) = Some (roomId, "/mcp-server") →
  (∀ token, wr_authorization request = Some ("Bearer " +:+ token) →
     worker_fetch request =
       if String.eqb token "" then Routed_response passphrase_required
       else Routed_mcpServer roomId token)
  ∧ (wr_authorization request = None →
     worker_fetch request =
       match wr_passphrase request with
       | Some q => if String.eqb q "" then Routed_response passphrase_required
                   else Routed_mcpServer roomId q
       | None => Routed_response passphrase_required
       end).
Proof.
  intros Hsub. rewrite (worker_fetch_room request roomId _ Hsub).
  cbn [String.eqb Ascii.eqb Bool.eqb orb]. unfold getPassphraseFromRequest. split.
  - intros token ->.
    change (String.prefix "Bearer " ("Bearer " +:+ token)) with
      (String.prefix "Bearer " (String "B" (String "e" (String "a" (String "r"
         (String "e" (String "r" (String " " token)))))))).
    cbn [String.prefix]. repeat (rewrite decide_True_pi || destruct (Ascii.ascii_dec _ _); try done).
    cbn [String.prefix]. change (drop_string 7 ("Bearer " +:+ token)) with token.
    assert (Hp : String.prefix "" token = true) by (by destruct token).
    rewrite Hp.
    cbn [truthy_string default from_option id]. by destruct (String.eqb token "").
  - intros ->. destruct (wr_passphrase request) as [q|]; [|done].
    cbn [truthy_string default from_option id]. by destruct (String.eqb q "").
Qed.

Lemma bearer_token_shadows_query_witness :
  worker_fetch {| wr_pathname := "/room/r1/mcp-server";
                  wr_authorization := Some "Bearer ";
                  wr_passphrase := Some "p" |} =
    Routed_response passphrase_required.
Proof.
  exact (proj1 (bearer_token_shadows_query
                  {| wr_pathname := "/room/r1/mcp-server";
                     wr_authorization := Some "Bearer ";
                     wr_passphrase := Some "p" |} "r1" eq_refl) "" eq_refl).
Defined.

(** X19.  The worker hands a request for [/room/<roomId>/<segments>] to the
    room named [roomId] with the path rewritten to [/<segments>] and the
    query's passphrase kept, for every room id and every list of non-empty
    segments other than the MCP endpoint's; the room id is never part of the
    path the room sees. *)
Theorem worker_forwards_subpath (request : WorkerRequest) (roomId : string)
    (parts : list string) :
  roomId ≠ "" → slash_free roomId = true →
  Forall (λ p, p ≠ "" ∧ slash_free p = true) parts →
  wr_pathname request = "/room/" +:+ roomId +:+ "/" +:+ join_slash parts →
  let subPath := "/" +:+ join_slash parts in
  String.eqb subPath "/mcp-server" || String.prefix "/mcp-server/" subPath = false →
  worker_fetch request =
    Routed_room roomId
      {| req_pathname := subPath; req_passphrase := wr_passphrase request |}.
Proof.
  intros Hne Hfree Hparts Hpath subPath Hmcp.
  rewrite (worker_fetch_room request roomId subPath).
  - by rewrite Hmcp.
  - rewrite Hpath. by apply room_subpath_join.
Qed.

Lemma worker_forwards_subpath_witness :
  worker_fetch {| wr_pathname := "/room/r1/mcp/agent-7"; wr_authorization := None;
                  wr_passphrase := Some "p" |} =
    Routed_room "r1" {| req_pathname := "/mcp/agent-7"; req_passphrase := Some "p" |}.
Proof.
  refine (worker_forwards_subpath
            {| wr_pathname := "/room/r1/mcp/agent-7"; wr_authorization := None;
               wr_passphrase := Some "p" |} "r1" ["mcp"; "agent-7"] _ eq_refl _
            eq_refl eq_refl).
  - done.
  - repeat constructor; done.
Defined.

(** X20.  A bearer token opens only the MCP endpoint.  A request for a
    WebSocket endpoint of a room that carries its passphrase in the
    [Authorization] header but not in the query is answered 401, whatever
    the token is, and the room is left as it was. *)
Theorem bearer_token_not_accepted_by_room (hash : string → string) (now : Z)
    (server : Socket) (r : Room) (request : WorkerRequest)
    (roomId subPath : string) :
  room_subpath (wr_pathname request) = Some (roomId, subPath) →
  String.eqb subPath "/mcp-server" || String.prefix "/mcp-server/" subPath = false →
  subPath ∉ ["/"; "/health"; "/extension/status"; "/local/status"] →
  truthy_string (wr_passphrase request) = false →
  ∃ request',
    worker_fetch request = Routed_room roomId request'
    ∧ step hash (In_fetch now server request') r =
        (r, [Respond {| status := 401; body := B_text "Passphrase required" |}]).
Proof.
  intros Hsub Hmcp Hpath Hfalsy.
  eexists. split.
  - rewrite (worker_fetch_room request roomId subPath Hsub). by rewrite Hmcp.
  - apply step_fetch. unfold fetch. cbn [req_pathname req_passphrase].
    rewrite !(eqb_not_listed subPath _ _ Hpath) by listed. cbn [orb].
    by rewrite Hfalsy.
Qed.

Lemma bearer_token_not_accepted_by_room_witness :
  ∃ request',
    worker_fetch {| wr_pathname := "/room/r1/extension";
                    wr_authorization := Some "Bearer p"; wr_passphrase := None |} =
      Routed_room "r1" request'
    ∧ step toy_hash (In_fetch 7 9%nat request') room_two_agents =
        (room_two_agents,
         [Respond {| status := 401; body := B_text "Passphrase required" |}]).
Proof.
  refine (bearer_token_not_accepted_by_room toy_hash 7 9%nat room_two_agents
            {| wr_pathname := "/room/r1/extension";
               wr_authorization := Some "Bearer p"; wr_passphrase := None |}
            "r1" "/extension" eq_refl eq_refl _ eq_refl).
  intros Hin. revert Hin. refine (bool_decide_unpack _ _). vm_compute. exact I.
Defined.

(** X21.  The client id of an agent or of a local client is the second
    segment of the path the room sees: [/mcp/<id>] and [/mcp/<id>/...] name
    [id], while [/mcp] and [/mcp/] name the client ["default"], so that
    peers which give no id share one. *)
Theorem client_id_is_second_segment (role clientId : string) (rest : list string) :
  slash_free role = true → slash_free clientId = true →
  Forall (λ x, slash_free x = true) rest →
  path_clientId ("/" +:+ join_slash (role :: clientId :: rest)) =
    (if String.eqb clientId "" then "default" else clientId)
  ∧ path_clientId ("/" +:+ role) = "default".
Proof.
  intros Hrole Hid Hrest. unfold path_clientId, split_slash. split.
  - change ("/" +:+ join_slash (role :: clientId :: rest))
      with (String "/" (join_slash (role :: clientId :: rest))).
    cbn [split_slash_aux Ascii.eqb Bool.eqb].
    rewrite split_slash_aux_join by (by repeat constructor). done.
  - change ("/" +:+ role) with (String "/" (join_slash [role])).
    cbn [split_slash_aux Ascii.eqb Bool.eqb].
    rewrite split_slash_aux_join by (by repeat constructor). done.
Qed.

Lemma client_id_is_second_segment_witness :
  path_clientId "/mcp/agent-7" = "agent-7" ∧ path_clientId "/mcp" = "default".
Proof.
  refine (client_id_is_second_segment "mcp" "agent-7" [] eq_refl eq_refl _).
  constructor.
Defined.

(** ** The relay and the local client together *)

Lemma step_readFile_dispatch hash p r ws :
  getLocalWebSocket r = Some ws → socket_open ws r = true →
  let id := localMessageId r + 1 in
  step hash (In_readFile p) r =
    (set_pendingLocalRequests
       (JsMap.set id {| pl_timeout := 30000; pl_method := file_read;
                        pl_caller := K_readFile p |}
          (pendingLocalRequests r))
       (set_localMessageId id r),
     [Send ws (W_localCommand id file_read (LocalReadParams p))]).
Proof.
  intros Hws Hopen id. cbn [step].
  apply (run_call_dispatched _ _ id). unfold readFile.
  by rewrite (sendToLocalClient_dispatch _ _ _ _ _ _ Hws Hopen).
Qed.

(** A command the client answers with [answer]. *)
Lemma served_answer hash now i r disk r1 ws message answer disk' :
  step hash i r = (r1, [Send ws message]) →
  socket_open ws r1 = true →
  handleMessage now true message disk = Some (Some answer, disk') →
  served hash now i r disk =
    (let '(r2, log2) := step hash (In_message ws (Some (FromLocal answer))) r1 in
     (r2, disk', [Send ws message] ++ log2)).
Proof.
  intros Hstep Hopen Hanswer. unfold served. by rewrite Hstep, Hopen, Hanswer.
Qed.

Lemma served_read hash now p r disk ws cid :
  getLocalWebSocket r = Some ws → socket_open ws r = true →
  tag_of ws r = Some (TagLocal cid) →
  let id := localMessageId r + 1 in
  let pend := {| pl_timeout := 30000; pl_method := file_read;
                 pl_caller := K_readFile p |} in
  let r1 := set_pendingLocalRequests
              (JsMap.delete id (JsMap.set id pend (pendingLocalRequests r)))
              (set_localMessageId id r) in
  served hash now (In_readFile p) r disk =
    match disk !! p with
    | Some f =>
        let res := LocalReadResult (file_content f) (file_mtimeMs f) in
        (set_fileReadTimestamps (<[p := Some (file_mtimeMs f)]> (fileReadTimestamps r)) r1,
         disk,
         [Send ws (W_localCommand id file_read (LocalReadParams p));
          SettleLocal id pend (Ok (Some res)); Return id (Ok (Some res))])
    | None =>
        (r1, disk,
         [Send ws (W_localCommand id file_read (LocalReadParams p));
          SettleLocal id pend (Throw (enoent "stat" p));
          Return id (Throw (enoent "stat" p))])
    end.
Proof.
  intros Hws Hopen Htag id pend r1.
  pose proof (step_readFile_dispatch hash p r ws Hws Hopen) as Hstep.
  cbn zeta in Hstep. fold id pend in Hstep.
  set (r0 := set_pendingLocalRequests
               (JsMap.set id pend (pendingLocalRequests r))
               (set_localMessageId id r)) in *.
  destruct (disk !! p) as [f|] eqn:Hf.
  - rewrite (served_answer hash now _ r disk _ ws _
               (LocalResponse id (Some (LocalReadResult (file_content f) (file_mtimeMs f)))
                  None) disk Hstep); [|done|].
    + rewrite (local_reply_result hash ws cid id pend p _ r0 Htag); [done| |by left].
      cbn. apply JsMapFacts.get_set_eq.
    + cbn [handleMessage handleCommand]. unfold handleFileRead. by rewrite Hf.
  - rewrite (served_answer hash now _ r disk _ ws _
               (LocalResponse id None (Some (enoent "stat" p))) disk Hstep); [|done|].
    + rewrite (local_reply_error hash ws cid id pend None _ r0 Htag); [done| |done].
      cbn. apply JsMapFacts.get_set_eq.
    + cbn [handleMessage handleCommand]. unfold handleFileRead. by rewrite Hf.
Qed.

Lemma served_write hash now p c r disk ws cid m :
  getLocalWebSocket r = Some ws → socket_open ws r = true →
  tag_of ws r = Some (TagLocal cid) →
  fileReadTimestamps r !! p = Some (Some m) →
  let id := localMessageId r + 1 in
  let pend := {| pl_timeout := 30000; pl_method := file_write;
                 pl_caller := K_writeFile p |} in
  let r1 := set_pendingLocalRequests
              (JsMap.delete id (JsMap.set id pend (pendingLocalRequests r)))
              (set_localMessageId id r) in
  let command := Send ws (W_localCommand id file_write (LocalWriteParams p c (Some m))) in
  served hash now (In_writeFile p c) r disk =
    match handleFileWrite now p c (Some m) disk with
    | (Ok res, disk') =>
        (set_fileReadTimestamps (<[p := result_mtime res]> (fileReadTimestamps r)) r1,
         disk', [command; SettleLocal id pend (Ok (Some res)); Return id (Ok (Some res))])
    | (Throw e, disk') =>
        (r1, disk', [command; SettleLocal id pend (Throw e); Return id (Throw e)])
    end.
Proof.
  intros Hws Hopen Htag Hledger id pend r1 command.
  pose proof (step_writeFile_dispatch hash p c r ws m Hws Hopen Hledger) as Hstep.
  cbn zeta in Hstep. fold id pend in Hstep.
  set (r0 := set_pendingLocalRequests
               (JsMap.set id pend (pendingLocalRequests r))
               (set_localMessageId id r)) in *.
  unfold handleFileWrite.
  destruct (disk !! p) as [f|] eqn:Hf;
    [destruct (Z.abs (file_mtimeMs f - m) >? 1) eqn:Hstale|].
  - rewrite (served_answer hash now _ r disk _ ws _
               (LocalResponse id None
                  (Some ("File has been modified since last read. Expected mtime " +:+
                         pretty m +:+ ", got " +:+ pretty (file_mtimeMs f) +:+
                         ". Please read the file again to get the latest content.")))
               disk Hstep); [|done|].
    + rewrite (local_reply_error hash ws cid id pend None _ r0 Htag); [done| |done].
      cbn. apply JsMapFacts.get_set_eq.
    + cbn [handleMessage handleCommand]. unfold handleFileWrite. by rewrite Hf, Hstale.
  - rewrite (served_answer hash now _ r disk _ ws _
               (LocalResponse id (Some (LocalWriteResult now)) None)
               (<[p := {| file_content := c; file_mtimeMs := now |}]> disk) Hstep);
      [|done|].
    + rewrite (local_reply_result hash ws cid id pend p _ r0 Htag); [done| |by right].
      cbn. apply JsMapFacts.get_set_eq.
    + cbn [handleMessage handleCommand]. unfold handleFileWrite. by rewrite Hf, Hstale.
  - rewrite (served_answer hash now _ r disk _ ws _
               (LocalResponse id (Some (LocalWriteResult now)) None)
               (<[p := {| file_content := c; file_mtimeMs := now |}]> disk) Hstep);
      [|done|].
    + rewrite (local_reply_result hash ws cid id pend p _ r0 Htag); [done| |by right].
      cbn. apply JsMapFacts.get_set_eq.
    + cbn [handleMessage handleCommand]. unfold handleFileWrite. by rewrite Hf.
Qed.

(** X22.  A stale write is refused end to end.  When the file on the
    client's disk carries an mtime more than 1 ms away from the one the
    relay recorded at the last read, [writeFile] is rejected with the
    client's message, the file on disk is untouched, and the relay's ledger
    still holds the old mtime, so the caller has to read again. *)
Theorem stale_write_is_refused (hash : string → string) (now : Z)
    (p c : string) (r : Room) (disk : gmap string File) (ws : Socket) (cid : string)
    (m : Z) (f : File) :
  getLocalWebSocket r = Some ws → socket_open ws r = true →
  tag_of ws r = Some (TagLocal cid) →
  fileReadTimestamps r !! p = Some (Some m) →
  disk !! p = Some f →
  Z.abs (file_mtimeMs f - m) > 1 →
  let '(r', disk', log) := served hash now (In_writeFile p c) r disk in
  disk' = disk
  ∧ fileReadTimestamps r' = fileReadTimestamps r
  ∧ JsMap.get (localMessageId r') (pendingLocalRequests r') = None
  ∧ returned log =
      Some (Throw ("File has been modified since last read. Expected mtime " +:+
                   pretty m +:+ ", got " +:+ pretty (file_mtimeMs f) +:+
                   ". Please read the file again to get the latest content.")).
Proof.
  intros Hws Hopen Htag Hledger Hf Hstale.
  rewrite (served_write hash now p c r disk ws cid m Hws Hopen Htag Hledger).
  unfold handleFileWrite. rewrite Hf.
  assert (Hgt : (Z.abs (file_mtimeMs f - m) >? 1) = true) by lia.
  rewrite Hgt. split_and!; try done. cbn. apply JsMapFacts.get_delete_eq.
Qed.

Lemma stale_write_is_refused_witness :
  (served toy_hash 300 (In_writeFile "/tmp/x" "mine") room_read disk_edited).1.2 =
    disk_edited.
Proof.
  assert (Hstale : Z.abs (250 - 100) > 1) by lia.
  exact (proj1 (stale_write_is_refused toy_hash 300 "/tmp/x" "mine" room_read
                  disk_edited 1%nat "default" 100
                  {| file_content := "theirs"; file_mtimeMs := 250 |}
                  eq_refl eq_refl eq_refl eq_refl eq_refl Hstale)).
Defined.

(** X23.  A write is carried out when the file is as the relay last saw it
    up to 1 ms, and also when the file is gone: the client writes the
    content, stamps the file with the time of the write, and the relay
    records that time, so that the next write needs no new read.  A change
    of the file within 1 ms of the recorded mtime is therefore overwritten,
    and a file deleted since the read is created again. *)
Theorem write_within_tolerance_is_carried_out (hash : string → string) (now : Z)
    (p c : string) (r : Room) (disk : gmap string File) (ws : Socket) (cid : string) (m : Z) :
  getLocalWebSocket r = Some ws → socket_open ws r = true →
  tag_of ws r = Some (TagLocal cid) →
  fileReadTimestamps r !! p = Some (Some m) →
  (∀ f, disk !! p = Some f → Z.abs (file_mtimeMs f - m) ≤ 1) →
  let '(r', disk', log) := served hash now (In_writeFile p c) r disk in
  disk' = <[p := {| file_content := c; file_mtimeMs := now |}]> disk
  ∧ fileReadTimestamps r' = <[p := Some now]> (fileReadTimestamps r)
  ∧ returned log = Some (Ok (Some (LocalWriteResult now))).
Proof.
  intros Hws Hopen Htag Hledger Hfresh.
  rewrite (served_write hash now p c r disk ws cid m Hws Hopen Htag Hledger).
  unfold handleFileWrite.
  destruct (disk !! p) as [f|] eqn:Hf; [|done].
  assert (Hle : (Z.abs (file_mtimeMs f - m) >? 1) = false)
    by (specialize (Hfresh f eq_refl); lia).
  by rewrite Hle.
Qed.

Lemma write_within_tolerance_is_carried_out_witness :
  (served toy_hash 300 (In_writeFile "/tmp/x" "mine") room_read ∅).1.2 =
    {[ "/tmp/x" := {| file_content := "mine"; file_mtimeMs := 300 |} ]}.
Proof.
  assert (Hgone : ∀ f : File,
            (∅ : gmap string File) !! "/tmp/x" = Some f →
            Z.abs (file_mtimeMs f - 100) ≤ 1) by (intros f Hf; discriminate Hf).
  exact (proj1 (write_within_tolerance_is_carried_out toy_hash 300 "/tmp/x" "mine"
                  room_read ∅ 1%nat "default" 100
                  eq_refl eq_refl eq_refl eq_refl Hgone)).
Defined.

(** X24.  Reading a file and then writing it always works, whatever the
    relay had recorded before: the read returns the content and mtime on
    disk, the write that follows replaces the content, and a second write
    right after it succeeds as well without a new read. *)
Theorem read_then_write_succeeds (hash : string → string) (t1 t2 t3 : Z)
    (p c c' : string) (r : Room) (disk : gmap string File) (ws : Socket) (cid : string)
    (f : File) :
  getLocalWebSocket r = Some ws → socket_open ws r = true →
  tag_of ws r = Some (TagLocal cid) →
  disk !! p = Some f →
  let '(r1, disk1, log1) := served hash t1 (In_readFile p) r disk in
  let '(r2, disk2, log2) := served hash t2 (In_writeFile p c) r1 disk1 in
  let '(r3, disk3, log3) := served hash t3 (In_writeFile p c') r2 disk2 in
  returned log1 = Some (Ok (Some (LocalReadResult (file_content f) (file_mtimeMs f))))
  ∧ disk1 = disk
  ∧ returned log2 = Some (Ok (Some (LocalWriteResult t2)))
  ∧ disk2 = <[p := {| file_content := c; file_mtimeMs := t2 |}]> disk
  ∧ returned log3 = Some (Ok (Some (LocalWriteResult t3)))
  ∧ disk3 !! p = Some {| file_content := c'; file_mtimeMs := t3 |}.
Proof.
  intros Hws Hopen Htag Hf.
  rewrite (served_read hash t1 p r disk ws cid Hws Hopen Htag). rewrite Hf.
  cbv beta iota zeta.
  match goal with
  | |- context [served hash t2 (In_writeFile p c) ?r1 disk] =>
      rewrite (served_write hash t2 p c r1 disk ws cid (file_mtimeMs f) Hws Hopen Htag)
        by (cbn; apply lookup_insert_eq)
  end.
  unfold handleFileWrite at 1. rewrite Hf, Z.sub_diag.
  change (Z.abs 0 >? 1) with false. cbv beta iota zeta.
  match goal with
  | |- context [served hash t3 (In_writeFile p c') ?r2 ?d2] =>
      rewrite (served_write hash t3 p c' r2 d2 ws cid t2 Hws Hopen Htag)
        by (cbn; apply lookup_insert_eq)
  end.
  unfold handleFileWrite. rewrite lookup_insert_eq. cbn [file_mtimeMs].
  rewrite Z.sub_diag. change (Z.abs 0 >? 1) with false. cbv beta iota zeta.
  split_and!; try done. apply lookup_insert_eq.
Qed.

Lemma read_then_write_succeeds_witness :
  returned
    (served toy_hash 1 (In_readFile "/tmp/x") room_with_local disk_edited).2 =
    Some (Ok (Some (LocalReadResult "theirs" 250))).
Proof.
  exact (proj1 (read_then_write_succeeds toy_hash 1 2 3 "/tmp/x" "mine" "again"
                  room_with_local disk_edited 1%nat "default"
                  {| file_content := "theirs"; file_mtimeMs := 250 |}
                  eq_refl eq_refl eq_refl eq_refl)).
Defined.

(** X25.  A file that does not exist and for which the ledger holds no
    entry (no earlier read of that path is on record) cannot be created
    through [readFile] and [writeFile]: the read fails with the client's
    [ENOENT] error and records nothing, and the write that follows is
    refused by the relay before anything is sent to the client.  The
    condition on the ledger is needed: a failed read does not remove an
    entry that an earlier read left. *)
Theorem unread_missing_file_cannot_be_created (hash : string → string) (t1 t2 : Z)
    (p c : string) (r : Room) (disk : gmap string File) (ws : Socket) (cid : string) :
  getLocalWebSocket r = Some ws → socket_open ws r = true →
  tag_of ws r = Some (TagLocal cid) →
  fileReadTimestamps r !! p = None →
  disk !! p = None →
  let '(r1, disk1, log1) := served hash t1 (In_readFile p) r disk in
  let '(r2, disk2, log2) := served hash t2 (In_writeFile p c) r1 disk1 in
  returned log1 = Some (Throw (enoent "stat" p))
  ∧ log2 = [Rejected ("Cannot write to " +:+ p +:+
                      ": file has not been read yet. Read the file first to ensure you have the latest content.")]
  ∧ disk2 = disk
  ∧ fileReadTimestamps r2 = fileReadTimestamps r.
Proof.
  intros Hws Hopen Htag Hledger Hf.
  rewrite (served_read hash t1 p r disk ws cid Hws Hopen Htag). rewrite Hf.
  cbv beta iota zeta. unfold served.
  match goal with
  | |- context [step hash (In_writeFile p c) ?r1] =>
      assert (Hrefused :
        step hash (In_writeFile p c) r1 =
          (r1, [Rejected ("Cannot write to " +:+ p +:+
                          ": file has not been read yet. Read the file first to ensure you have the latest content.")]))
  end.
  { cbn [step]. apply (run_silent _ _ _ (Ok tt)); [|by repeat constructor].
    unfold call, try_catch, writeFile, bind, gets.
    cbn [fileReadTimestamps set_pendingLocalRequests set_localMessageId].
    by rewrite Hledger. }
  rewrite Hrefused. done.
Qed.

Lemma unread_missing_file_cannot_be_created_witness :
  returned (served toy_hash 1 (In_readFile "/tmp/new") room_with_local ∅).2 =
    Some (Throw (enoent "stat" "/tmp/new")).
Proof.
  exact (proj1 (unread_missing_file_cannot_be_created toy_hash 1 2 "/tmp/new" "mine"
                  room_with_local ∅ 1%nat "default"
                  eq_refl eq_refl eq_refl eq_refl eq_refl)).
Defined.

(** ** Agents and tools without a back end *)

(** X26.  When an agent's socket closes, nothing is cancelled and nobody is
    told: the relay sends nothing, the agent's commands in flight stay in
    the pending table (the browser still executes them), and the target
    registry, the ledger, the local requests, both counters and the
    passphrase record are what they were; only the socket leaves the list of
    peers. *)
Theorem agent_close_cancels_nothing (hash : string → string) (r : Room)
    (ws : Socket) (clientId : string) :
  tag_of ws r = Some (TagMcp clientId) →
  let '(r', log) := step hash (In_close ws) r in
  log = []
  ∧ peers r' = filter (λ p, peer_ws p ≠ ws) (peers r)
  ∧ pendingRequests r' = pendingRequests r
  ∧ connectedTargets r' = connectedTargets r
  ∧ fileReadTimestamps r' = fileReadTimestamps r
  ∧ pendingLocalRequests r' = pendingLocalRequests r
  ∧ messageId r' = messageId r
  ∧ localMessageId r' = localMessageId r
  ∧ auth r' = auth r.
Proof.
  intros Htag. cbn [step]. rewrite Htag.
  unfold run, webSocketClose, when. cbn [is_extension is_local].
  unfold bind, gets, ret, stopPingInterval, modify.
  match goal with
  | |- context [if ?b then _ else _] => by destruct b
  end.
Qed.

Lemma agent_close_cancels_nothing_witness :
  pendingRequests (step toy_hash (In_close 2%nat) room_busy).1 =
    pendingRequests room_busy.
Proof.
  exact (proj1 (proj2 (proj2 (agent_close_cancels_nothing toy_hash room_busy 2%nat "a"
                                eq_refl)))).
Defined.

(** X27.  Without a local client every tool call fails at once: [readFile],
    [executeBash] and a direct [sendToLocalClient] are rejected with "Local
    client not connected", and so is [writeFile] of a file the ledger knows;
    no request id is used up and the room is unchanged. *)
Theorem local_tools_need_a_client (hash : string → string) (r : Room) :
  getLocalWebSocket r = None →
  let refused := (r, [Rejected "Local client not connected"]) in
  (∀ path, step hash (In_readFile path) r = refused)
  ∧ (∀ command workdir timeout,
       step hash (In_executeBash command workdir timeout) r = refused)
  ∧ (∀ method params timeout,
       step hash (In_sendToLocalClient method params timeout) r = refused)
  ∧ (∀ path content m, fileReadTimestamps r !! path = Some (Some m) →
       step hash (In_writeFile path content) r = refused).
Proof.
  intros Hnone refused.
  assert (Hcall : ∀ m : M Z,
            m r = (Throw "Local client not connected", r, []) →
            run (call m) r = refused).
  { intros m Hm. apply (run_silent _ _ _ (Ok tt)); [|by repeat constructor].
    unfold call, try_catch, bind. by rewrite Hm. }
  split_and!.
  - intros path. cbn [step]. apply Hcall. unfold readFile.
    by apply sendToLocalClient_not_connected.
  - intros command workdir timeout. cbn [step]. apply Hcall. unfold executeBash.
    by apply sendToLocalClient_not_connected.
  - intros method params timeout. cbn [step]. apply Hcall.
    by apply sendToLocalClient_not_connected.
  - intros path content m Hledger. cbn [step]. apply Hcall.
    unfold writeFile, bind at 1, gets at 1. rewrite Hledger. cbn [mjoin option_join].
    rewrite (sendToLocalClient_not_connected _ _ _ _ _ Hnone). done.
Qed.

Lemma local_tools_need_a_client_witness :
  step toy_hash (In_readFile "/tmp/x") room_two_agents =
    (room_two_agents, [Rejected "Local client not connected"]).
Proof.
  exact (proj1 (local_tools_need_a_client toy_hash room_two_agents eq_refl) "/tmp/x").
Defined.

(** ** Who can change the registry and the ledger *)

Lemma same_targets_compositional : Compositional same_targets.
Proof.
  split; [done|]. unfold same_targets. intros r1 r2 r3 _ _ H12 H23. congruence.
Qed.

Lemma same_ledger_compositional : Compositional same_ledger.
Proof.
  split.
  - by intros r.
  - intros r1 r2 r3 o1 o2 [H12 Ho1] [H23 Ho2]. split; [congruence|].
    by apply Forall_app.
Qed.

Ltac same_targets_leaf := unfold same_targets; cbn; done.
Ltac same_ledger_leaf := unfold same_ledger; cbn; split; [done|by repeat constructor].

Lemma run_gets {A B} (f : Room → A) (k : A → M B) (r : Room) :
  run (let* x := gets f in k x) r = run (k (f r)) r.
Proof.
  unfold run, bind, gets.
  destruct (k (f r) r) as [[b r1] o1]. done.
Qed.

Lemma run_same_ledger {A} (m : M A) (r : Room) :
  respects same_ledger m → fileReadTimestamps (run m r).1 = fileReadTimestamps r.
Proof.
  intros Hm. rewrite run_unfold. cbn [fst].
  destruct (Hm r) as [Hl Hlog]. by rewrite (reactions_same_room _ _ Hlog).
Qed.

Lemma step_same_targets hash i r :
  from_browser i r = false →
  connectedTargets (step hash i r).1 = connectedTargets r.
Proof.
  pose proof same_targets_compositional as HR.
  assert (Hre : ∀ e, respects same_targets (reaction e))
    by (intros e; respects_auto HR same_targets_leaf).
  assert (Hrun : ∀ (m : M unit) r, respects same_targets m →
            connectedTargets (run m r).1 = connectedTargets r).
  { intros m r0 Hm. apply (respects_run _ HR m r0 Hm Hre). }
  intros Hfrom. destruct i; cbn [step].
  - apply Hrun. unfold fetch, validatePassphrase. respects_auto HR same_targets_leaf.
  - unfold webSocketMessage. rewrite run_gets. cbn [from_browser] in Hfrom.
    destruct data as [[message|message|command]|]; [|apply Hrun..].
    + destruct (tag_of ws r) as [[|c|c]|]; [|apply Hrun..].
      * done.
      * respects_auto HR same_targets_leaf.
      * respects_auto HR same_targets_leaf.
      * respects_auto HR same_targets_leaf.
    + destruct (tag_of ws r) as [[|c|c]|]; respects_auto HR same_targets_leaf.
    + destruct (tag_of ws r) as [[|c|c]|]; respects_auto HR same_targets_leaf.
    + respects_auto HR same_targets_leaf.
  - cbn [from_browser] in Hfrom. fold (step hash (In_close ws) r).
    destruct (tag_of ws r) as [tag|] eqn:Htag; [|by cbn [step]; rewrite Htag].
    rewrite (step_close hash ws r tag Htag). cbn [fst].
    unfold remove_peer. cbn [connectedTargets set_peers set_departed].
    apply Hrun. destruct tag as [|c|c]; [done|..];
      unfold webSocketClose; cbn [is_extension is_local when];
      respects_auto HR same_targets_leaf.
  - done.
  - apply Hrun. respects_auto HR same_targets_leaf.
  - apply Hrun. respects_auto HR same_targets_leaf.
  - destruct (pingInterval r); [|done]. apply Hrun. respects_auto HR same_targets_leaf.
  - apply Hrun. respects_auto HR same_targets_leaf.
  - apply Hrun. respects_auto HR same_targets_leaf.
  - apply Hrun. respects_auto HR same_targets_leaf.
  - apply Hrun. respects_auto HR same_targets_leaf.
Qed.

Lemma step_same_ledger hash i r :
  from_local_client i r = false →
  fileReadTimestamps (step hash i r).1 = fileReadTimestamps r.
Proof.
  pose proof same_ledger_compositional as HR.
  intros Hfrom. destruct i; cbn [step].
  - apply run_same_ledger. unfold fetch, validatePassphrase.
    respects_auto HR same_ledger_leaf.
  - unfold webSocketMessage. rewrite run_gets. cbn [from_local_client] in Hfrom.
    destruct data as [[message|message|command]|]; apply run_same_ledger.
    + destruct (tag_of ws r) as [[|c|c]|]; respects_auto HR same_ledger_leaf.
    + destruct (tag_of ws r) as [[|c|c]|]; [|done|..];
        respects_auto HR same_ledger_leaf.
    + destruct (tag_of ws r) as [[|c|c]|]; respects_auto HR same_ledger_leaf.
    + respects_auto HR same_ledger_leaf.
  - cbn [from_local_client] in Hfrom. fold (step hash (In_close ws) r).
    destruct (tag_of ws r) as [tag|] eqn:Htag; [|by cbn [step]; rewrite Htag].
    rewrite (step_close hash ws r tag Htag). cbn [fst].
    unfold remove_peer. cbn [fileReadTimestamps set_peers set_departed].
    apply run_same_ledger. destruct tag as [|c|c]; [| |done];
      unfold webSocketClose; cbn [is_extension is_local when];
      respects_auto HR same_ledger_leaf.
  - done.
  - apply run_same_ledger. respects_auto HR same_ledger_leaf.
  - unfold run, localTimeout, bind, gets.
    by destruct (JsMap.get id (pendingLocalRequests r)).
  - destruct (pingInterval r); [|done]. apply run_same_ledger.
    respects_auto HR same_ledger_leaf.
  - apply run_same_ledger. respects_auto HR same_ledger_leaf.
  - apply run_same_ledger. respects_auto HR same_ledger_leaf.
  - apply run_same_ledger. respects_auto HR same_ledger_leaf.
  - apply run_same_ledger. respects_auto HR same_ledger_leaf.
Qed.

(** X28.  The target registry changes only on a message from the browser
    peer or the close of its socket, and the read ledger only on a message
    from the local client or the close of its socket: no request, agent
    command, tool call, timeout or keepalive tick touches either. *)
Theorem tables_change_only_through_their_peer (hash : string → string)
    (i : Input) (r : Room) :
  (from_browser i r = false →
   connectedTargets (step hash i r).1 = connectedTargets r)
  ∧ (from_local_client i r = false →
     fileReadTimestamps (step hash i r).1 = fileReadTimestamps r).
Proof.
  split; intros Hfrom.
  - by apply step_same_targets.
  - by apply step_same_ledger.
Qed.

Lemma tables_change_only_through_their_peer_witness :
  connectedTargets
    (step toy_hash (In_message 2%nat (Some (FromMcp discover_command))) room_busy).1 =
    connectedTargets room_busy.
Proof.
  exact (proj1 (tables_change_only_through_their_peer toy_hash
                  (In_message 2%nat (Some (FromMcp discover_command))) room_busy)
           eq_refl).
Defined.

(** ** Rooms without a back end *)

Lemma getter_roster (p : WebSocketTag → bool) (r : Room) :
  head (peer_ws <$> filter (λ q, p (peer_tag q) = true) (peers r)) =
  head ((filter (λ x, p x.2 = true) (roster r)).*1).
Proof.
  unfold roster. f_equal. induction (peers r) as [|q l IH]; [done|].
  csimpl. rewrite !filter_cons. cbn [snd].
  destruct (decide (p (peer_tag q) = true)); csimpl; by rewrite IH.
Qed.

Lemma tag_of_roster (ws : Socket) (r : Room) :
  tag_of ws r = snd <$> List.find (λ x, Nat.eqb x.1 ws) (roster r).
Proof.
  unfold tag_of, roster. induction (peers r) as [|q l IH]; [done|].
  csimpl. destruct (Nat.eqb (peer_ws q) ws); [done|apply IH].
Qed.

Lemma same_roster_getters r r' :
  roster r' = roster r →
  getExtensionWebSocket r' = getExtensionWebSocket r
  ∧ getLocalWebSocket r' = getLocalWebSocket r
  ∧ ∀ ws, tag_of ws r' = tag_of ws r.
Proof.
  intros Hr. unfold getExtensionWebSocket, getLocalWebSocket.
  rewrite !getter_roster, Hr. split_and!; [done..|].
  intros ws. by rewrite !tag_of_roster, Hr.
Qed.

Lemma same_roster_compositional : Compositional same_roster.
Proof.
  split; [done|]. unfold same_roster. intros r1 r2 r3 _ _ H12 H23. congruence.
Qed.

Lemma ws_close_same_roster ws code reason :
  respects same_roster (ws_close ws code reason).
Proof.
  intros r. unfold ws_close, bind, modify, emit, state_of, same_roster, roster. cbn.
  rewrite <- list_fmap_compose. apply list_fmap_ext. intros _ q _. cbn.
  unfold mark_closed. by destruct (Nat.eqb _ _).
Qed.

Ltac same_roster_leaf := unfold same_roster; cbn; done.

Lemma reaction_same_roster e : respects same_roster (reaction e).
Proof. respects_auto same_roster_compositional same_roster_leaf. Qed.

Lemma filter_not_ws_id ws (l : list Peer) :
  ws ∉ peer_ws <$> l → filter (λ q, peer_ws q ≠ ws) l = l.
Proof.
  induction l as [|q l IH]; [done|]. csimpl. intros Hnot.
  apply not_elem_of_cons in Hnot as [Hne Hnot].
  rewrite filter_cons, decide_True by done. by rewrite IH.
Qed.

(** Removing a socket leaves the other roles' sockets as they were. *)
Lemma head_filter_remove_other (p : WebSocketTag → bool) ws tag (l : list Peer) :
  NoDup (peer_ws <$> l) →
  peer_tag <$> List.find (λ q, Nat.eqb (peer_ws q) ws) l = Some tag →
  p tag = false →
  head (peer_ws <$> filter (λ q, p (peer_tag q) = true)
                      (filter (λ q, peer_ws q ≠ ws) l)) =
  head (peer_ws <$> filter (λ q, p (peer_tag q) = true) l).
Proof.
  induction l as [|q l IH]; [done|]. csimpl. intros Hnd Hfind Hp.
  apply NoDup_cons in Hnd as [Hnot Hnd].
  rewrite (filter_cons (λ q, peer_ws q ≠ ws)), (filter_cons _ q l).
  destruct (Nat.eqb_spec (peer_ws q) ws) as [Heq|Hne].
  - injection Hfind as <-. rewrite decide_False by (by intros H; apply H).
    rewrite decide_False by (by rewrite Hp).
    rewrite filter_not_ws_id; [done|]. by rewrite <- Heq.
  - rewrite decide_True by done. rewrite filter_cons.
    destruct (decide (p (peer_tag q) = true)); [done|]. by apply IH.
Qed.

Lemma NoDup_remove_peer ws (l : list Peer) :
  NoDup (peer_ws <$> l) → NoDup (peer_ws <$> filter (λ q, peer_ws q ≠ ws) l).
Proof.
  induction l as [|q l IH]; [done|]. csimpl. intros Hnd.
  apply NoDup_cons in Hnd as [Hnot Hnd]. rewrite filter_cons.
  destruct (decide (peer_ws q ≠ ws)); [|by apply IH].
  csimpl. apply NoDup_cons. split; [|by apply IH].
  intros Hin. apply Hnot.
  apply list_elem_of_fmap in Hin as (x & -> & Hx).
  apply list_elem_of_filter in Hx as [_ Hx]. by apply list_elem_of_fmap_2.
Qed.

Lemma roster_sockets (r : Room) : (roster r).*1 = peer_ws <$> peers r.
Proof. unfold roster. rewrite <- list_fmap_compose. done. Qed.

Lemma tag_of_fresh server r :
  tag_of server r = None → server ∉ peer_ws <$> peers r.
Proof.
  unfold tag_of. intros Htag Hin.
  apply list_elem_of_fmap in Hin as (q & -> & Hq).
  destruct (List.find _ (peers r)) as [x|] eqn:Hfind; [done|].
  apply (list_elem_of_In _ _) in Hq.
  apply (find_none _ _ Hfind) in Hq. by rewrite Nat.eqb_refl in Hq.
Qed.

(** What a request does to the list of peers: nothing, or one new socket
    at its head. *)
Lemma fetch_peers hash now server request r :
  let r' := state_of (fetch hash now server request r) in
  peers r' = peers r
  ∨ ∃ tag, peers r' = {| peer_ws := server; peer_tag := tag; peer_open := true |}
                      :: peers r.
Proof.
  unfold fetch, validatePassphrase, handleExtensionUpgrade, handleLocalUpgrade,
    handleMcpUpgrade, startPingInterval, stopPingInterval, acceptWebSocket, respond,
    bind, gets, modify, ret, state_of.
  repeat case_match; simplify_eq/=; eauto.
Qed.

Lemma run_same_roster {A} (m : M A) (r : Room) :
  respects same_roster m → roster (run m r).1 = roster r.
Proof.
  intros Hm.
  apply (respects_run _ same_roster_compositional m r Hm reaction_same_roster).
Qed.

Lemma fetch_logs_nothing hash now server request :
  respects (λ _ _ log, log = []) (fetch hash now server request).
Proof.
  assert (HR : Compositional (λ (_ _ : Room) (log : list Effect), log = [])).
  { split; [done|]. by intros _ _ _ o1 o2 -> ->. }
  unfold fetch, validatePassphrase. respects_auto HR ltac:(done).
Qed.

Lemma step_fetch_peers hash now server request r :
  let r' := (step hash (In_fetch now server request) r).1 in
  peers r' = peers r
  ∨ ∃ tag, peers r' = {| peer_ws := server; peer_tag := tag; peer_open := true |}
                      :: peers r.
Proof.
  cbn [step].
  pose proof (fetch_peers hash now server request r) as Hpeers.
  pose proof (fetch_logs_nothing hash now server request r) as Hlog.
  unfold run, state_of, effects_of, bind, emit in *.
  destruct (fetch hash now server request r) as [[[resp|e] r1] o1];
    cbn [fst snd] in *; by subst o1.
Qed.

Lemma step_close_extension_targets hash ws r :
  tag_of ws r = Some TagExtension →
  connectedTargets (step hash (In_close ws) r).1 = JsMap.empty.
Proof.
  intros Htag. rewrite (step_close hash ws r _ Htag), run_unfold. cbn [fst].
  unfold remove_peer. cbn [connectedTargets set_peers set_departed].
  destruct (webSocketClose_extension r) as (r1 & Hclose & Ht & _).
  rewrite Hclose. cbn [state_of effects_of fst snd].
  rewrite reactions_same_room; [done|].
  apply Forall_app. split; apply Forall_fmap, Forall_forall.
  - by intros [id p] _.
  - by intros a _.
Qed.

Lemma step_close_local_ledger hash ws clientId r :
  tag_of ws r = Some (TagLocal clientId) →
  fileReadTimestamps (step hash (In_close ws) r).1 = ∅.
Proof.
  intros Htag. rewrite (step_close hash ws r _ Htag). cbn [fst].
  unfold remove_peer. cbn [fileReadTimestamps set_peers set_departed].
  unfold run.
  destruct (webSocketClose_local clientId r) as (r1 & Hclose & Hl & _).
  rewrite Hclose, for_each_rejected_local. done.
Qed.

Lemma getters_accept_None server tag r r' :
  peers r' = {| peer_ws := server; peer_tag := tag; peer_open := true |} :: peers r →
  (getExtensionWebSocket r' = None → getExtensionWebSocket r = None)
  ∧ (getLocalWebSocket r' = None → getLocalWebSocket r = None).
Proof.
  intros Hp. unfold getExtensionWebSocket, getLocalWebSocket. rewrite Hp.
  rewrite !filter_cons.
  split; intros Hnone; by destruct (decide _).
Qed.

Lemma roster_remove_peer ws r :
  roster (remove_peer ws r) = filter (λ x, x.1 ≠ ws) (roster r).
Proof.
  unfold roster, remove_peer. cbn [peers set_peers set_departed].
  induction (peers r) as [|q l IH]; [done|].
  csimpl. rewrite !filter_cons. cbn [fst].
  destruct (decide (peer_ws q ≠ ws)); csimpl; by rewrite IH.
Qed.

(** Removing an agent's socket, or one that is not listed, leaves the
    back-end peers as they were. *)
Lemma remove_peer_backends ws r :
  NoDup (peer_ws <$> peers r) →
  match tag_of ws r with
  | Some TagExtension | Some (TagLocal _) => False
  | _ => True
  end →
  getExtensionWebSocket (remove_peer ws r) = getExtensionWebSocket r
  ∧ getLocalWebSocket (remove_peer ws r) = getLocalWebSocket r.
Proof.
  intros Hnd Htag. unfold getExtensionWebSocket, getLocalWebSocket, remove_peer.
  cbn [peers set_peers set_departed].
  destruct (tag_of ws r) as [tag|] eqn:Hfind.
  - destruct tag as [|c|c]; [done| |done].
    by rewrite !(head_filter_remove_other _ ws (TagMcp c) _ Hnd Hfind).
  - by rewrite (filter_not_ws_id ws (peers r) (tag_of_fresh ws r Hfind)).
Qed.


Lemma step_torn_down hash i r :
  match i with
  | In_fetch _ server _ => tag_of server r = None
  | _ => True
  end →
  error_on_backend i r = false →
  NoDup (peer_ws <$> peers r) → torn_down r →
  NoDup (peer_ws <$> peers (step hash i r).1) ∧ torn_down (step hash i r).1.
Proof.
  intros Hfresh Herr Hnd [Hext Hloc].
  assert (Hother : roster (step hash i r).1 = roster r →
            (from_browser i r = true → getExtensionWebSocket r ≠ None) →
            (from_local_client i r = true → getLocalWebSocket r ≠ None) →
            NoDup (peer_ws <$> peers (step hash i r).1)
            ∧ torn_down (step hash i r).1).
  { intros Hroster Hb Hl.
    destruct (same_roster_getters _ _ Hroster) as (He & Hlo & _).
    split; [by rewrite <- roster_sockets, Hroster, roster_sockets|].
    split; rewrite ?He, ?Hlo; intros Hnone.
    - destruct (from_browser i r) eqn:Hfrom; [by destruct (Hb eq_refl)|].
      rewrite (step_same_targets hash i r Hfrom). by apply Hext.
    - destruct (from_local_client i r) eqn:Hfrom; [by destruct (Hl eq_refl)|].
      rewrite (step_same_ledger hash i r Hfrom). by apply Hloc. }
  pose proof same_roster_compositional as HR.
  destruct i.
  - pose proof (step_same_targets hash (In_fetch now server request) r eq_refl) as Ht.
    pose proof (step_same_ledger hash (In_fetch now server request) r eq_refl) as Hl.
    destruct (step_fetch_peers hash now server request r) as [Hp|[tag Hp]].
    + split; [by rewrite Hp|]. unfold torn_down, getExtensionWebSocket,
        getLocalWebSocket. rewrite Hp, Ht, Hl. by split.
    + split.
      * rewrite Hp. csimpl. apply NoDup_cons. split; [|done].
        by apply (tag_of_fresh _ _ Hfresh).
      * destruct (getters_accept_None _ _ _ _ Hp) as [He Hlo].
        unfold torn_down. rewrite Ht, Hl. split; intros Hnone; auto.
  - apply Hother.
    + cbn [step]. apply run_same_roster. respects_auto HR same_roster_leaf.
    + cbn [from_browser]. destruct data as [[m|m|c]|]; try done.
      destruct (tag_of ws r) as [[|c|c]|] eqn:Htag; try done. intros _.
      by apply (tag_of_listed ws r TagExtension Htag is_extension).
    + cbn [from_local_client]. destruct data as [[m|m|c]|]; try done.
      destruct (tag_of ws r) as [[|c|c]|] eqn:Htag; try done. intros _.
      by apply (tag_of_listed ws r (TagLocal c) Htag is_local).
  - destruct (tag_of ws r) as [tag|] eqn:Htag; [|by cbn [step]; rewrite Htag].
    assert (Hroster : roster (step hash (In_close ws) r).1 = roster (remove_peer ws r)).
    { rewrite (step_close hash ws r tag Htag). cbn [fst].
      rewrite !roster_remove_peer. f_equal. apply run_same_roster.
      respects_with HR same_roster_leaf ltac:(apply ws_close_same_roster). }
    destruct (same_roster_getters _ _ Hroster) as (He & Hlo & _).
    assert (Hfind : peer_tag <$> List.find (λ q, Nat.eqb (peer_ws q) ws) (peers r)
                    = Some tag) by done.
    split.
    { rewrite <- roster_sockets, Hroster, roster_sockets. by apply NoDup_remove_peer. }
    split; rewrite ?He, ?Hlo; intros Hnone.
    + destruct tag as [|c|c].
      * by apply step_close_extension_targets.
      * rewrite (step_same_targets hash (In_close ws) r)
          by (cbn [from_browser]; by rewrite Htag).
        apply Hext. unfold getExtensionWebSocket, remove_peer in *.
        cbn [peers set_peers set_departed] in Hnone.
        by rewrite (head_filter_remove_other is_extension ws _ _ Hnd Hfind) in Hnone.
      * rewrite (step_same_targets hash (In_close ws) r)
          by (cbn [from_browser]; by rewrite Htag).
        apply Hext. unfold getExtensionWebSocket, remove_peer in *.
        cbn [peers set_peers set_departed] in Hnone.
        by rewrite (head_filter_remove_other is_extension ws _ _ Hnd Hfind) in Hnone.
    + destruct tag as [|c|c].
      * rewrite (step_same_ledger hash (In_close ws) r)
          by (cbn [from_local_client]; by rewrite Htag).
        apply Hloc. unfold getLocalWebSocket, remove_peer in *.
        cbn [peers set_peers set_departed] in Hnone.
        by rewrite (head_filter_remove_other is_local ws _ _ Hnd Hfind) in Hnone.
      * rewrite (step_same_ledger hash (In_close ws) r)
          by (cbn [from_local_client]; by rewrite Htag).
        apply Hloc. unfold getLocalWebSocket, remove_peer in *.
        cbn [peers set_peers set_departed] in Hnone.
        by rewrite (head_filter_remove_other is_local ws _ _ Hnd Hfind) in Hnone.
      * by apply (step_close_local_ledger hash ws c).
  - fold (step hash (In_error ws) r). rewrite step_error. cbn [fst].
    split; [unfold remove_peer; cbn [peers set_peers set_departed];
            by apply NoDup_remove_peer|].
    cbn [error_on_backend] in Herr.
    destruct (remove_peer_backends ws r Hnd) as [He Hlo].
    { by destruct (tag_of ws r) as [[|c|c]|]. }
    unfold torn_down. by rewrite He, Hlo.
  - apply Hother; [|done..].
    cbn [step]. apply run_same_roster. respects_auto HR same_roster_leaf.
  - apply Hother; [|done..].
    cbn [step]. apply run_same_roster. respects_auto HR same_roster_leaf.
  - apply Hother; [|done..].
    cbn [step]. destruct (pingInterval r); [|done].
    apply run_same_roster. respects_auto HR same_roster_leaf.
  - apply Hother; [|done..].
    cbn [step]. apply run_same_roster. respects_auto HR same_roster_leaf.
  - apply Hother; [|done..].
    cbn [step]. apply run_same_roster. respects_auto HR same_roster_leaf.
  - apply Hother; [|done..].
    cbn [step]. apply run_same_roster. respects_auto HR same_roster_leaf.
  - apply Hother; [|done..].
    cbn [step]. apply run_same_roster. respects_auto HR same_roster_leaf.
Qed.

(** X29.  Teardown is complete when back ends leave through a close event.
    While the object of a room stays in memory from its construction on,
    with every admission on a socket of its own, and provided no socket of
    a browser peer or of a local client leaves the list through
    [webSocketError] (which only logs) instead of a close event, the target
    registry is empty whenever no browser peer is listed and the read
    ledger is empty whenever no local client is listed. *)
Theorem no_backend_no_state (hash : string → string) (inputs : list Input) :
  fresh_sockets hash inputs new_room →
  backends_leave_by_close hash inputs new_room →
  let r := (steps hash inputs new_room).1 in
  (getExtensionWebSocket r = None → connectedTargets r = JsMap.empty)
  ∧ (getLocalWebSocket r = None → fileReadTimestamps r = ∅).
Proof.
  assert (Hsteps : ∀ inputs r,
            fresh_sockets hash inputs r →
            backends_leave_by_close hash inputs r →
            NoDup (peer_ws <$> peers r) → torn_down r →
            torn_down (steps hash inputs r).1).
  { clear inputs. intros inputs.
    induction inputs as [|i inputs IH]; intros r Hfresh Hclose Hnd Ht; [done|].
    cbn [steps]. destruct Hfresh as [Hi Hfresh]. destruct Hclose as [He Hclose].
    destruct (step_torn_down hash i r Hi He Hnd Ht) as [Hnd1 Ht1].
    destruct (step hash i r) as [r1 o1]; cbn [fst] in *.
    specialize (IH r1 Hfresh Hclose Hnd1 Ht1).
    by destruct (steps hash inputs r1) as [r2 o2]. }
  intros Hfresh Hclose. apply (Hsteps inputs new_room Hfresh Hclose).
  - cbn. apply NoDup_nil_2.
  - by split.
Qed.

Lemma no_backend_no_state_witness :
  connectedTargets (steps toy_hash (take 2 run_browser_leaves) new_room).1 =
    [("s1", {| ct_sessionId := "s1"; ct_targetId := "t1";
               ct_targetInfo := page "t1" "/a" |})]
  ∧ connectedTargets (steps toy_hash run_browser_leaves new_room).1 = JsMap.empty.
Proof.
  split; [reflexivity|].
  refine (proj1 (no_backend_no_state toy_hash run_browser_leaves _ _) eq_refl);
    repeat split.
Defined.

(** * Fan-out of events to the agents *)
























